(** * PCSX2 socket IPC: the command dispatcher of [pcsx2/IPC.cpp]

    A shallow embedding of [SocketIPC::ParseCommand], of the two reply
    builders [MakeOkIPC] / [MakeFailIPC] and of the one-connection exchange
    of [SocketIPC::ExecuteTaskInThread], followed by the properties of the
    wire protocol.

    Conventions.
    - A [char] of a buffer is a [byte]; a buffer is a [list byte] whose
      length is the size of the C++ array.
    - [u16], [u32] and [int] values are integers of [Z]; every C++
      operation that can wrap is written with its wrap-around.
    - The emulated memory is external: it is a type [M] with the eight
      access functions of [Memory.h] as a type class. A read returns the
      value and the memory after the read, so that side-effecting reads
      (hardware registers) are covered.
    - The header [IPC.h] is not among the sources: its constants (opcode
      bytes, status bytes, buffer sizes) are the fields of [IPCConfig], and
      its three helpers are modelled from the specification. *)

From Stdlib Require Import ZArith List Bool Lia.
From coqutil Require Import Byte Word.LittleEndianList.
Import ListNotations.
Local Open Scope Z_scope.

(** ** Integer types *)

(** The unsigned integer types the dispatcher decodes and encodes. *)
Inductive uint : Set := U8 | U16 | U32 | U64.

(** [sizeof(T)] in bytes. *)
Definition sizeof (T : uint) : nat :=
  match T with U8 => 1 | U16 => 2 | U32 => 4 | U64 => 8 end%nat.

(** The number of bits of [T]. *)
Definition bits (T : uint) : Z := 8 * Z.of_nat (sizeof T).

(** Conversion of an integer to the unsigned type [T]. *)
Definition wrap (T : uint) (z : Z) : Z := z mod 2 ^ bits T.

(** The cast [(int)x] of a [u32]. *)
Definition to_int (z : Z) : Z := (z + 2 ^ 31) mod 2 ^ 32 - 2 ^ 31.

(** ** The constants of [IPC.h] *)

Inductive byte_order : Set := LittleEndian | BigEndian.

(** The values [IPC.h] defines and [IPC.cpp] uses by name only. An opcode
    or status is one byte: the switch compares the request byte, cast to
    [IPCCommand], with the labels. The byte order is that of the host, on
    which [FromArray] and [ToArray] copy the object representation of an
    integer. *)
Record IPCConfig : Type := {
  MsgRead8 : byte;
  MsgRead16 : byte;
  MsgRead32 : byte;
  MsgRead64 : byte;
  MsgWrite8 : byte;
  MsgWrite16 : byte;
  MsgWrite32 : byte;
  MsgWrite64 : byte;
  MsgMultiCommand : byte;
  IPC_OK : byte;
  IPC_FAIL : byte;
  MAX_IPC_SIZE : Z;
  MAX_IPC_RETURN_SIZE : Z;
  wire_order : byte_order
}.

(** The eight case labels of the switch of [ParseCommand], in the order of
    the source. *)
Definition case_labels (cfg : IPCConfig) : list byte :=
  [MsgRead8 cfg; MsgRead16 cfg; MsgRead32 cfg; MsgRead64 cfg;
   MsgWrite8 cfg; MsgWrite16 cfg; MsgWrite32 cfg; MsgWrite64 cfg].

Fixpoint distinct (l : list byte) : bool :=
  match l with
  | [] => true
  | b :: l' => negb (existsb (Byte.eqb b) l') && distinct l'
  end.

(** What the C++ compiler and the protocol require of the constants: the
    case labels of one switch are pairwise distinct, the batch tag is none of
    them, the two status codes differ, and both buffers are arrays of a
    positive size that a [u32] cursor and an [int] length can hold. *)
Definition well_formed (cfg : IPCConfig) : bool :=
  distinct (MsgMultiCommand cfg :: case_labels cfg)
  && negb (Byte.eqb (IPC_OK cfg) (IPC_FAIL cfg))
  && (1 <=? MAX_IPC_SIZE cfg) && (MAX_IPC_SIZE cfg <? 2 ^ 31)
  && (1 <=? MAX_IPC_RETURN_SIZE cfg) && (MAX_IPC_RETURN_SIZE cfg <? 2 ^ 31).

(** ** Buffers *)

(** [buf[i]]. Reading past the end of the array is undefined behaviour in
    C++; the model reads a zero byte there, and [ParseCommand_beyond_capacity]
    shows that no result of the dispatcher depends on such a byte. *)
Definition byte_at (buf : list byte) (i : Z) : byte :=
  nth (Z.to_nat i) buf Byte.x00.

(** The [n] bytes [buf[i]], ..., [buf[i+n-1]]. *)
Definition bytes_at (buf : list byte) (i : Z) (n : nat) : list byte :=
  map (fun k => byte_at buf (i + Z.of_nat k)) (seq 0 n).

(** A pointer into a buffer: [&buf[i]] is [(buf, i)]. *)
Definition pointer : Type := list byte * Z.

(** [memcpy(dst + i, src, n)] with [src] given as its [n] bytes. The
    dispatcher calls it within the array only ([ret_cnt + n] is checked
    against the capacity first). *)
Definition memcpy_at (dst : list byte) (i : Z) (src : list byte) : list byte :=
  firstn (Z.to_nat i) dst ++ src ++ skipn (Z.to_nat i + length src) dst.

(** [dst[0] = b]; nothing is modelled for an empty array. *)
Definition set_first (dst : list byte) (b : byte) : list byte :=
  match dst with
  | [] => []
  | _ :: rest => b :: rest
  end.

(** ** Wire codec and bounds check (helpers of [IPC.h]) *)

(** The object representation of the low [n] bytes of [v]. *)
Definition encode (o : byte_order) (n : nat) (v : Z) : list byte :=
  match o with
  | LittleEndian => le_split n v
  | BigEndian => rev (le_split n v)
  end.

Definition decode (o : byte_order) (bs : list byte) : Z :=
  match o with
  | LittleEndian => le_combine bs
  | BigEndian => le_combine (rev bs)
  end.

(** ** The memory access facade ([Memory.h]) and the calls made to it *)

(** The eight access functions, on an explicit memory [M]. [memRead64]
    returns through a pointer in the source; here it returns its result. *)
Class MemoryFacade (M : Type) : Type := {
  memRead8 : Z -> M -> Z * M;
  memRead16 : Z -> M -> Z * M;
  memRead32 : Z -> M -> Z * M;
  memRead64 : Z -> M -> Z * M;
  memWrite8 : Z -> Z -> M -> M;
  memWrite16 : Z -> Z -> M -> M;
  memWrite32 : Z -> Z -> M -> M;
  memWrite64 : Z -> Z -> M -> M
}.

(** The access functions by width. *)
Definition memRead {M} `{MemoryFacade M} (T : uint) : Z -> M -> Z * M :=
  match T with
  | U8 => memRead8 | U16 => memRead16 | U32 => memRead32 | U64 => memRead64
  end.

Definition memWrite {M} `{MemoryFacade M} (T : uint) : Z -> Z -> M -> M :=
  match T with
  | U8 => memWrite8 | U16 => memWrite16 | U32 => memWrite32 | U64 => memWrite64
  end.

(** A call of the facade, as the dispatcher makes it: a read with the value
    it stored in [res], a write with the value it passed. *)
Inductive MemCall : Set :=
| CallRead (T : uint) (a : Z) (res : Z)
| CallWrite (T : uint) (a : Z) (v : Z).

Section Dispatcher.

Variable cfg : IPCConfig.
Context {M : Type} {facade : MemoryFacade M}.

(** Modelled from the spec: [FromArray<T>(arr, i)] is declared in IPC.h,
    which is missing; the spec's Wire Codec "decode<width>(buffer, offset)"
    is a fixed-endian decode of an unsigned integer of 1/2/4/8 bytes at the
    given offset, without validation. *)
Definition FromArray (T : uint) (arr : pointer) (i : Z) : Z :=
  decode (wire_order cfg) (bytes_at (fst arr) (snd arr + i) (sizeof T)).

(** Modelled from the spec: [ToArray(res_array, res, i)] is declared in
    IPC.h, which is missing; the spec's Wire Codec "encode<width>(buffer,
    offset, value)" writes the fixed-endian bytes of the value at the
    offset, without validation. *)
Definition ToArray (T : uint) (res_array : list byte) (res : Z) (i : Z)
  : list byte :=
  memcpy_at res_array i (encode (wire_order cfg) (sizeof T) res).

(** Modelled from the spec: [SafetyChecks] is declared in IPC.h, which is
    missing; the spec gives its formula: "fail if request_cursor +
    needed_request_bytes > request_capacity OR reply_cursor +
    needed_reply_bytes > reply_capacity". The result is [true] when the
    check passes, as the caller's [if (!SafetyChecks(...)) goto error]
    needs; the reply size is 0 where the call of the source omits it. *)
Definition SafetyChecks (command_len command_size reply_len reply_size : Z)
  : bool :=
  negb ((MAX_IPC_SIZE cfg <? command_len + command_size)
        || (MAX_IPC_RETURN_SIZE cfg <? reply_len + reply_size)).

(** [MakeOkIPC] and [MakeFailIPC]: the status byte is stored at index 0 and
    the same buffer is returned. *)
Definition MakeOkIPC (ret_buffer : list byte) : list byte :=
  set_first ret_buffer (IPC_OK cfg).

Definition MakeFailIPC (ret_buffer : list byte) : list byte :=
  set_first ret_buffer (IPC_FAIL cfg).

(** ** [SocketIPC::ParseCommand] *)

(** The variables of one run of the dispatcher: the emulated memory, the
    reply buffer and the two cursors, with the facade calls made so far. *)
Record ParseState : Type := {
  vm : M;
  ret_buffer : list byte;
  ret_cnt : Z;
  buf_cnt : Z;
  calls : list MemCall
}.

(** How one iteration of the batch loop ends: at [break], or at the label
    [error]. *)
Inductive Flow : Type :=
| Next (st : ParseState)
| Abort (st : ParseState).

(** The statements of a read case after its check:
    [res = memReadN(a); ToArray(ret_buffer, res, ret_cnt);
     ret_cnt += reply_size; buf_cnt += command_size;]. *)
Definition read_case (T : uint) (a : Z) (command_size reply_size : Z)
  (st : ParseState) : ParseState :=
  let (r, vm') := memRead T a (vm st) in
  let res := wrap T r in
  {| vm := vm';
     ret_buffer := ToArray T (ret_buffer st) res (ret_cnt st);
     ret_cnt := wrap U32 (ret_cnt st + reply_size);
     buf_cnt := wrap U32 (buf_cnt st + command_size);
     calls := calls st ++ [CallRead T a res] |}.

(** The statements of a write case after its check:
    [memWriteN(a, FromArray<uN>(&buf[buf_cnt], 5)); buf_cnt += command_size;]. *)
Definition write_case (T : uint) (a : Z) (buf : list byte) (command_size : Z)
  (st : ParseState) : ParseState :=
  let v := FromArray T (buf, buf_cnt st) 5 in
  {| vm := memWrite T a v (vm st);
     ret_buffer := ret_buffer st;
     ret_cnt := ret_cnt st;
     buf_cnt := wrap U32 (buf_cnt st + command_size);
     calls := calls st ++ [CallWrite T a v] |}.

(** The body of the batch loop: the address is read first, then the switch
    on the opcode byte runs the case of the first matching label. *)
Definition ParseSub (buf : list byte) (st : ParseState) : Flow :=
  let a := FromArray U32 (buf, buf_cnt st) 1 in
  let op := byte_at buf (buf_cnt st) in
  if Byte.eqb op (MsgRead8 cfg) then
    if negb (SafetyChecks (buf_cnt st) 5 (ret_cnt st) 1) then Abort st
    else Next (read_case U8 a 5 1 st)
  else if Byte.eqb op (MsgRead16 cfg) then
    if negb (SafetyChecks (buf_cnt st) 5 (ret_cnt st) 2) then Abort st
    else Next (read_case U16 a 5 2 st)
  else if Byte.eqb op (MsgRead32 cfg) then
    if negb (SafetyChecks (buf_cnt st) 5 (ret_cnt st) 4) then Abort st
    else Next (read_case U32 a 5 4 st)
  else if Byte.eqb op (MsgRead64 cfg) then
    if negb (SafetyChecks (buf_cnt st) 5 (ret_cnt st) 8) then Abort st
    else Next (read_case U64 a 5 8 st)
  else if Byte.eqb op (MsgWrite8 cfg) then
    if negb (SafetyChecks (buf_cnt st) 6 (ret_cnt st) 0) then Abort st
    else Next (write_case U8 a buf 6 st)
  else if Byte.eqb op (MsgWrite16 cfg) then
    if negb (SafetyChecks (buf_cnt st) 7 (ret_cnt st) 0) then Abort st
    else Next (write_case U16 a buf 7 st)
  else if Byte.eqb op (MsgWrite32 cfg) then
    if negb (SafetyChecks (buf_cnt st) 9 (ret_cnt st) 0) then Abort st
    else Next (write_case U32 a buf 9 st)
  else if Byte.eqb op (MsgWrite64 cfg) then
    if negb (SafetyChecks (buf_cnt st) 13 (ret_cnt st) 0) then Abort st
    else Next (write_case U64 a buf 13 st)
  else Abort st.

(** [n] iterations of [for (u16 i = 0; i < batch; i++)]; the body changes
    neither [i] nor [batch], so the loop runs [batch] times unless a
    sub-command jumps to [error]. *)
Fixpoint ParseLoop (n : nat) (buf : list byte) (st : ParseState) : Flow :=
  match n with
  | O => Next st
  | S n' =>
      match ParseSub buf st with
      | Next st' => ParseLoop n' buf st'
      | Abort st' => Abort st'
      end
  end.

(** The batch size and the request cursor after the optional header:
    [batch = 1; buf_cnt = 0; if ((IPCCommand)buf[0] == MsgMultiCommand)
     { batch = FromArray<u16>(&buf[buf_cnt], 1); buf_cnt += 3; }]. *)
Definition ParseHeader (buf : list byte) : Z * Z :=
  let batch := 1 in
  let buf_cnt := 0 in
  if Byte.eqb (byte_at buf 0) (MsgMultiCommand cfg)
  then (FromArray U16 (buf, buf_cnt) 1, wrap U32 (buf_cnt + 3))
  else (batch, buf_cnt).

(** The state in which the batch loop is entered ([ret_cnt = 1]). *)
Definition EnterLoop (m : M) (buf ret_buffer0 : list byte) : ParseState :=
  {| vm := m; ret_buffer := ret_buffer0; ret_cnt := 1;
     buf_cnt := snd (ParseHeader buf); calls := [] |}.

(** The whole batch loop of a request: [batch] iterations from the state
    after the header. *)
Definition BatchLoop (m : M) (buf ret_buffer0 : list byte) : Flow :=
  ParseLoop (Z.to_nat (fst (ParseHeader buf))) buf
    (EnterLoop m buf ret_buffer0).

(** The struct [IPCBuffer]: the length of the reply and the buffer holding
    it. *)
Record IPCBuffer : Type := {
  size : Z;
  buffer : list byte
}.

(** What a run of [ParseCommand] leaves: its result, the emulated memory and
    the facade calls it made. *)
Record Outcome : Type := {
  reply : IPCBuffer;
  vm_after : M;
  calls_made : list MemCall
}.

(** [ParseCommand(buf, ret_buffer)], with the answer of
    [m_vm->HasActiveMachine()] and the emulated memory as inputs;
    [ret_buffer0] is the reply buffer as the caller passes it. *)
Definition ParseCommand (HasActiveMachine : bool) (m : M)
  (buf ret_buffer0 : list byte) : Outcome :=
  if negb HasActiveMachine then
    {| reply := {| size := 1; buffer := MakeFailIPC ret_buffer0 |};
       vm_after := m; calls_made := [] |}
  else
    match BatchLoop m buf ret_buffer0 with
    | Abort st =>
        {| reply := {| size := 1; buffer := MakeFailIPC (ret_buffer st) |};
           vm_after := vm st; calls_made := calls st |}
    | Next st =>
        {| reply := {| size := to_int (ret_cnt st);
                       buffer := MakeOkIPC (ret_buffer st) |};
           vm_after := vm st; calls_made := calls st |}
    end.

(** The bytes [write_portable(m_msgsock, res.buffer, res.size)] sends. *)
Definition sent (res : IPCBuffer) : list byte :=
  firstn (Z.to_nat (size res)) (buffer res).

(** ** One connection of [SocketIPC::ExecuteTaskInThread] *)

(** What lives across connections: the two buffers allocated once, and the
    emulated memory. *)
Record Session : Type := {
  m_ipc_buffer : list byte;
  m_ret_buffer : list byte;
  machine : M
}.

(** [read_portable(m_msgsock, m_ipc_buffer, MAX_IPC_SIZE)] when it returns
    the bytes [data]: at most [MAX_IPC_SIZE] bytes are stored at the start of
    the buffer, the rest of the buffer keeps its content. *)
Definition read_portable (m_ipc_buffer data : list byte) : list byte :=
  let received := firstn (Z.to_nat (MAX_IPC_SIZE cfg)) data in
  received ++ skipn (length received) m_ipc_buffer.

(** An accepted connection: [data] is [None] when the read fails (the
    dispatcher is not called and nothing is sent), and the received bytes
    otherwise; the result is the session afterwards and the bytes sent. The
    number of bytes received is not passed on to [ParseCommand]. *)
Definition Exchange (HasActiveMachine : bool) (s : Session)
  (data : option (list byte)) : Session * list byte :=
  match data with
  | None => (s, [])
  | Some d =>
      let buf := read_portable (m_ipc_buffer s) d in
      let res := ParseCommand HasActiveMachine (machine s) buf (m_ret_buffer s) in
      ({| m_ipc_buffer := buf;
          m_ret_buffer := buffer (reply res);
          machine := vm_after res |},
       sent (reply res))
  end.

End Dispatcher.

Arguments ParseState : clear implicits.
Arguments Flow : clear implicits.
Arguments Outcome : clear implicits.
Arguments Session : clear implicits.

(** ** Sub-commands and requests *)

(** The operations of the eight cases of the switch. *)
Inductive command : Set :=
| Read (T : uint)
| Write (T : uint).

(** The opcode byte of an operation. *)
Definition label (cfg : IPCConfig) (c : command) : byte :=
  match c with
  | Read U8 => MsgRead8 cfg
  | Read U16 => MsgRead16 cfg
  | Read U32 => MsgRead32 cfg
  | Read U64 => MsgRead64 cfg
  | Write U8 => MsgWrite8 cfg
  | Write U16 => MsgWrite16 cfg
  | Write U32 => MsgWrite32 cfg
  | Write U64 => MsgWrite64 cfg
  end.

(** The request bytes of a sub-command: opcode, address, and the value of a
    write. *)
Definition command_size (c : command) : Z :=
  match c with
  | Read _ => 5
  | Write T => 5 + Z.of_nat (sizeof T)
  end.

(** The reply bytes of a sub-command: the value of a read. *)
Definition reply_size (c : command) : Z :=
  match c with
  | Read T => Z.of_nat (sizeof T)
  | Write _ => 0
  end.

Section Requests.

Variable cfg : IPCConfig.
Context {M : Type} {facade : MemoryFacade M}.

(** The bounds check of the sub-command [c] at the cursors of [st]. *)
Definition check (c : command) (st : ParseState M) : bool :=
  SafetyChecks cfg (buf_cnt st) (command_size c) (ret_cnt st) (reply_size c).

(** The state after the sub-command [c] at the cursors of [st]. *)
Definition run (c : command) (buf : list byte) (st : ParseState M)
  : ParseState M :=
  let a := FromArray cfg U32 (buf, buf_cnt st) 1 in
  match c with
  | Read T => read_case cfg T a (command_size c) (reply_size c) st
  | Write T => write_case cfg T a buf (command_size c) st
  end.

(** The sub-command at the request cursor has an opcode that is no case
    label, or fails the bounds check of its case. *)
Definition fails (buf : list byte) (st : ParseState M) : Prop :=
  (forall c, byte_at buf (buf_cnt st) <> label cfg c)
  \/ (exists c, byte_at buf (buf_cnt st) = label cfg c /\ check c st = false).

(** [[opcode(1) | address(4)]] of a read. *)
Definition read_request (T : uint) (a : Z) : list byte :=
  label cfg (Read T) :: encode (wire_order cfg) 4 a.

(** [[opcode(1) | address(4) | value(N/8)]] of a write. *)
Definition write_request (T : uint) (a v : Z) : list byte :=
  label cfg (Write T) :: encode (wire_order cfg) 4 a
    ++ encode (wire_order cfg) (sizeof T) v.

(** The batch header as [ParseHeader] reads it: the tag and the 16-bit
    count, three bytes. *)
Definition batch_header (count : Z) : list byte :=
  MsgMultiCommand cfg :: encode (wire_order cfg) 2 count.

(** The payload of a reply: the values of the reads, in the order of the
    calls; a write has none. *)
Definition payload (cs : list MemCall) : list byte :=
  flat_map (fun c => match c with
                     | CallRead T _ res => encode (wire_order cfg) (sizeof T) res
                     | CallWrite _ _ _ => []
                     end) cs.

(** Read-after-write: a read of width [T] at an address just written with
    a value of width [T] returns that value. *)
Definition read_after_write : Prop :=
  forall (T : uint) (a v : Z) (m : M),
    0 <= a < 2 ^ 32 -> 0 <= v < 2 ^ bits T ->
    fst (memRead T a (memWrite T a v m)) = v.

(** The reply buffer is the array of [MAX_IPC_RETURN_SIZE] bytes. *)
Definition reply_array (ret_buffer0 : list byte) : Prop :=
  Z.of_nat (length ret_buffer0) = MAX_IPC_RETURN_SIZE cfg.

(** The request buffer is the array of [MAX_IPC_SIZE] bytes. *)
Definition request_array (buf : list byte) : Prop :=
  Z.of_nat (length buf) = MAX_IPC_SIZE cfg.

(** The cursors a state may hold between two sub-commands. *)
Definition cursors_in_range (st : ParseState M) : Prop :=
  0 <= buf_cnt st /\ 1 <= ret_cnt st <= MAX_IPC_RETURN_SIZE cfg.

(** The reply buffer between two sub-commands: it is the array of
    [MAX_IPC_RETURN_SIZE] bytes, and after the byte reserved for the status
    it holds the payload of the calls made, up to the reply cursor. *)
Definition reply_so_far (st : ParseState M) : Prop :=
  Z.of_nat (length (ret_buffer st)) = MAX_IPC_RETURN_SIZE cfg
  /\ skipn 1 (firstn (Z.to_nat (ret_cnt st)) (ret_buffer st))
     = payload (calls st).

(** The four bytes [buf[buf_cnt + 1]], ..., [buf[buf_cnt + 4]] that the
    read of the address at the head of an iteration touches lie in the
    array [buf]. *)
Definition address_read_in_bounds (buf : list byte) (st : ParseState M)
  : Prop :=
  buf_cnt st + 1 + Z.of_nat (sizeof U32) <= Z.of_nat (length buf).

(** [[opcode | address 0 | value 0]] for each width of [l], one write
    after the other. *)
Definition zero_writes (l : list uint) : list byte :=
  flat_map (fun T => write_request T 0 0) l.

(** The request bytes of the writes of [l]. *)
Fixpoint zero_writes_size (l : list uint) : Z :=
  match l with
  | [] => 0
  | T :: l' => 5 + Z.of_nat (sizeof T) + zero_writes_size l'
  end.

(** Widths whose writes take between [room - 4] and [room] bytes: Write64
    as long as 13 bytes fit, then what is left is filled by at most three
    shorter writes. *)
Definition filler (room : Z) : list uint :=
  let q := Z.to_nat (room / 13) in
  let r := room mod 13 in
  if r <=? 4 then repeat U64 q
  else if r =? 5 then repeat U64 (q - 1) ++ [U8; U8; U8]
  else if r <=? 10 then repeat U64 q ++ [U8]
  else if r =? 11 then repeat U64 q ++ [U16]
  else repeat U64 q ++ [U32].

(** A batch that fills a request buffer of [MAX_IPC_SIZE] bytes: the
    header, the writes of [filler], and zero bytes up to the capacity; the
    count of the header is one more than the number of writes. *)
Definition brim_request : list byte :=
  let l := filler (MAX_IPC_SIZE cfg - 3) in
  batch_header (Z.of_nat (length l) + 1)
    ++ zero_writes l
    ++ repeat Byte.x00
         (Z.to_nat (MAX_IPC_SIZE cfg - 3 - zero_writes_size l)).

End Requests.

(** ** Requests as lists of commands *)

(** A sub-command as a client writes it: a read of a width at an address,
    or a write of a value of a width at an address. *)
Inductive request_cmd : Set :=
| ReadAt (T : uint) (a : Z)
| WriteAt (T : uint) (a v : Z).

(** The case of the switch that a sub-command selects. *)
Definition operation (c : request_cmd) : command :=
  match c with
  | ReadAt T _ => Read T
  | WriteAt T _ _ => Write T
  end.

(** The address is a [u32] and the value fits the width. *)
Definition in_range (c : request_cmd) : Prop :=
  match c with
  | ReadAt _ a => 0 <= a < 2 ^ 32
  | WriteAt T a v => 0 <= a < 2 ^ 32 /\ 0 <= v < 2 ^ bits T
  end.

(** The request bytes of a list of sub-commands. *)
Fixpoint request_bytes (l : list request_cmd) : Z :=
  match l with
  | [] => 0
  | c :: l' => command_size (operation c) + request_bytes l'
  end.

(** The reply bytes of a list of sub-commands. *)
Fixpoint reply_bytes (l : list request_cmd) : Z :=
  match l with
  | [] => 0
  | c :: l' => reply_size (operation c) + reply_bytes l'
  end.

Section Batches.

Variable cfg : IPCConfig.
Context {M : Type} {facade : MemoryFacade M}.

(** The bytes of a sub-command on the wire. *)
Definition cmd_bytes (c : request_cmd) : list byte :=
  match c with
  | ReadAt T a => read_request cfg T a
  | WriteAt T a v => write_request cfg T a v
  end.

(** Sub-commands one after the other. *)
Definition cmds_bytes (l : list request_cmd) : list byte :=
  flat_map cmd_bytes l.

(** A batch request: the 3-byte header with the number of sub-commands, and
    the sub-commands. *)
Definition batch_request (l : list request_cmd) : list byte :=
  batch_header cfg (Z.of_nat (length l)) ++ cmds_bytes l.

(** A batch fits the two buffers: header and sub-commands within the
    request capacity, status byte and read values within the reply
    capacity. *)
Definition fits (l : list request_cmd) : Prop :=
  3 + request_bytes l <= MAX_IPC_SIZE cfg
  /\ 1 + reply_bytes l <= MAX_IPC_RETURN_SIZE cfg.

(** What a sub-command does to the memory, and the facade call it is. *)
Definition perform (c : request_cmd) (m : M) : MemCall * M :=
  match c with
  | ReadAt T a =>
      (CallRead T a (wrap T (fst (memRead T a m))), snd (memRead T a m))
  | WriteAt T a v => (CallWrite T a v, memWrite T a v m)
  end.

(** The sub-commands of a list performed in order. *)
Fixpoint perform_all (l : list request_cmd) (m : M) : list MemCall * M :=
  match l with
  | [] => ([], m)
  | c :: l' =>
      let (call, m1) := perform c m in
      let (rest, m2) := perform_all l' m1 in
      (call :: rest, m2)
  end.

(** The memory after a facade call made again. *)
Definition replay_call (c : MemCall) (m : M) : M :=
  match c with
  | CallRead T a _ => snd (memRead T a m)
  | CallWrite T a v => memWrite T a v m
  end.

(** The memory after a list of facade calls made again, in order. *)
Definition replay (cs : list MemCall) (m : M) : M :=
  fold_left (fun m' c => replay_call c m') cs m.

(** Two states of the dispatcher that differ in the content of the reply
    buffer only. *)
Definition same_but_reply (st st' : ParseState M) : Prop :=
  vm st = vm st' /\ ret_cnt st = ret_cnt st' /\ buf_cnt st = buf_cnt st'
  /\ calls st = calls st'.

(** A reply as the protocol defines it: the failure status alone, or the
    success status and a payload, at most [MAX_IPC_RETURN_SIZE] bytes. *)
Definition well_shaped (r : list byte) : Prop :=
  (r = [IPC_FAIL cfg] \/ exists payload, r = IPC_OK cfg :: payload)
  /\ 1 <= Z.of_nat (length r) <= MAX_IPC_RETURN_SIZE cfg.

(** The payload that the wire format of the reply describes, against which
    the bytes sent by [ParseCommand] are compared: the values that the
    reads of a list of sub-commands return when the list is performed in
    order on the memory [m], each encoded in its width, one after the
    other; a write gives no byte and changes the memory the later reads
    see. *)
Fixpoint read_values (l : list request_cmd) (m : M) : list byte :=
  match l with
  | [] => []
  | ReadAt T a :: l' =>
      encode (wire_order cfg) (sizeof T) (fst (memRead T a m))
        ++ read_values l' (snd (memRead T a m))
  | WriteAt T a v :: l' => read_values l' (memWrite T a v m)
  end.

(** The layout of a request on the wire: the buffer announces [count]
    sub-commands and goes on with the bytes of the sub-commands [l], one
    after the other, and then [rest]. It starts with the batch header of
    [count], or, without the batch tag, announces one sub-command. *)
Definition starts_with (buf : list byte) (count : Z) (l : list request_cmd)
  (rest : list byte) : Prop :=
  (0 <= count < 2 ^ 16
   /\ buf = batch_header cfg count ++ cmds_bytes l ++ rest)
  \/ (count = 1 /\ byte_at buf 0 <> MsgMultiCommand cfg
      /\ buf = cmds_bytes l ++ rest).

(** The request in the buffer carries the sub-commands [l]: it announces as
    many as they are and goes on with their bytes, and their addresses and
    values are in range. *)
Definition carries (buf : list byte) (l : list request_cmd) : Prop :=
  Forall in_range l
  /\ exists rest, starts_with buf (Z.of_nat (length l)) l rest.

(** The sub-command that the bytes at the offset [c] encode when the opcode
    there is the one of [op]. *)
Definition cmd_at (buf : list byte) (c : Z) (op : command) : request_cmd :=
  match op with
  | Read T => ReadAt T (FromArray cfg U32 (buf, c) 1)
  | Write T =>
      WriteAt T (FromArray cfg U32 (buf, c) 1) (FromArray cfg T (buf, c) 5)
  end.

(** No sub-command can be run on the bytes [rest] found at the request
    cursor [c] when the reply cursor is [r]: the first byte is no case
    label, or the sub-command it opens does not fit the request capacity or
    the reply capacity. *)
Definition no_sub_command (c r : Z) (rest : list byte) : Prop :=
  (forall op, byte_at rest 0 <> label cfg op)
  \/ (exists op, byte_at rest 0 = label cfg op
                 /\ (MAX_IPC_SIZE cfg < c + command_size op
                     \/ MAX_IPC_RETURN_SIZE cfg < r + reply_size op)).

End Batches.

(** ** The loop of [SocketIPC::ExecuteTaskInThread] *)

(** The [errno] values that the loop takes for recoverable, from the system
    headers (the branch of the source that is not for Windows). *)
Record Errnos : Set := {
  ECONNABORTED : Z;
  EINTR : Z;
  EAGAIN : Z;
  EWOULDBLOCK : Z
}.

(** [errno == ECONNABORTED || errno == EINTR || errno == EAGAIN
     || errno == EWOULDBLOCK]. *)
Definition recoverable (E : Errnos) (errno : Z) : bool :=
  (errno =? ECONNABORTED E) || (errno =? EINTR E) || (errno =? EAGAIN E)
  || (errno =? EWOULDBLOCK E).

(** What one turn of the loop meets: [accept] failed with an [errno], or a
    connection was accepted. For a connection: whether the machine is
    active, what the emulator did to the memory since the last turn, and
    the result of the read ([None] when it failed). *)
Inductive Accepted (M : Type) : Type :=
| Failed (errno : Z)
| Connected (active : bool) (emulated : M -> M) (data : option (list byte)).

Arguments Failed {M} errno.
Arguments Connected {M} active emulated data.

(** The loop after some turns: the session, the flag [m_end], and the
    replies written so far, oldest first. *)
Record LoopState (M : Type) : Type := {
  session : Session M;
  m_end : bool;
  replies : list (list byte)
}.

Arguments session {M} l.
Arguments m_end {M} l.
Arguments replies {M} l.

Section SessionLoop.

Variable cfg : IPCConfig.
Variable E : Errnos.
Context {M : Type} {facade : MemoryFacade M}.

(** The turns of [while (true)] on the accept results [events], from the
    session [s] with the replies [out] already written. [m_end] is false on
    entry; an unrecoverable [accept] failure sets it and leaves the loop, a
    recoverable one goes on to the next turn; a connection is read once,
    dispatched and answered unless the read failed. When [events] is used up
    the loop is waiting in [accept]. *)
Fixpoint ExecuteTaskInThread (events : list (Accepted M)) (s : Session M)
  (out : list (list byte)) : LoopState M :=
  match events with
  | [] => {| session := s; m_end := false; replies := out |}
  | Failed errno :: later =>
      if negb (recoverable E errno)
      then {| session := s; m_end := true; replies := out |}
      else ExecuteTaskInThread later s out
  | Connected active emulated data :: later =>
      let now := {| m_ipc_buffer := m_ipc_buffer s;
                    m_ret_buffer := m_ret_buffer s;
                    machine := emulated (machine s) |} in
      let served := Exchange cfg active now data in
      ExecuteTaskInThread later (fst served)
        (match data with
         | Some _ => out ++ [snd served]
         | None => out
         end)
  end.

(** An [accept] failure that ends the loop. *)
Definition fatal (e : Accepted M) : bool :=
  match e with
  | Failed errno => negb (recoverable E errno)
  | Connected _ _ _ => false
  end.

(** A turn that leaves no trace: a recoverable [accept] failure, or a
    connection whose read failed while the emulator left the memory as it
    was. *)
Definition skipped (e : Accepted M) : Prop :=
  match e with
  | Failed errno => recoverable E errno = true
  | Connected _ emulated data => data = None /\ forall m, emulated m = m
  end.

(** A connection whose read succeeded. *)
Definition answered (e : Accepted M) : bool :=
  match e with
  | Connected _ _ (Some _) => true
  | _ => false
  end.

End SessionLoop.

(** ** A concrete instance, for examples *)

Module Sample.

(** A byte-addressed memory; multi-byte accesses are little-endian, and a
    read does not change the memory. *)
Definition Memory : Type := Z -> byte.

Definition load (n : nat) (a : Z) (m : Memory) : Z * Memory :=
  (le_combine (map (fun k => m (a + Z.of_nat k)) (seq 0 n)), m).

Definition store (n : nat) (a v : Z) (m : Memory) : Memory :=
  fun x =>
    if (a <=? x) && (x <? a + Z.of_nat n)
    then nth (Z.to_nat (x - a)) (le_split n v) Byte.x00
    else m x.

#[export] Instance flat_memory : MemoryFacade Memory := {
  memRead8 := load 1;
  memRead16 := load 2;
  memRead32 := load 4;
  memRead64 := load 8;
  memWrite8 := store 1;
  memWrite16 := store 2;
  memWrite32 := store 4;
  memWrite64 := store 8
}.

(** A memory with different bytes at the addresses of the examples. *)
Definition pattern : Memory := fun x => byte.of_Z (3 * x + x / 256 + 7).

(** An assignment of the constants: opcodes 0 to 7 for the reads and writes
    by growing width, [0xFF] for the batch tag, status 0 for success and
    [0xFF] for failure, little-endian integers, with a request buffer of 32
    bytes and a reply buffer of 16 bytes. *)
Definition small : IPCConfig := {|
  MsgRead8 := Byte.x00;
  MsgRead16 := Byte.x01;
  MsgRead32 := Byte.x02;
  MsgRead64 := Byte.x03;
  MsgWrite8 := Byte.x04;
  MsgWrite16 := Byte.x05;
  MsgWrite32 := Byte.x06;
  MsgWrite64 := Byte.x07;
  MsgMultiCommand := Byte.xff;
  IPC_OK := Byte.x00;
  IPC_FAIL := Byte.xff;
  MAX_IPC_SIZE := 32;
  MAX_IPC_RETURN_SIZE := 16;
  wire_order := LittleEndian
|}.

(** The same constants with a request buffer of 650000 bytes (room for
    50000 Write64) and a reply buffer of 450000 bytes. *)
Definition large : IPCConfig := {|
  MsgRead8 := Byte.x00;
  MsgRead16 := Byte.x01;
  MsgRead32 := Byte.x02;
  MsgRead64 := Byte.x03;
  MsgWrite8 := Byte.x04;
  MsgWrite16 := Byte.x05;
  MsgWrite32 := Byte.x06;
  MsgWrite64 := Byte.x07;
  MsgMultiCommand := Byte.xff;
  IPC_OK := Byte.x00;
  IPC_FAIL := Byte.xff;
  MAX_IPC_SIZE := 650000;
  MAX_IPC_RETURN_SIZE := 450000;
  wire_order := LittleEndian
|}.

(** A buffer of [n] zero bytes starting with the bytes [l]. *)
Definition filled (n : nat) (l : list Z) : list byte :=
  map byte.of_Z l ++ repeat Byte.x00 (n - length l).

(** A session whose two buffers were just allocated (taken as zeroed). *)
Definition fresh : Session Memory :=
  {| m_ipc_buffer := filled 32 [];
     m_ret_buffer := filled 16 [];
     machine := pattern |}.

(** The 256 bytes. *)
Definition all_bytes : list byte :=
  map (fun n => byte.of_Z (Z.of_nat n)) (seq 0 256).

(** The request [[MultiCommand, count=2, pad][Read8, addr=0x10]
    [Write8, addr=0x11, 0x05]] with a fourth header byte [pad]. *)
Definition padded_request (pad : byte) : list byte :=
  batch_header small 2 ++ [pad] ++ read_request small U8 16
    ++ write_request small U8 17 5.

(** Whether the calls are a Read8 at [0x10] followed by a Write8 of [0x05]
    at [0x11]. *)
Definition read8_then_write8 (cs : list MemCall) : bool :=
  match cs with
  | [CallRead U8 16 _; CallWrite U8 17 5] => true
  | _ => false
  end.

(** A batch of two sub-commands in the 32-byte buffer: a Write8 of [0x05]
    at [0x11], then the undefined opcode [0xFE]. *)
Definition bad_batch : list byte :=
  filled 32 [255; 2; 0; 4; 17; 0; 0; 0; 5; 254].

(** The state after the Write8 of [bad_batch]. *)
Definition after_write8 : ParseState Memory :=
  {| vm := store 1 17 5 pattern;
     ret_buffer := filled 16 [];
     ret_cnt := 1;
     buf_cnt := 9;
     calls := [CallWrite U8 17 5] |}.

(** A batch that declares three sub-commands and fills the 32-byte buffer:
    the header, two Write64 of 13 bytes each, and the first three bytes of a
    Write8. *)
Definition overrun_request : list byte :=
  batch_header small 3
    ++ write_request small U64 1 578437695752307201
    ++ write_request small U64 1 578437695752307201
    ++ [MsgWrite8 small; Byte.x09; Byte.x09].

(** The state after the two Write64 of [overrun_request]. *)
Definition after_two_write64 : ParseState Memory :=
  {| vm := store 8 1 578437695752307201
             (store 8 1 578437695752307201 pattern);
     ret_buffer := filled 16 [];
     ret_cnt := 1;
     buf_cnt := 29;
     calls := [CallWrite U64 1 578437695752307201;
               CallWrite U64 1 578437695752307201] |}.

(** The session after a first connection that sent a batch of one Read8 at
    [0x10]. *)
Definition after_read8 : Session Memory :=
  fst (Exchange small true fresh
         (Some (batch_header small 1 ++ read_request small U8 16))).

(** The [errno] values of Linux. *)
Definition linux : Errnos :=
  {| ECONNABORTED := 103; EINTR := 4; EAGAIN := 11; EWOULDBLOCK := 11 |}.

(** The emulator leaves the memory alone between two turns. *)
Definition paused : Memory -> Memory := fun m => m.

(** Five turns: a Write8, an interrupted [accept], a failed read, a Read8
    of the byte written, and [accept] failing with [EBADF]. *)
Definition five_turns : list (Accepted Memory) :=
  [Connected true paused (Some (write_request small U8 17 5));
   Failed 4;
   Connected true paused None;
   Connected true paused (Some (read_request small U8 17));
   Failed 9].

(** A batch of three sub-commands: two reads around a write. *)
Definition three_cmds : list request_cmd :=
  [ReadAt U16 16; WriteAt U8 16 255; ReadAt U16 16].

(** The state after the three sub-commands of [three_cmds]. *)
Definition after_three_cmds : ParseState Memory :=
  {| vm := store 1 16 255 pattern;
     ret_buffer := filled 16 [0; 55; 58; 255; 58];
     ret_cnt := 5;
     buf_cnt := 19;
     calls := [CallRead U16 16 14903; CallWrite U8 16 255;
               CallRead U16 16 15103] |}.

(** Three Read64: the status byte and 24 bytes do not fit 16 bytes. *)
Definition three_read64 : list request_cmd :=
  [ReadAt U64 0; ReadAt U64 8; ReadAt U64 16].

End Sample.

(** ** Proof automation *)

(** Equal lists of bytes up to the bracketing of [++]. *)
Ltac assoc_lists :=
  repeat first [rewrite <- app_assoc | progress cbn [app]]; reflexivity.

(** ** Bytes and buffers *)

Lemma eqb_refl_byte (b : byte) : Byte.eqb b b = true.
Proof. now apply Byte.byte_dec_lb. Qed.

Lemma eqb_neq_byte {a b : byte} : a <> b -> Byte.eqb a b = false.
Proof.
  intros Hne. destruct (Byte.eqb a b) eqn:E; [|reflexivity].
  apply Byte.byte_dec_bl in E. contradiction.
Qed.

Lemma byte_at_app_l (l r : list byte) (i : Z) :
  0 <= i < Z.of_nat (length l) -> byte_at (l ++ r) i = byte_at l i.
Proof. intros Hi. unfold byte_at. apply app_nth1. lia. Qed.

Lemma byte_at_middle (pre rest : list byte) (b : byte) :
  byte_at (pre ++ b :: rest) (Z.of_nat (length pre)) = b.
Proof.
  unfold byte_at. rewrite Nat2Z.id, app_nth2 by lia.
  now rewrite Nat.sub_diag.
Qed.

Lemma bytes_at_app_l (l r : list byte) (i : Z) (n : nat) :
  0 <= i -> i + Z.of_nat n <= Z.of_nat (length l) ->
  bytes_at (l ++ r) i n = bytes_at l i n.
Proof.
  intros Hi Hn. unfold bytes_at. apply map_ext_in.
  intros k Hk. apply in_seq in Hk. apply byte_at_app_l. lia.
Qed.

Lemma length_bytes_at (buf : list byte) (i : Z) (n : nat) :
  length (bytes_at buf i n) = n.
Proof. unfold bytes_at. now rewrite length_map, length_seq. Qed.

Lemma bytes_at_middle (pre bs rest : list byte) :
  bytes_at (pre ++ bs ++ rest) (Z.of_nat (length pre)) (length bs) = bs.
Proof.
  apply nth_ext with (d := Byte.x00) (d' := Byte.x00).
  - apply length_bytes_at.
  - rewrite length_bytes_at. intros k Hk. unfold bytes_at.
    rewrite nth_indep with (d' := byte_at (pre ++ bs ++ rest)
                                    (Z.of_nat (length pre) + Z.of_nat 0))
      by now rewrite length_map, length_seq.
    rewrite (map_nth (fun k => byte_at (pre ++ bs ++ rest)
                                 (Z.of_nat (length pre) + Z.of_nat k))
               (seq 0 (length bs)) 0%nat k).
    rewrite seq_nth by exact Hk. unfold byte_at.
    replace (Z.to_nat (Z.of_nat (length pre) + Z.of_nat (0 + k)))
      with (length pre + k)%nat by lia.
    rewrite app_nth2 by lia.
    replace (length pre + k - length pre)%nat with k by lia.
    now apply app_nth1.
Qed.

Lemma length_encode (o : byte_order) (n : nat) (v : Z) :
  length (encode o n v) = n.
Proof.
  destruct o; simpl; [|rewrite length_rev]; apply length_le_split.
Qed.

Lemma decode_encode (o : byte_order) (n : nat) (v : Z) :
  decode o (encode o n v) = v mod 2 ^ (8 * Z.of_nat n).
Proof.
  replace (8 * Z.of_nat n) with (Z.of_nat n * 8) by lia.
  destruct o; simpl; [|rewrite rev_involutive]; apply le_combine_split.
Qed.

Lemma decode_encode_small (o : byte_order) (n : nat) (v : Z) :
  0 <= v < 2 ^ (8 * Z.of_nat n) -> decode o (encode o n v) = v.
Proof. intros Hv. rewrite decode_encode. now apply Z.mod_small. Qed.

Lemma encode_wrap (o : byte_order) (T : uint) (v : Z) :
  encode o (sizeof T) (wrap T v) = encode o (sizeof T) v.
Proof.
  unfold wrap, bits. replace (8 * Z.of_nat (sizeof T))
    with (Z.of_nat (sizeof T) * 8) by lia.
  destruct o; simpl; now rewrite <- le_split_mod.
Qed.

Lemma decode_bound (o : byte_order) (bs : list byte) :
  0 <= decode o bs < 2 ^ (8 * Z.of_nat (length bs)).
Proof.
  destruct o; simpl.
  - apply le_combine_bound.
  - rewrite <- length_rev. apply le_combine_bound.
Qed.

Lemma length_memcpy_at (dst src : list byte) (i : Z) :
  0 <= i -> i + Z.of_nat (length src) <= Z.of_nat (length dst) ->
  length (memcpy_at dst i src) = length dst.
Proof.
  intros Hi Hn. unfold memcpy_at.
  rewrite !length_app, length_firstn, length_skipn. lia.
Qed.

Lemma firstn_memcpy_at (dst src : list byte) (i : Z) :
  0 <= i -> i + Z.of_nat (length src) <= Z.of_nat (length dst) ->
  firstn (Z.to_nat (i + Z.of_nat (length src))) (memcpy_at dst i src)
  = firstn (Z.to_nat i) dst ++ src.
Proof.
  intros Hi Hn. unfold memcpy_at. rewrite app_assoc.
  rewrite firstn_app.
  replace (Z.to_nat (i + Z.of_nat (length src))
           - length (firstn (Z.to_nat i) dst ++ src))%nat with 0%nat
    by (rewrite length_app, length_firstn; lia).
  rewrite firstn_O, app_nil_r. apply firstn_all2.
  rewrite length_app, length_firstn. lia.
Qed.

Lemma firstn_set_first (dst : list byte) (b : byte) (n : nat) :
  (1 <= n)%nat -> (1 <= length dst)%nat ->
  firstn n (set_first dst b) = b :: skipn 1 (firstn n dst).
Proof.
  intros Hn Hd. destruct dst as [|x dst]; [simpl in Hd; lia|].
  destruct n as [|n]; [lia|]. reflexivity.
Qed.

Lemma length_set_first (dst : list byte) (b : byte) :
  length (set_first dst b) = length dst.
Proof. now destruct dst. Qed.

(** ** The switch of [ParseCommand] *)

Section Switch.

Variable cfg : IPCConfig.
Context {M : Type} {facade : MemoryFacade M}.

(** The well-formedness of the constants, as facts. *)
Lemma well_formed_labels :
  well_formed cfg = true ->
  (forall c c', label cfg c = label cfg c' -> c = c')
  /\ (forall c, label cfg c <> MsgMultiCommand cfg).
Proof.
  unfold well_formed, case_labels. cbn [distinct existsb].
  rewrite !andb_true_iff, !negb_true_iff, !orb_false_iff.
  intros H. decompose [and] H. clear H.
  repeat match goal with
         | E : Byte.eqb _ _ = false |- _ => apply Byte.eqb_false in E
         end.
  split.
  - intros [[]|[]] [[]|[]] E; cbn [label] in E;
      first [reflexivity | congruence].
  - intros [[]|[]]; cbn [label]; congruence.
Qed.

Lemma well_formed_sizes :
  well_formed cfg = true ->
  IPC_OK cfg <> IPC_FAIL cfg
  /\ 1 <= MAX_IPC_SIZE cfg < 2 ^ 31
  /\ 1 <= MAX_IPC_RETURN_SIZE cfg < 2 ^ 31.
Proof.
  unfold well_formed.
  rewrite !andb_true_iff, !negb_true_iff, !Z.leb_le, !Z.ltb_lt.
  intros H. decompose [and] H. clear H.
  repeat split; try assumption. now apply Byte.eqb_false.
Qed.

(** An iteration either jumps to [error], leaving the state as it is, or
    runs one of the eight cases after its check passed. *)
Lemma ParseSub_cases (buf : list byte) (st : ParseState M) :
  ParseSub cfg buf st = Abort st
  \/ exists c, check cfg c st = true
               /\ ParseSub cfg buf st = Next (run cfg c buf st).
Proof.
  unfold ParseSub.
  repeat match goal with
         | |- context [Byte.eqb ?a ?b] => destruct (Byte.eqb a b)
         end;
    try (left; reflexivity);
    match goal with
    | |- context [SafetyChecks cfg ?c ?n ?r ?k] =>
        destruct (SafetyChecks cfg c n r k) eqn:E
    end; cbn [negb]; try (left; reflexivity); right.
  - exists (Read U8). split; [exact E|reflexivity].
  - exists (Read U16). split; [exact E|reflexivity].
  - exists (Read U32). split; [exact E|reflexivity].
  - exists (Read U64). split; [exact E|reflexivity].
  - exists (Write U8). split; [exact E|reflexivity].
  - exists (Write U16). split; [exact E|reflexivity].
  - exists (Write U32). split; [exact E|reflexivity].
  - exists (Write U64). split; [exact E|reflexivity].
Qed.

(** With distinct case labels, the opcode of [c] selects the case of [c]. *)
Lemma ParseSub_label (buf : list byte) (st : ParseState M) (c : command) :
  well_formed cfg = true ->
  byte_at buf (buf_cnt st) = label cfg c ->
  ParseSub cfg buf st
  = if check cfg c st then Next (run cfg c buf st) else Abort st.
Proof.
  intros Hwf Hop. destruct (well_formed_labels Hwf) as [Hinj _].
  assert (Hne : forall c', c' <> c ->
            Byte.eqb (label cfg c) (label cfg c') = false).
  { intros c' Hc'. apply eqb_neq_byte. intros E. apply Hc'.
    symmetry. now apply Hinj. }
  pose proof (Hne (Read U8)) as R8. pose proof (Hne (Read U16)) as R16.
  pose proof (Hne (Read U32)) as R32. pose proof (Hne (Read U64)) as R64.
  pose proof (Hne (Write U8)) as W8. pose proof (Hne (Write U16)) as W16.
  pose proof (Hne (Write U32)) as W32. pose proof (Hne (Write U64)) as W64.
  clear Hne Hinj. unfold ParseSub, check, run. rewrite Hop.
  destruct c as [[]|[]]; cbn [label] in *;
    rewrite ?eqb_refl_byte, ?R8, ?R16, ?R32, ?R64, ?W8, ?W16, ?W32, ?W64
      by discriminate;
    cbv beta iota; simpl command_size; simpl reply_size;
    match goal with
    | |- context [SafetyChecks cfg ?a ?b ?d ?e] =>
        destruct (SafetyChecks cfg a b d e)
    end; reflexivity.
Qed.

(** An opcode that is no case label takes the [default] case. *)
Lemma ParseSub_unknown (buf : list byte) (st : ParseState M) :
  (forall c, byte_at buf (buf_cnt st) <> label cfg c) ->
  ParseSub cfg buf st = Abort st.
Proof.
  intros Hno. unfold ParseSub.
  pose proof (eqb_neq_byte (Hno (Read U8))) as R8.
  pose proof (eqb_neq_byte (Hno (Read U16))) as R16.
  pose proof (eqb_neq_byte (Hno (Read U32))) as R32.
  pose proof (eqb_neq_byte (Hno (Read U64))) as R64.
  pose proof (eqb_neq_byte (Hno (Write U8))) as W8.
  pose proof (eqb_neq_byte (Hno (Write U16))) as W16.
  pose proof (eqb_neq_byte (Hno (Write U32))) as W32.
  pose proof (eqb_neq_byte (Hno (Write U64))) as W64.
  cbn [label] in *. now rewrite R8, R16, R32, R64, W8, W16, W32, W64.
Qed.

End Switch.

(** ** The batch loop *)

Section Loop.

Variable cfg : IPCConfig.
Context {M : Type} {facade : MemoryFacade M}.

Lemma ParseLoop_app (j k : nat) (buf : list byte) (st : ParseState M) :
  ParseLoop cfg (j + k) buf st
  = match ParseLoop cfg j buf st with
    | Next st' => ParseLoop cfg k buf st'
    | Abort e => Abort e
    end.
Proof.
  revert st. induction j as [|j IH]; intros st; cbn [ParseLoop Nat.add].
  - reflexivity.
  - destruct (ParseSub cfg buf st); [apply IH|reflexivity].
Qed.

(** The iterations before a reached iteration were reached. *)
Lemma ParseLoop_prefix (j k : nat) (buf : list byte) (st stk : ParseState M) :
  (j <= k)%nat -> ParseLoop cfg k buf st = Next stk ->
  exists stj, ParseLoop cfg j buf st = Next stj
              /\ ParseLoop cfg (k - j) buf stj = Next stk.
Proof.
  intros Hjk Hk. replace k with (j + (k - j))%nat in Hk by lia.
  rewrite ParseLoop_app in Hk.
  destruct (ParseLoop cfg j buf st) as [stj|e]; [|discriminate].
  now exists stj.
Qed.

(** A jump to [error] in iteration [k] ends every longer loop there. *)
Lemma ParseLoop_abort (k n : nat) (buf : list byte) (st stk e : ParseState M) :
  (k < n)%nat -> ParseLoop cfg k buf st = Next stk ->
  ParseSub cfg buf stk = Abort e ->
  ParseLoop cfg n buf st = Abort e.
Proof.
  intros Hkn Hk He. replace n with (k + S (n - S k))%nat by lia.
  rewrite ParseLoop_app, Hk. cbn [ParseLoop]. now rewrite He.
Qed.

(** The error path does not touch the state. *)
Lemma ParseSub_abort_same (buf : list byte) (st e : ParseState M) :
  ParseSub cfg buf st = Abort e -> e = st.
Proof.
  intros He. destruct (ParseSub_cases cfg buf st) as [Ha|[c [_ Hn]]];
    congruence.
Qed.

(** A loop that ends at [error] reached the state it ends in after some
    earlier iteration. *)
Lemma ParseLoop_abort_reached (n : nat) (buf : list byte)
  (st e : ParseState M) :
  ParseLoop cfg n buf st = Abort e ->
  exists k, (k < n)%nat /\ ParseLoop cfg k buf st = Next e.
Proof.
  revert st. induction n as [|n IH]; intros st He; [discriminate|].
  cbn [ParseLoop] in He. destruct (ParseSub cfg buf st) as [s|s] eqn:Es.
  - destruct (IH s He) as (k & Hk & Hs). exists (S k). split; [lia|].
    cbn [ParseLoop]. now rewrite Es.
  - injection He as <-. apply ParseSub_abort_same in Es. subst s.
    exists 0%nat. split; [lia|reflexivity].
Qed.

Lemma run_Read (T : uint) (buf : list byte) (st : ParseState M) :
  run cfg (Read T) buf st
  = let a := FromArray cfg U32 (buf, buf_cnt st) 1 in
    let res := wrap T (fst (memRead T a (vm st))) in
    {| vm := snd (memRead T a (vm st));
       ret_buffer := ToArray cfg T (ret_buffer st) res (ret_cnt st);
       ret_cnt := wrap U32 (ret_cnt st + Z.of_nat (sizeof T));
       buf_cnt := wrap U32 (buf_cnt st + 5);
       calls := calls st ++ [CallRead T a res] |}.
Proof.
  unfold run, read_case. cbn [command_size reply_size].
  now destruct (memRead T _ (vm st)).
Qed.

Lemma run_Write (T : uint) (buf : list byte) (st : ParseState M) :
  run cfg (Write T) buf st
  = let a := FromArray cfg U32 (buf, buf_cnt st) 1 in
    let v := FromArray cfg T (buf, buf_cnt st) 5 in
    {| vm := memWrite T a v (vm st);
       ret_buffer := ret_buffer st;
       ret_cnt := ret_cnt st;
       buf_cnt := wrap U32 (buf_cnt st + (5 + Z.of_nat (sizeof T)));
       calls := calls st ++ [CallWrite T a v] |}.
Proof. reflexivity. Qed.

Lemma wrap_U32_small (z : Z) : 0 <= z < 2 ^ 32 -> wrap U32 z = z.
Proof. intros Hz. unfold wrap. now apply Z.mod_small. Qed.

Lemma to_int_small (z : Z) : 0 <= z < 2 ^ 31 -> to_int z = z.
Proof. intros Hz. unfold to_int. rewrite Z.mod_small; lia. Qed.

Lemma command_size_range (c : command) : 5 <= command_size c <= 13.
Proof. destruct c as [T|T]; destruct T; cbn; lia. Qed.

Lemma reply_size_range (c : command) : 0 <= reply_size c <= 8.
Proof. destruct c as [T|T]; destruct T; cbn; lia. Qed.

Lemma check_true (c : command) (st : ParseState M) :
  check cfg c st = true <->
  buf_cnt st + command_size c <= MAX_IPC_SIZE cfg
  /\ ret_cnt st + reply_size c <= MAX_IPC_RETURN_SIZE cfg.
Proof.
  unfold check, SafetyChecks.
  rewrite negb_true_iff, orb_false_iff, !Z.ltb_ge. tauto.
Qed.

Lemma check_false (c : command) (st : ParseState M) :
  check cfg c st = false <->
  MAX_IPC_SIZE cfg < buf_cnt st + command_size c
  \/ MAX_IPC_RETURN_SIZE cfg < ret_cnt st + reply_size c.
Proof.
  unfold check, SafetyChecks.
  rewrite negb_false_iff, orb_true_iff, !Z.ltb_lt. tauto.
Qed.

(** After its check, a sub-command advances the cursors by its sizes, with
    no wrap-around, and keeps them within the capacities. *)
Lemma run_cursors (c : command) (buf : list byte) (st : ParseState M) :
  well_formed cfg = true ->
  0 <= buf_cnt st -> 0 <= ret_cnt st -> check cfg c st = true ->
  buf_cnt (run cfg c buf st) = buf_cnt st + command_size c
  /\ ret_cnt (run cfg c buf st) = ret_cnt st + reply_size c.
Proof.
  intros Hwf Hb Hr Hc. apply check_true in Hc.
  destruct (well_formed_sizes cfg Hwf) as (_ & Hmax & Hrmax).
  pose proof (command_size_range c). pose proof (reply_size_range c).
  destruct c as [T|T].
  - rewrite run_Read. cbn [buf_cnt ret_cnt command_size reply_size] in *.
    rewrite !wrap_U32_small by lia. split; reflexivity.
  - rewrite run_Write. cbn [buf_cnt ret_cnt command_size reply_size] in *.
    rewrite !wrap_U32_small by lia. split; lia.
Qed.

Lemma EnterLoop_cursors (m : M) (buf ret_buffer0 : list byte) :
  well_formed cfg = true ->
  cursors_in_range cfg (EnterLoop cfg m buf ret_buffer0)
  /\ (buf_cnt (EnterLoop cfg m buf ret_buffer0) = 0
      \/ buf_cnt (EnterLoop cfg m buf ret_buffer0) = 3).
Proof.
  intros Hwf. destruct (well_formed_sizes cfg Hwf) as (_ & _ & Hrmax).
  unfold cursors_in_range, EnterLoop, ParseHeader. cbn [buf_cnt ret_cnt].
  destruct (Byte.eqb _ _); cbn [snd]; rewrite ?wrap_U32_small by lia; lia.
Qed.

Lemma ParseSub_cursors (buf : list byte) (st st' : ParseState M) :
  well_formed cfg = true -> cursors_in_range cfg st ->
  ParseSub cfg buf st = Next st' ->
  cursors_in_range cfg st'
  /\ buf_cnt st <= buf_cnt st' <= MAX_IPC_SIZE cfg
  /\ ret_cnt st <= ret_cnt st'.
Proof.
  intros Hwf (Hb & Hr) Hs.
  destruct (ParseSub_cases cfg buf st) as [Ha|[c [Hc Hn]]]; [congruence|].
  rewrite Hn in Hs. injection Hs as <-.
  destruct (run_cursors c buf st Hwf Hb ltac:(lia) Hc) as [Eb Er].
  apply check_true in Hc.
  pose proof (command_size_range c). pose proof (reply_size_range c).
  unfold cursors_in_range. rewrite Eb, Er. lia.
Qed.

Lemma ParseLoop_cursors (k : nat) (buf : list byte) (st st' : ParseState M) :
  well_formed cfg = true -> cursors_in_range cfg st ->
  ParseLoop cfg k buf st = Next st' ->
  cursors_in_range cfg st'
  /\ buf_cnt st <= buf_cnt st'
  /\ ret_cnt st <= ret_cnt st'
  /\ ((1 <= k)%nat -> buf_cnt st' <= MAX_IPC_SIZE cfg).
Proof.
  intros Hwf. revert st st'. induction k as [|k IH]; intros st st' Hin Hk.
  - cbn in Hk. injection Hk as <-. repeat split; try apply Hin; lia.
  - replace (S k) with (k + 1)%nat in Hk by lia.
    rewrite ParseLoop_app in Hk.
    destruct (ParseLoop cfg k buf st) as [stk|e] eqn:Ek; [|discriminate].
    destruct (IH st stk Hin Ek) as (Hink & Hb & Hr & _).
    cbn [ParseLoop] in Hk.
    destruct (ParseSub cfg buf stk) as [s|s] eqn:Es; [|discriminate].
    injection Hk as <-.
    destruct (ParseSub_cursors buf stk s Hwf Hink Es) as (Hin' & Hb' & Hr').
    repeat split; try apply Hin'; lia.
Qed.

End Loop.

(** ** The reply buffer *)

Section Reply.

Variable cfg : IPCConfig.
Context {M : Type} {facade : MemoryFacade M}.

Lemma payload_app (cs cs' : list MemCall) :
  payload cfg (cs ++ cs') = payload cfg cs ++ payload cfg cs'.
Proof. unfold payload. apply flat_map_app. Qed.

Lemma EnterLoop_reply (m : M) (buf ret_buffer0 : list byte) :
  reply_array cfg ret_buffer0 ->
  reply_so_far cfg (EnterLoop cfg m buf ret_buffer0).
Proof.
  intros Hlen. split; [exact Hlen|]. cbn.
  destruct ret_buffer0 as [|x [|y l]]; reflexivity.
Qed.

(** A read stores its value inside the array, right after the payload so
    far; a write leaves the reply buffer alone. *)
Lemma ParseSub_reply (buf : list byte) (st st' : ParseState M) :
  well_formed cfg = true -> cursors_in_range cfg st -> reply_so_far cfg st ->
  ParseSub cfg buf st = Next st' -> reply_so_far cfg st'.
Proof.
  intros Hwf (Hb & Hr) (Hlen & Hpay) Hs.
  destruct (ParseSub_cases cfg buf st) as [Ha|[c [Hc Hn]]]; [congruence|].
  rewrite Hn in Hs. injection Hs as <-.
  destruct (run_cursors cfg c buf st Hwf Hb ltac:(lia) Hc) as [_ Er].
  apply check_true in Hc. destruct Hc as [_ Hc].
  unfold reply_so_far. rewrite Er. clear Er. destruct c as [T|T].
  - rewrite run_Read. cbn [ret_buffer calls reply_size] in *.
    set (a := FromArray cfg U32 (buf, buf_cnt st) 1).
    set (res := wrap T (fst (memRead T a (vm st)))).
    unfold ToArray.
    pose proof (length_encode (wire_order cfg) (sizeof T) res) as Hn'.
    rewrite <- Hn' at 2. rewrite <- Hn' in Hc. split.
    + rewrite length_memcpy_at by lia. exact Hlen.
    + rewrite firstn_memcpy_at by lia.
      rewrite skipn_app, length_firstn.
      replace (1 - Nat.min (Z.to_nat (ret_cnt st)) (length (ret_buffer st)))%nat
        with 0%nat by lia.
      rewrite Hpay, payload_app. cbn. now rewrite app_nil_r.
  - rewrite run_Write. cbn [ret_buffer calls reply_size] in *.
    rewrite Z.add_0_r, payload_app, Hpay. cbn. rewrite app_nil_r.
    split; [exact Hlen|reflexivity].
Qed.

Lemma ParseLoop_reply (k : nat) (buf : list byte) (st st' : ParseState M) :
  well_formed cfg = true -> cursors_in_range cfg st -> reply_so_far cfg st ->
  ParseLoop cfg k buf st = Next st' -> reply_so_far cfg st'.
Proof.
  intros Hwf. revert st. induction k as [|k IH]; intros st Hin Hrep Hk.
  - cbn in Hk. now injection Hk as <-.
  - cbn [ParseLoop] in Hk.
    destruct (ParseSub cfg buf st) as [s|s] eqn:Es; [|discriminate].
    apply (IH s); [|now apply (ParseSub_reply buf st)|exact Hk].
    now apply (ParseSub_cursors cfg buf st s).
Qed.

(** The two ways [ParseCommand] returns once the machine is active. *)
Lemma ParseCommand_abort (m : M) (buf ret_buffer0 : list byte)
  (e : ParseState M) :
  BatchLoop cfg m buf ret_buffer0 = Abort e ->
  ParseCommand cfg true m buf ret_buffer0
  = {| reply := {| size := 1; buffer := MakeFailIPC cfg (ret_buffer e) |};
       vm_after := vm e; calls_made := calls e |}.
Proof. intros He. unfold ParseCommand. cbn [negb]. now rewrite He. Qed.

Lemma ParseCommand_next (m : M) (buf ret_buffer0 : list byte)
  (st : ParseState M) :
  BatchLoop cfg m buf ret_buffer0 = Next st ->
  ParseCommand cfg true m buf ret_buffer0
  = {| reply := {| size := to_int (ret_cnt st);
                   buffer := MakeOkIPC cfg (ret_buffer st) |};
       vm_after := vm st; calls_made := calls st |}.
Proof. intros He. unfold ParseCommand. cbn [negb]. now rewrite He. Qed.

(** The bytes sent for a failure. *)
Lemma sent_fail (ret_buffer1 : list byte) :
  (1 <= length ret_buffer1)%nat ->
  sent {| size := 1; buffer := MakeFailIPC cfg ret_buffer1 |}
  = [IPC_FAIL cfg].
Proof.
  intros Hlen. destruct ret_buffer1 as [|x l]; [simpl in Hlen; lia|].
  reflexivity.
Qed.

(** The bytes sent for a success. *)
Lemma sent_ok (st : ParseState M) :
  well_formed cfg = true -> cursors_in_range cfg st -> reply_so_far cfg st ->
  sent {| size := to_int (ret_cnt st);
          buffer := MakeOkIPC cfg (ret_buffer st) |}
  = IPC_OK cfg :: payload cfg (calls st).
Proof.
  intros Hwf (_ & Hr) (Hlen & Hpay).
  destruct (well_formed_sizes cfg Hwf) as (_ & _ & Hrmax).
  unfold sent, MakeOkIPC. cbn [size buffer].
  rewrite to_int_small by lia.
  rewrite firstn_set_first by lia. now rewrite Hpay.
Qed.

(** What a run returns when its batch loop completes. *)
Lemma ParseCommand_success (m : M) (buf ret_buffer0 : list byte)
  (st : ParseState M) :
  well_formed cfg = true -> reply_array cfg ret_buffer0 ->
  BatchLoop cfg m buf ret_buffer0 = Next st ->
  size (reply (ParseCommand cfg true m buf ret_buffer0)) = ret_cnt st
  /\ sent (reply (ParseCommand cfg true m buf ret_buffer0))
     = IPC_OK cfg :: payload cfg (calls st)
  /\ vm_after (ParseCommand cfg true m buf ret_buffer0) = vm st
  /\ calls_made (ParseCommand cfg true m buf ret_buffer0) = calls st
  /\ Z.of_nat (length (buffer (reply (ParseCommand cfg true m buf
                                        ret_buffer0))))
     = MAX_IPC_RETURN_SIZE cfg.
Proof.
  intros Hwf Hret Hloop.
  destruct (well_formed_sizes cfg Hwf) as (_ & _ & Hrmax).
  destruct (EnterLoop_cursors cfg m buf ret_buffer0 Hwf) as [Hin _].
  pose proof (EnterLoop_reply m buf ret_buffer0 Hret) as Hrep.
  rewrite (ParseCommand_next m buf ret_buffer0 st Hloop).
  cbn [reply calls_made vm_after].
  destruct (ParseLoop_cursors cfg _ buf _ st Hwf Hin Hloop) as (Hin' & _).
  pose proof (ParseLoop_reply _ buf _ st Hwf Hin Hrep Hloop) as Hrep'.
  rewrite (sent_ok st Hwf Hin' Hrep').
  destruct Hin' as (_ & Hr). destruct Hrep' as (Hlen & _).
  cbn [size buffer]. rewrite to_int_small by lia.
  unfold MakeOkIPC. rewrite length_set_first. repeat split. exact Hlen.
Qed.

(** What a run returns when its batch loop ends at [error]. *)
Lemma ParseCommand_failure (m : M) (buf ret_buffer0 : list byte)
  (e : ParseState M) :
  well_formed cfg = true -> reply_array cfg ret_buffer0 ->
  BatchLoop cfg m buf ret_buffer0 = Abort e ->
  size (reply (ParseCommand cfg true m buf ret_buffer0)) = 1
  /\ sent (reply (ParseCommand cfg true m buf ret_buffer0)) = [IPC_FAIL cfg]
  /\ vm_after (ParseCommand cfg true m buf ret_buffer0) = vm e
  /\ calls_made (ParseCommand cfg true m buf ret_buffer0) = calls e.
Proof.
  intros Hwf Hret He.
  destruct (well_formed_sizes cfg Hwf) as (_ & _ & Hrmax).
  destruct (EnterLoop_cursors cfg m buf ret_buffer0 Hwf) as [Hin _].
  pose proof (EnterLoop_reply m buf ret_buffer0 Hret) as Hrep.
  rewrite (ParseCommand_abort m buf ret_buffer0 e He).
  cbn [reply size calls_made vm_after]. repeat split.
  apply sent_fail.
  destruct (ParseLoop_abort_reached cfg _ buf _ e He) as (k & _ & Hk).
  destruct (ParseLoop_reply k buf _ e Hwf Hin Hrep Hk) as [Hlen _].
  lia.
Qed.

End Reply.

(** ** Requests laid out in the buffer *)

Section Layout.

Variable cfg : IPCConfig.
Context {M : Type} {facade : MemoryFacade M}.

(** A field that lies in the buffer decodes to its bytes. *)
Lemma FromArray_at (T : uint) (pre bs rest : list byte) (c i : Z) :
  c + i = Z.of_nat (length pre) -> length bs = sizeof T ->
  FromArray cfg T (pre ++ bs ++ rest, c) i = decode (wire_order cfg) bs.
Proof.
  intros Hc Hlen. unfold FromArray. cbn [fst snd].
  now rewrite Hc, <- Hlen, bytes_at_middle.
Qed.

Lemma length_read_request (T : uint) (a : Z) :
  Z.of_nat (length (read_request cfg T a)) = 5.
Proof. unfold read_request. cbn [length]. rewrite length_encode. lia. Qed.

Lemma length_write_request (T : uint) (a v : Z) :
  Z.of_nat (length (write_request cfg T a v)) = 5 + Z.of_nat (sizeof T).
Proof.
  unfold write_request. cbn [length].
  rewrite length_app, !length_encode. lia.
Qed.

(** The opcode and the address of a read request in the buffer. *)
Lemma read_request_fields (T : uint) (a : Z) (pre rest : list byte) :
  0 <= a < 2 ^ 32 ->
  byte_at (pre ++ read_request cfg T a ++ rest) (Z.of_nat (length pre))
  = label cfg (Read T)
  /\ FromArray cfg U32 (pre ++ read_request cfg T a ++ rest,
                        Z.of_nat (length pre)) 1 = a.
Proof.
  intros Ha. unfold read_request. split.
  - cbn [app]. apply byte_at_middle.
  - replace (pre ++ (label cfg (Read T) :: encode (wire_order cfg) 4 a) ++ rest)
      with ((pre ++ [label cfg (Read T)])
              ++ encode (wire_order cfg) 4 a ++ rest)
      by assoc_lists.
    rewrite FromArray_at.
    + now apply decode_encode_small.
    + rewrite length_app. cbn [length]. lia.
    + apply length_encode.
Qed.

(** The opcode, the address and the value of a write request in the
    buffer. *)
Lemma write_request_fields (T : uint) (a v : Z) (pre rest : list byte) :
  0 <= a < 2 ^ 32 -> 0 <= v < 2 ^ bits T ->
  byte_at (pre ++ write_request cfg T a v ++ rest) (Z.of_nat (length pre))
  = label cfg (Write T)
  /\ FromArray cfg U32 (pre ++ write_request cfg T a v ++ rest,
                        Z.of_nat (length pre)) 1 = a
  /\ FromArray cfg T (pre ++ write_request cfg T a v ++ rest,
                      Z.of_nat (length pre)) 5 = v.
Proof.
  intros Ha Hv. unfold write_request. split; [|split].
  - cbn [app]. apply byte_at_middle.
  - replace (pre ++ (label cfg (Write T) :: encode (wire_order cfg) 4 a
                       ++ encode (wire_order cfg) (sizeof T) v) ++ rest)
      with ((pre ++ [label cfg (Write T)])
              ++ encode (wire_order cfg) 4 a
              ++ (encode (wire_order cfg) (sizeof T) v ++ rest))
      by assoc_lists.
    rewrite FromArray_at.
    + now apply decode_encode_small.
    + rewrite length_app. cbn [length]. lia.
    + apply length_encode.
  - replace (pre ++ (label cfg (Write T) :: encode (wire_order cfg) 4 a
                       ++ encode (wire_order cfg) (sizeof T) v) ++ rest)
      with ((pre ++ label cfg (Write T) :: encode (wire_order cfg) 4 a)
              ++ encode (wire_order cfg) (sizeof T) v ++ rest)
      by assoc_lists.
    rewrite FromArray_at.
    + now apply decode_encode_small.
    + rewrite length_app. cbn [length]. rewrite length_encode. lia.
    + apply length_encode.
Qed.

(** A read request at the cursor, with room for it and for its value. *)
Lemma ParseSub_read_request (T : uint) (a : Z) (pre rest : list byte)
  (st : ParseState M) :
  well_formed cfg = true -> 0 <= a < 2 ^ 32 ->
  buf_cnt st = Z.of_nat (length pre) -> 0 <= ret_cnt st ->
  Z.of_nat (length pre) + 5 <= MAX_IPC_SIZE cfg ->
  ret_cnt st + Z.of_nat (sizeof T) <= MAX_IPC_RETURN_SIZE cfg ->
  ParseSub cfg (pre ++ read_request cfg T a ++ rest) st
  = Next {| vm := snd (memRead T a (vm st));
            ret_buffer := ToArray cfg T (ret_buffer st)
                            (wrap T (fst (memRead T a (vm st)))) (ret_cnt st);
            ret_cnt := ret_cnt st + Z.of_nat (sizeof T);
            buf_cnt := Z.of_nat (length (pre ++ read_request cfg T a));
            calls := calls st
                     ++ [CallRead T a (wrap T (fst (memRead T a (vm st))))] |}.
Proof.
  intros Hwf Ha Hb Hr Hroom Hrroom.
  destruct (read_request_fields T a pre rest Ha) as [Hop Haddr].
  rewrite <- Hb in Hop, Haddr.
  assert (Hc : check cfg (Read T) st = true).
  { apply check_true. cbn [command_size reply_size]. lia. }
  rewrite (ParseSub_label cfg _ st (Read T) Hwf Hop), Hc.
  destruct (run_cursors cfg (Read T) (pre ++ read_request cfg T a ++ rest)
              st Hwf ltac:(lia) Hr Hc) as [Eb Er].
  rewrite run_Read in *. cbv zeta in *. cbn [buf_cnt ret_cnt] in Eb, Er.
  rewrite Eb, Er, Haddr. cbn [command_size reply_size].
  rewrite length_app, Nat2Z.inj_add, length_read_request, Hb. reflexivity.
Qed.

(** A write request at the cursor, with room for it. *)
Lemma ParseSub_write_request (T : uint) (a v : Z) (pre rest : list byte)
  (st : ParseState M) :
  well_formed cfg = true -> 0 <= a < 2 ^ 32 -> 0 <= v < 2 ^ bits T ->
  buf_cnt st = Z.of_nat (length pre) ->
  0 <= ret_cnt st <= MAX_IPC_RETURN_SIZE cfg ->
  Z.of_nat (length pre) + (5 + Z.of_nat (sizeof T)) <= MAX_IPC_SIZE cfg ->
  ParseSub cfg (pre ++ write_request cfg T a v ++ rest) st
  = Next {| vm := memWrite T a v (vm st);
            ret_buffer := ret_buffer st;
            ret_cnt := ret_cnt st;
            buf_cnt := Z.of_nat (length (pre ++ write_request cfg T a v));
            calls := calls st ++ [CallWrite T a v] |}.
Proof.
  intros Hwf Ha Hv Hb Hr Hroom.
  destruct (write_request_fields T a v pre rest Ha Hv) as (Hop & Haddr & Hval).
  rewrite <- Hb in Hop, Haddr, Hval.
  assert (Hc : check cfg (Write T) st = true).
  { apply check_true. cbn [command_size reply_size]. lia. }
  rewrite (ParseSub_label cfg _ st (Write T) Hwf Hop), Hc.
  destruct (run_cursors cfg (Write T)
              (pre ++ write_request cfg T a v ++ rest)
              st Hwf ltac:(lia) ltac:(lia) Hc) as [Eb _].
  rewrite run_Write in *. cbv zeta in *. cbn [buf_cnt] in Eb.
  rewrite Eb, Haddr, Hval. cbn [command_size].
  rewrite length_app, Nat2Z.inj_add, length_write_request, Hb. reflexivity.
Qed.

(** The header of a batch request. *)
Lemma ParseHeader_batch (count : Z) (rest : list byte) :
  0 <= count < 2 ^ 16 ->
  ParseHeader cfg (batch_header cfg count ++ rest) = (count, 3).
Proof.
  intros Hcount. unfold ParseHeader, batch_header.
  change (byte_at ((MsgMultiCommand cfg :: encode (wire_order cfg) 2 count)
                     ++ rest) 0) with (MsgMultiCommand cfg).
  rewrite eqb_refl_byte. f_equal.
  change ((MsgMultiCommand cfg :: encode (wire_order cfg) 2 count) ++ rest)
    with ([MsgMultiCommand cfg] ++ encode (wire_order cfg) 2 count ++ rest).
  rewrite FromArray_at.
  - now apply decode_encode_small.
  - reflexivity.
  - apply length_encode.
Qed.

(** The header of a request that does not start with the batch tag. *)
Lemma ParseHeader_single (buf : list byte) :
  byte_at buf 0 <> MsgMultiCommand cfg -> ParseHeader cfg buf = (1, 0).
Proof.
  intros Hne. unfold ParseHeader. now rewrite (eqb_neq_byte Hne).
Qed.

Lemma length_batch_header (count : Z) :
  Z.of_nat (length (batch_header cfg count)) = 3.
Proof. unfold batch_header. cbn [length]. rewrite length_encode. lia. Qed.

(** A request that fits the buffer replaces its first bytes. *)
Lemma read_portable_short (m_ipc_buffer0 data : list byte) :
  Z.of_nat (length data) <= MAX_IPC_SIZE cfg ->
  read_portable cfg m_ipc_buffer0 data
  = data ++ skipn (length data) m_ipc_buffer0.
Proof.
  intros Hlen. unfold read_portable.
  now rewrite firstn_all2 by lia.
Qed.

(** The dispatcher is run on the received bytes followed by what the
    buffer held behind them: how many bytes were received is not part of
    what [ParseCommand] gets. *)
Lemma Exchange_reads_whole_buffer (active : bool) (s : Session M)
  (d : list byte) :
  Z.of_nat (length d) <= MAX_IPC_SIZE cfg ->
  snd (Exchange cfg active s (Some d))
  = sent (reply (ParseCommand cfg active (machine s)
                   (d ++ skipn (length d) (m_ipc_buffer s))
                   (m_ret_buffer s))).
Proof.
  intros Hd. cbn [Exchange snd]. now rewrite read_portable_short.
Qed.

(** A batch whose header is followed by a byte that is no opcode fails at
    its first sub-command: a fourth header byte is not skipped. *)
Lemma ParseCommand_fourth_header_byte (pad : byte) (m : M)
  (rest ret_buffer0 : list byte) :
  well_formed cfg = true -> reply_array cfg ret_buffer0 ->
  (forall c, pad <> label cfg c) ->
  sent (reply (ParseCommand cfg true m
                 (batch_header cfg 2 ++ [pad] ++ rest) ret_buffer0))
  = [IPC_FAIL cfg].
Proof.
  intros Hwf Hret Hpad.
  set (buf := batch_header cfg 2 ++ [pad] ++ rest).
  assert (Hh : ParseHeader cfg buf = (2, 3))
    by (apply ParseHeader_batch; lia).
  assert (Hloop : BatchLoop cfg m buf ret_buffer0
                  = Abort (EnterLoop cfg m buf ret_buffer0)).
  { unfold BatchLoop. rewrite Hh. cbn [fst]. change (Z.to_nat 2) with 2%nat.
    cbn [ParseLoop]. rewrite ParseSub_unknown; [reflexivity|].
    unfold EnterLoop. cbn [buf_cnt]. rewrite Hh. cbn [snd].
    rewrite <- (length_batch_header 2). unfold buf. cbn [app].
    now rewrite byte_at_middle. }
  apply (ParseCommand_failure cfg m buf ret_buffer0 _ Hwf Hret Hloop).
Qed.

(** A request made of one write. *)
Lemma ParseCommand_write_request (T : uint) (a v : Z) (m : M)
  (rest ret_buffer0 : list byte) :
  well_formed cfg = true -> reply_array cfg ret_buffer0 ->
  0 <= a < 2 ^ 32 -> 0 <= v < 2 ^ bits T ->
  5 + Z.of_nat (sizeof T) <= MAX_IPC_SIZE cfg ->
  sent (reply (ParseCommand cfg true m (write_request cfg T a v ++ rest)
                 ret_buffer0)) = [IPC_OK cfg]
  /\ vm_after (ParseCommand cfg true m (write_request cfg T a v ++ rest)
                 ret_buffer0) = memWrite T a v m
  /\ calls_made (ParseCommand cfg true m (write_request cfg T a v ++ rest)
                   ret_buffer0) = [CallWrite T a v]
  /\ reply_array cfg
       (buffer (reply (ParseCommand cfg true m
                         (write_request cfg T a v ++ rest) ret_buffer0))).
Proof.
  intros Hwf Hret Ha Hv Hroom.
  destruct (well_formed_labels cfg Hwf) as [_ Hmulti].
  destruct (well_formed_sizes cfg Hwf) as (_ & _ & Hrmax).
  set (buf := write_request cfg T a v ++ rest).
  assert (Hh : ParseHeader cfg buf = (1, 0)).
  { apply ParseHeader_single. apply Hmulti. }
  assert (Hloop : BatchLoop cfg m buf ret_buffer0
                  = Next {| vm := memWrite T a v m;
                            ret_buffer := ret_buffer0;
                            ret_cnt := 1;
                            buf_cnt := Z.of_nat
                                         (length ([] ++ write_request cfg T a v));
                            calls := [] ++ [CallWrite T a v] |}).
  { unfold BatchLoop, EnterLoop. rewrite Hh. cbn [fst snd].
    change (Z.to_nat 1) with 1%nat. cbn [ParseLoop].
    change buf with ([] ++ write_request cfg T a v ++ rest).
    rewrite ParseSub_write_request; cbn [buf_cnt ret_cnt length];
      try reflexivity; try assumption; lia. }
  destruct (ParseCommand_success cfg m buf ret_buffer0 _ Hwf Hret Hloop)
    as (_ & Hsent & Hvm & Hcalls & Hlen).
  repeat split; assumption.
Qed.

(** A request made of one read. *)
Lemma ParseCommand_read_request (T : uint) (a : Z) (m : M)
  (rest ret_buffer0 : list byte) :
  well_formed cfg = true -> reply_array cfg ret_buffer0 ->
  0 <= a < 2 ^ 32 ->
  5 <= MAX_IPC_SIZE cfg ->
  1 + Z.of_nat (sizeof T) <= MAX_IPC_RETURN_SIZE cfg ->
  sent (reply (ParseCommand cfg true m (read_request cfg T a ++ rest)
                 ret_buffer0))
  = IPC_OK cfg :: encode (wire_order cfg) (sizeof T) (fst (memRead T a m))
  /\ vm_after (ParseCommand cfg true m (read_request cfg T a ++ rest)
                 ret_buffer0) = snd (memRead T a m).
Proof.
  intros Hwf Hret Ha Hroom Hrroom.
  destruct (well_formed_labels cfg Hwf) as [_ Hmulti].
  set (buf := read_request cfg T a ++ rest).
  assert (Hh : ParseHeader cfg buf = (1, 0)).
  { apply ParseHeader_single. apply Hmulti. }
  assert (Hloop : BatchLoop cfg m buf ret_buffer0
                  = Next {| vm := snd (memRead T a m);
                            ret_buffer :=
                              ToArray cfg T ret_buffer0
                                (wrap T (fst (memRead T a m))) 1;
                            ret_cnt := 1 + Z.of_nat (sizeof T);
                            buf_cnt := Z.of_nat
                                         (length ([] ++ read_request cfg T a));
                            calls := [] ++ [CallRead T a
                                              (wrap T (fst (memRead T a m)))] |}).
  { unfold BatchLoop, EnterLoop. rewrite Hh. cbn [fst snd].
    change (Z.to_nat 1) with 1%nat. cbn [ParseLoop].
    change buf with ([] ++ read_request cfg T a ++ rest).
    rewrite ParseSub_read_request; cbn [buf_cnt ret_cnt length];
      try reflexivity; try assumption; lia. }
  destruct (ParseCommand_success cfg m buf ret_buffer0 _ Hwf Hret Hloop)
    as (_ & Hsent & Hvm & _).
  split; [|exact Hvm]. rewrite Hsent. cbn [calls app payload flat_map].
  now rewrite app_nil_r, encode_wrap.
Qed.

End Layout.

(** ** The end of the request buffer *)

Section Capacity.

Variable cfg : IPCConfig.
Context {M : Type} {facade : MemoryFacade M}.

(** With fewer than 5 bytes left before the capacity, an iteration jumps to
    [error] whatever the opcode byte is: every case needs at least the
    opcode and the address. *)
Lemma ParseSub_no_room (buf : list byte) (st : ParseState M) :
  MAX_IPC_SIZE cfg < buf_cnt st + 5 -> ParseSub cfg buf st = Abort st.
Proof.
  intros Hroom.
  destruct (ParseSub_cases cfg buf st) as [Ha|[c [Hc _]]]; [exact Ha|].
  apply check_true in Hc. pose proof (command_size_range c). lia.
Qed.

Lemma FromArray_app_l (T : uint) (buf junk : list byte) (c i : Z) :
  0 <= c + i -> c + i + Z.of_nat (sizeof T) <= Z.of_nat (length buf) ->
  FromArray cfg T (buf ++ junk, c) i = FromArray cfg T (buf, c) i.
Proof.
  intros Hc Hn. unfold FromArray. cbn [fst snd].
  now rewrite bytes_at_app_l.
Qed.

(** The address read at the head of an iteration takes the four bytes that
    follow the opcode. *)
Lemma address_read_bytes (buf : list byte) (st : ParseState M) :
  FromArray cfg U32 (buf, buf_cnt st) 1
  = decode (wire_order cfg)
      [byte_at buf (buf_cnt st + 1); byte_at buf (buf_cnt st + 2);
       byte_at buf (buf_cnt st + 3); byte_at buf (buf_cnt st + 4)].
Proof.
  unfold FromArray, bytes_at. cbn [fst snd sizeof seq map].
  change (Z.of_nat 0) with 0. change (Z.of_nat 1) with 1.
  change (Z.of_nat 2) with 2. change (Z.of_nat 3) with 3.
  now rewrite Z.add_0_r, <- !Z.add_assoc.
Qed.

(** An iteration reads nothing behind the array that its result depends
    on. *)
Lemma ParseSub_beyond_capacity (buf junk : list byte) (st : ParseState M) :
  request_array cfg buf -> 0 <= buf_cnt st ->
  ParseSub cfg (buf ++ junk) st = ParseSub cfg buf st.
Proof.
  intros Hlen Hb. unfold request_array in Hlen.
  destruct (Z_lt_le_dec (MAX_IPC_SIZE cfg) (buf_cnt st + 5)) as [Hno|Hroom].
  { now rewrite !ParseSub_no_room. }
  unfold ParseSub.
  rewrite byte_at_app_l by lia.
  rewrite (FromArray_app_l U32) by (cbn [sizeof]; lia).
  repeat match goal with
         | |- context [Byte.eqb ?a ?b] => destruct (Byte.eqb a b)
         end;
    try reflexivity;
    match goal with
    | |- context [SafetyChecks cfg ?c ?n ?r ?k] =>
        destruct (SafetyChecks cfg c n r k) eqn:E
    end; cbn [negb]; try reflexivity;
    unfold SafetyChecks in E;
    rewrite negb_true_iff, orb_false_iff, !Z.ltb_ge in E;
    unfold write_case; rewrite FromArray_app_l by (cbn [sizeof]; lia);
    reflexivity.
Qed.

Lemma ParseLoop_beyond_capacity (n : nat) (buf junk : list byte)
  (st : ParseState M) :
  well_formed cfg = true -> request_array cfg buf -> cursors_in_range cfg st ->
  ParseLoop cfg n (buf ++ junk) st = ParseLoop cfg n buf st.
Proof.
  intros Hwf Hlen. revert st. induction n as [|n IH]; intros st Hin.
  - reflexivity.
  - cbn [ParseLoop]. rewrite ParseSub_beyond_capacity by (assumption || apply Hin).
    destruct (ParseSub cfg buf st) as [s|s] eqn:Es; [|reflexivity].
    apply IH. now apply (ParseSub_cursors cfg buf st s).
Qed.

(** The bytes that lie behind the request array do not matter: whatever
    they are, [ParseCommand] returns the same result, makes the same calls
    and leaves the same memory. The zero byte [byte_at] reads there is
    therefore no assumption on the program. *)
Lemma ParseCommand_beyond_capacity (HasActiveMachine : bool) (m : M)
  (buf junk ret_buffer0 : list byte) :
  well_formed cfg = true -> request_array cfg buf -> 3 <= MAX_IPC_SIZE cfg ->
  ParseCommand cfg HasActiveMachine m (buf ++ junk) ret_buffer0
  = ParseCommand cfg HasActiveMachine m buf ret_buffer0.
Proof.
  intros Hwf Hlen H3. unfold request_array in Hlen.
  assert (Hh : ParseHeader cfg (buf ++ junk) = ParseHeader cfg buf).
  { unfold ParseHeader. rewrite byte_at_app_l by lia.
    now rewrite (FromArray_app_l U16) by (cbn [sizeof]; lia). }
  unfold ParseCommand, BatchLoop, EnterLoop. rewrite Hh.
  rewrite ParseLoop_beyond_capacity; try assumption; [reflexivity|].
  apply (EnterLoop_cursors cfg m buf ret_buffer0 Hwf).
Qed.

(** *** A request that brings the cursor to the end of the buffer *)

Lemma zero_writes_size_app (l l' : list uint) :
  zero_writes_size (l ++ l') = zero_writes_size l + zero_writes_size l'.
Proof.
  induction l as [|T l IH]; cbn [app zero_writes_size] in *; lia.
Qed.

Lemma zero_writes_size_repeat (q : nat) :
  zero_writes_size (repeat U64 q) = 13 * Z.of_nat q.
Proof.
  induction q as [|q IH]; [reflexivity|].
  cbn [repeat zero_writes_size sizeof] in *. lia.
Qed.

Lemma length_zero_writes (l : list uint) :
  Z.of_nat (length (zero_writes cfg l)) = zero_writes_size l.
Proof.
  induction l as [|T l IH]; [reflexivity|].
  cbn [zero_writes flat_map zero_writes_size] in *.
  fold (zero_writes cfg l) in *.
  rewrite length_app, Nat2Z.inj_add, length_write_request. lia.
Qed.

Lemma zero_writes_size_nonneg (l : list uint) : 0 <= zero_writes_size l.
Proof.
  induction l as [|T l IH]; cbn [zero_writes_size] in *; lia.
Qed.

(** The writes of [filler] end at most 4 bytes before the room given. *)
Lemma filler_size (room : Z) :
  13 <= room ->
  room - 4 <= zero_writes_size (filler room) <= room
  /\ Z.of_nat (length (filler room)) <= room / 13 + 3.
Proof.
  intros Hroom. unfold filler.
  pose proof (Z.div_mod room 13 ltac:(lia)) as Hdm.
  pose proof (Z.mod_pos_bound room 13 ltac:(lia)) as Hr.
  assert (Hq : 1 <= room / 13) by (apply Z.div_le_lower_bound; lia).
  assert (Hn : Z.of_nat (Z.to_nat (room / 13)) = room / 13) by lia.
  assert (Hn1 : Z.of_nat (Z.to_nat (room / 13) - 1) = room / 13 - 1) by lia.
  destruct (room mod 13 <=? 4) eqn:E4; [apply Z.leb_le in E4|apply Z.leb_gt in E4].
  { rewrite zero_writes_size_repeat, repeat_length, Hn. lia. }
  destruct (room mod 13 =? 5) eqn:E5; [apply Z.eqb_eq in E5|apply Z.eqb_neq in E5].
  { rewrite zero_writes_size_app, zero_writes_size_repeat, length_app,
      repeat_length, Nat2Z.inj_add, Hn1.
    cbn [zero_writes_size sizeof length]. lia. }
  destruct (room mod 13 <=? 10) eqn:E10;
    [apply Z.leb_le in E10|apply Z.leb_gt in E10].
  { rewrite zero_writes_size_app, zero_writes_size_repeat, length_app,
      repeat_length, Nat2Z.inj_add, Hn.
    cbn [zero_writes_size sizeof length]. lia. }
  destruct (room mod 13 =? 11) eqn:E11;
    [apply Z.eqb_eq in E11|apply Z.eqb_neq in E11].
  { rewrite zero_writes_size_app, zero_writes_size_repeat, length_app,
      repeat_length, Nat2Z.inj_add, Hn.
    cbn [zero_writes_size sizeof length]. lia. }
  rewrite zero_writes_size_app, zero_writes_size_repeat, length_app,
    repeat_length, Nat2Z.inj_add, Hn.
  cbn [zero_writes_size sizeof length]. lia.
Qed.

(** Writes laid out one after the other, with room for all of them, all
    succeed, and the request cursor ends behind the last. *)
Lemma ParseLoop_zero_writes (l : list uint) :
  well_formed cfg = true ->
  forall (pre rest : list byte) (st : ParseState M),
    buf_cnt st = Z.of_nat (length pre) ->
    0 <= ret_cnt st <= MAX_IPC_RETURN_SIZE cfg ->
    Z.of_nat (length pre) + zero_writes_size l <= MAX_IPC_SIZE cfg ->
    exists st',
      ParseLoop cfg (length l) (pre ++ zero_writes cfg l ++ rest) st = Next st'
      /\ buf_cnt st' = Z.of_nat (length pre) + zero_writes_size l.
Proof.
  intros Hwf. induction l as [|T l IH]; intros pre rest st Hb Hr Hroom.
  - exists st. split; [reflexivity|]. cbn [zero_writes_size]. lia.
  - cbn [zero_writes flat_map zero_writes_size length ParseLoop] in *.
    fold (zero_writes cfg l) in *.
    pose proof (zero_writes_size_nonneg l) as Hl.
    rewrite <- app_assoc.
    rewrite ParseSub_write_request; try assumption; try lia;
      [|split; [lia|apply Z.pow_pos_nonneg; unfold bits; lia]].
    replace (pre ++ write_request cfg T 0 0 ++ zero_writes cfg l ++ rest)
      with ((pre ++ write_request cfg T 0 0) ++ zero_writes cfg l ++ rest)
      by assoc_lists.
    destruct (IH (pre ++ write_request cfg T 0 0) rest
                {| vm := memWrite T 0 0 (vm st);
                   ret_buffer := ret_buffer st;
                   ret_cnt := ret_cnt st;
                   buf_cnt := Z.of_nat
                                (length (pre ++ write_request cfg T 0 0));
                   calls := calls st ++ [CallWrite T 0 0] |})
      as (st' & Hst' & Hb').
    + reflexivity.
    + exact Hr.
    + rewrite length_app, Nat2Z.inj_add, length_write_request. lia.
    + exists st'. split; [exact Hst'|].
      rewrite Hb', length_app, Nat2Z.inj_add, length_write_request. lia.
Qed.

(** Whatever the capacity of the request buffer, from 16 bytes up to
    850000, some request of exactly that many bytes makes an iteration of
    the batch loop read its address from behind the array. *)
Lemma address_read_overruns_any_capacity (m : M) (ret_buffer0 : list byte) :
  well_formed cfg = true ->
  16 <= MAX_IPC_SIZE cfg <= 850000 ->
  request_array cfg (brim_request cfg)
  /\ exists (k : nat) (st : ParseState M),
       (k < Z.to_nat (fst (ParseHeader cfg (brim_request cfg))))%nat
       /\ ParseLoop cfg k (brim_request cfg)
            (EnterLoop cfg m (brim_request cfg) ret_buffer0) = Next st
       /\ ~ address_read_in_bounds (brim_request cfg) st.
Proof.
  intros Hwf Hmax.
  destruct (well_formed_sizes cfg Hwf) as (_ & _ & Hrmax).
  destruct (filler_size (MAX_IPC_SIZE cfg - 3) ltac:(lia)) as [Hsize Hlen].
  assert (Hq : (MAX_IPC_SIZE cfg - 3) / 13 <= 65385)
    by (apply Z.div_le_upper_bound; lia).
  unfold brim_request.
  set (l := filler (MAX_IPC_SIZE cfg - 3)) in *.
  set (pad := repeat Byte.x00
                (Z.to_nat (MAX_IPC_SIZE cfg - 3 - zero_writes_size l))).
  set (buf := batch_header cfg (Z.of_nat (length l) + 1)
                ++ zero_writes cfg l ++ pad).
  assert (Hh : ParseHeader cfg buf = (Z.of_nat (length l) + 1, 3))
    by (apply ParseHeader_batch; lia).
  assert (Hbuf : request_array cfg buf).
  { unfold request_array, buf, pad.
    rewrite !length_app, !Nat2Z.inj_add, length_batch_header,
      length_zero_writes, repeat_length. lia. }
  split; [exact Hbuf|].
  destruct (ParseLoop_zero_writes l Hwf (batch_header cfg (Z.of_nat (length l) + 1))
              pad (EnterLoop cfg m buf ret_buffer0))
    as (st & Hst & Hb).
  - unfold EnterLoop. cbn [buf_cnt]. rewrite Hh, length_batch_header.
    reflexivity.
  - cbn [EnterLoop ret_cnt]. lia.
  - rewrite length_batch_header. lia.
  - exists (length l), st. split; [rewrite Hh; cbn [fst]; lia|].
    split; [exact Hst|].
    unfold address_read_in_bounds. unfold request_array in Hbuf.
    rewrite Hbuf, Hb, length_batch_header. cbn [sizeof]. lia.
Qed.

End Capacity.

(** ** Properties of the protocol *)

Section Protocol.

Variable cfg : IPCConfig.
Context {M : Type} {facade : MemoryFacade M}.

(** C2. When the machine is not active, [ParseCommand] returns the 1-byte
    failure reply at once, for every request: the result is the same
    whatever the request buffer holds (no byte of it is interpreted), the
    facade is not called and the memory is as before. *)
Theorem inactive_machine_fails (HasActiveMachine : bool) (m : M)
  (buf ret_buffer0 : list byte) :
  HasActiveMachine = false ->
  (1 <= length ret_buffer0)%nat ->
  size (reply (ParseCommand cfg HasActiveMachine m buf ret_buffer0)) = 1
  /\ sent (reply (ParseCommand cfg HasActiveMachine m buf ret_buffer0))
     = [IPC_FAIL cfg]
  /\ calls_made (ParseCommand cfg HasActiveMachine m buf ret_buffer0) = []
  /\ vm_after (ParseCommand cfg HasActiveMachine m buf ret_buffer0) = m
  /\ forall buf' : list byte,
       ParseCommand cfg HasActiveMachine m buf' ret_buffer0
       = ParseCommand cfg HasActiveMachine m buf ret_buffer0.
Proof.
  intros -> Hlen. unfold ParseCommand. cbn [negb reply size calls_made vm_after].
  repeat split. now apply sent_fail.
Qed.

(** C10. A request that starts with the batch tag and whose count field is
    0, with an active machine, gets the 1-byte success reply, and the facade
    is not called. *)
Theorem empty_batch_succeeds (m : M) (buf ret_buffer0 : list byte) :
  (1 <= length ret_buffer0)%nat ->
  byte_at buf 0 = MsgMultiCommand cfg ->
  FromArray cfg U16 (buf, 0) 1 = 0 ->
  size (reply (ParseCommand cfg true m buf ret_buffer0)) = 1
  /\ sent (reply (ParseCommand cfg true m buf ret_buffer0)) = [IPC_OK cfg]
  /\ calls_made (ParseCommand cfg true m buf ret_buffer0) = []
  /\ vm_after (ParseCommand cfg true m buf ret_buffer0) = m.
Proof.
  intros Hlen Htag Hcount.
  assert (Hh : fst (ParseHeader cfg buf) = 0).
  { unfold ParseHeader. now rewrite Htag, eqb_refl_byte. }
  rewrite (ParseCommand_next cfg m buf ret_buffer0
             (EnterLoop cfg m buf ret_buffer0))
    by (unfold BatchLoop; now rewrite Hh).
  cbn [reply size calls_made vm_after EnterLoop ret_cnt calls vm ret_buffer].
  repeat split. destruct ret_buffer0 as [|x l]; [simpl in Hlen; lia|].
  reflexivity.
Qed.

(** C1. If the first [k] sub-commands of a batch succeed and sub-command
    [k] has an unknown opcode or fails its bounds check, [ParseCommand]
    returns the 1-byte failure reply; the memory is the one the first [k]
    sub-commands left (their writes stay) and the facade calls are theirs
    (no later sub-command runs). *)
Theorem failing_sub_command_aborts (m : M) (buf ret_buffer0 : list byte)
  (k : nat) (st : ParseState M) :
  well_formed cfg = true ->
  reply_array cfg ret_buffer0 ->
  (k < Z.to_nat (fst (ParseHeader cfg buf)))%nat ->
  ParseLoop cfg k buf (EnterLoop cfg m buf ret_buffer0) = Next st ->
  fails cfg buf st ->
  size (reply (ParseCommand cfg true m buf ret_buffer0)) = 1
  /\ sent (reply (ParseCommand cfg true m buf ret_buffer0)) = [IPC_FAIL cfg]
  /\ vm_after (ParseCommand cfg true m buf ret_buffer0) = vm st
  /\ calls_made (ParseCommand cfg true m buf ret_buffer0) = calls st.
Proof.
  intros Hwf Hret Hk Hst Hfail.
  assert (Hsub : ParseSub cfg buf st = Abort st).
  { destruct Hfail as [Hno|[c [Hop Hc]]].
    - now apply ParseSub_unknown.
    - now rewrite (ParseSub_label cfg buf st c Hwf Hop), Hc. }
  apply (ParseCommand_failure cfg m buf ret_buffer0 st Hwf Hret).
  exact (ParseLoop_abort cfg k _ buf _ st st Hk Hst Hsub).
Qed.

(** C9. In one run of [ParseCommand] the reply cursor starts at 1 and the
    request cursor at 0 or 3; from one reached iteration to a later one
    neither cursor decreases; after each sub-command that succeeded the
    request cursor is at most [MAX_IPC_SIZE] and the reply cursor at most
    [MAX_IPC_RETURN_SIZE]; and a sub-command that would take a cursor past
    its capacity ends the batch at the label [error] instead. *)
Theorem cursors_monotone_and_bounded (m : M) (buf ret_buffer0 : list byte) :
  well_formed cfg = true ->
  ret_cnt (EnterLoop cfg m buf ret_buffer0) = 1
  /\ 0 <= buf_cnt (EnterLoop cfg m buf ret_buffer0)
  /\ (forall (j k : nat) (stj stk : ParseState M),
        (j <= k)%nat ->
        ParseLoop cfg j buf (EnterLoop cfg m buf ret_buffer0) = Next stj ->
        ParseLoop cfg k buf (EnterLoop cfg m buf ret_buffer0) = Next stk ->
        buf_cnt stj <= buf_cnt stk /\ ret_cnt stj <= ret_cnt stk)
  /\ (forall (k : nat) (stk : ParseState M),
        (1 <= k)%nat ->
        ParseLoop cfg k buf (EnterLoop cfg m buf ret_buffer0) = Next stk ->
        buf_cnt stk <= MAX_IPC_SIZE cfg
        /\ ret_cnt stk <= MAX_IPC_RETURN_SIZE cfg)
  /\ (forall (k : nat) (stk : ParseState M) (c : command),
        (k < Z.to_nat (fst (ParseHeader cfg buf)))%nat ->
        ParseLoop cfg k buf (EnterLoop cfg m buf ret_buffer0) = Next stk ->
        byte_at buf (buf_cnt stk) = label cfg c ->
        MAX_IPC_SIZE cfg < buf_cnt stk + command_size c
        \/ MAX_IPC_RETURN_SIZE cfg < ret_cnt stk + reply_size c ->
        BatchLoop cfg m buf ret_buffer0 = Abort stk
        /\ size (reply (ParseCommand cfg true m buf ret_buffer0)) = 1).
Proof.
  intros Hwf.
  destruct (EnterLoop_cursors cfg m buf ret_buffer0 Hwf) as [Hin H03].
  split; [reflexivity|]. split; [apply Hin|]. split; [|split].
  - intros j k stj stk Hjk Hj Hk.
    destruct (ParseLoop_prefix cfg j k buf _ stk Hjk Hk) as (s & Hs & Hrest).
    assert (s = stj) as -> by congruence.
    destruct (ParseLoop_cursors cfg j buf _ stj Hwf Hin Hj) as (Hinj & _).
    destruct (ParseLoop_cursors cfg (k - j) buf stj stk Hwf Hinj Hrest)
      as (_ & Hb & Hr & _).
    split; assumption.
  - intros k stk Hk Hst.
    destruct (ParseLoop_cursors cfg k buf _ stk Hwf Hin Hst)
      as ((_ & Hr) & _ & _ & Hb).
    split; [now apply Hb|apply Hr].
  - intros k stk c Hk Hst Hop Hover.
    assert (Hsub : ParseSub cfg buf stk = Abort stk).
    { rewrite (ParseSub_label cfg buf stk c Hwf Hop).
      apply (check_false cfg) in Hover. now rewrite Hover. }
    assert (Hloop : BatchLoop cfg m buf ret_buffer0 = Abort stk)
      by exact (ParseLoop_abort cfg k _ buf _ stk stk Hk Hst Hsub).
    split; [exact Hloop|]. now rewrite (ParseCommand_abort cfg m buf _ stk).
Qed.

Lemma bits_div_8 (T : uint) : bits T / 8 = Z.of_nat (sizeof T).
Proof. unfold bits. rewrite Z.mul_comm. apply Z.div_mul. lia. Qed.

(** C6. A Read-N sub-command passes its check when 5 request bytes and N/8
    reply bytes remain; it then reads N bits at the address through the
    facade, stores the value at the reply cursor, and advances the reply
    cursor by N/8 and the request cursor by 5. A Write-N sub-command passes
    when 5+N/8 request bytes remain (and no reply byte is needed); it then
    decodes the N-bit value at request cursor + 5, writes it at the address
    through the facade, advances the request cursor by 5+N/8 and leaves the
    reply buffer and its cursor as they are. Otherwise the sub-command jumps
    to [error]. *)
Theorem sub_command_semantics (T : uint) (buf : list byte)
  (st : ParseState M) :
  well_formed cfg = true ->
  0 <= buf_cnt st -> 0 <= ret_cnt st ->
  (byte_at buf (buf_cnt st) = label cfg (Read T) ->
   ParseSub cfg buf st
   = if (buf_cnt st + 5 <=? MAX_IPC_SIZE cfg)
        && (ret_cnt st + bits T / 8 <=? MAX_IPC_RETURN_SIZE cfg)
     then
       Next {| vm := snd (memRead T (FromArray cfg U32 (buf, buf_cnt st) 1)
                            (vm st));
               ret_buffer :=
                 memcpy_at (ret_buffer st) (ret_cnt st)
                   (encode (wire_order cfg) (sizeof T)
                      (fst (memRead T (FromArray cfg U32 (buf, buf_cnt st) 1)
                              (vm st))));
               ret_cnt := ret_cnt st + bits T / 8;
               buf_cnt := buf_cnt st + 5;
               calls :=
                 calls st
                 ++ [CallRead T (FromArray cfg U32 (buf, buf_cnt st) 1)
                       (wrap T
                          (fst (memRead T
                                  (FromArray cfg U32 (buf, buf_cnt st) 1)
                                  (vm st))))] |}
     else Abort st)
  /\ (byte_at buf (buf_cnt st) = label cfg (Write T) ->
      ParseSub cfg buf st
      = if (buf_cnt st + (5 + bits T / 8) <=? MAX_IPC_SIZE cfg)
           && (ret_cnt st + 0 <=? MAX_IPC_RETURN_SIZE cfg)
        then
          Next {| vm := memWrite T (FromArray cfg U32 (buf, buf_cnt st) 1)
                          (decode (wire_order cfg)
                             (bytes_at buf (buf_cnt st + 5) (sizeof T)))
                          (vm st);
                  ret_buffer := ret_buffer st;
                  ret_cnt := ret_cnt st;
                  buf_cnt := buf_cnt st + (5 + bits T / 8);
                  calls :=
                    calls st
                    ++ [CallWrite T (FromArray cfg U32 (buf, buf_cnt st) 1)
                          (decode (wire_order cfg)
                             (bytes_at buf (buf_cnt st + 5) (sizeof T)))] |}
        else Abort st).
Proof.
  intros Hwf Hb Hr. rewrite bits_div_8.
  destruct (well_formed_sizes cfg Hwf) as (_ & Hmax & Hrmax).
  split; intros Hop; rewrite (ParseSub_label cfg buf st _ Hwf Hop).
  - destruct (check cfg (Read T) st) eqn:Hc.
    + pose proof (run_cursors cfg _ buf st Hwf Hb Hr Hc) as [Eb Er].
      apply check_true in Hc. cbn [command_size reply_size] in *.
      destruct Hc as [Hc1 Hc2].
      apply Z.leb_le in Hc1, Hc2. rewrite Hc1, Hc2. cbn [andb].
      rewrite <- Eb, <- Er, run_Read. cbv zeta.
      unfold ToArray. now rewrite encode_wrap.
    + apply check_false in Hc. cbn [command_size reply_size] in Hc.
      destruct Hc as [Hc|Hc].
      * apply Z.leb_gt in Hc. now rewrite Hc.
      * apply Z.leb_gt in Hc. rewrite Hc. now rewrite andb_false_r.
  - destruct (check cfg (Write T) st) eqn:Hc.
    + pose proof (run_cursors cfg _ buf st Hwf Hb Hr Hc) as [Eb Er].
      apply check_true in Hc. cbn [command_size reply_size] in *.
      destruct Hc as [Hc1 Hc2].
      apply Z.leb_le in Hc1, Hc2. rewrite Hc1, Hc2. cbn [andb].
      rewrite <- Eb, run_Write. reflexivity.
    + apply check_false in Hc. cbn [command_size reply_size] in Hc.
      destruct Hc as [Hc|Hc].
      * apply Z.leb_gt in Hc. now rewrite Hc.
      * apply Z.leb_gt in Hc. rewrite Hc. now rewrite andb_false_r.
Qed.

(** C8. With a facade that has read-after-write semantics, for every width
    [T], address [a] and value [v] of that width: a Write-[T] of [v] at [a]
    followed by a Read-[T] at [a] is answered with the success status and
    the encoding of [v], both when the two are the sub-commands of one
    batch and when they are the requests of two successive connections. *)
Theorem write_then_read_returns_value (T : uint) (a v : Z) :
  well_formed cfg = true ->
  read_after_write (M := M) ->
  21 <= MAX_IPC_SIZE cfg -> 9 <= MAX_IPC_RETURN_SIZE cfg ->
  0 <= a < 2 ^ 32 -> 0 <= v < 2 ^ bits T ->
  (forall (m : M) (rest ret_buffer0 : list byte),
      reply_array cfg ret_buffer0 ->
      sent (reply (ParseCommand cfg true m
                     (batch_header cfg 2 ++ write_request cfg T a v
                        ++ read_request cfg T a ++ rest) ret_buffer0))
      = IPC_OK cfg :: encode (wire_order cfg) (sizeof T) v)
  /\ (forall s : Session M,
         reply_array cfg (m_ret_buffer s) ->
         snd (Exchange cfg true s (Some (write_request cfg T a v)))
         = [IPC_OK cfg]
         /\ snd (Exchange cfg true
                   (fst (Exchange cfg true s (Some (write_request cfg T a v))))
                   (Some (read_request cfg T a)))
            = IPC_OK cfg :: encode (wire_order cfg) (sizeof T) v).
Proof.
  intros Hwf Hraw Hmax Hrmax Ha Hv.
  assert (Hn : 1 <= Z.of_nat (sizeof T) <= 8) by (destruct T; cbn; lia).
  split.
  - intros m rest ret_buffer0 Hret.
    set (buf := batch_header cfg 2 ++ write_request cfg T a v
                  ++ read_request cfg T a ++ rest).
    assert (Hh : ParseHeader cfg buf = (2, 3))
      by (apply ParseHeader_batch; lia).
    pose proof (length_batch_header cfg 2) as Hlh.
    pose proof (length_write_request cfg T a v) as Hlw.
    assert (Hloop : BatchLoop cfg m buf ret_buffer0
              = Next {| vm := snd (memRead T a (memWrite T a v m));
                        ret_buffer :=
                          ToArray cfg T ret_buffer0
                            (wrap T (fst (memRead T a (memWrite T a v m)))) 1;
                        ret_cnt := 1 + Z.of_nat (sizeof T);
                        buf_cnt :=
                          Z.of_nat (length ((batch_header cfg 2
                                               ++ write_request cfg T a v)
                                              ++ read_request cfg T a));
                        calls := ([] ++ [CallWrite T a v])
                                 ++ [CallRead T a
                                       (wrap T (fst (memRead T a
                                                       (memWrite T a v m))))]
                     |}).
    { unfold BatchLoop, EnterLoop. rewrite Hh. cbn [fst snd].
      change (Z.to_nat 2) with 2%nat. cbn [ParseLoop]. unfold buf.
      rewrite ParseSub_write_request; cbn [buf_cnt ret_cnt];
        try assumption; try lia.
      replace (batch_header cfg 2 ++ write_request cfg T a v
                 ++ read_request cfg T a ++ rest)
        with ((batch_header cfg 2 ++ write_request cfg T a v)
                ++ read_request cfg T a ++ rest) by assoc_lists.
      rewrite ParseSub_read_request; cbn [buf_cnt ret_cnt vm ret_buffer calls];
        try assumption; try reflexivity;
        rewrite ?length_app, ?Nat2Z.inj_add; lia. }
    destruct (ParseCommand_success cfg m buf ret_buffer0 _ Hwf Hret Hloop)
      as (_ & Hsent & _).
    rewrite Hsent. cbn [calls]. rewrite !payload_app. cbn.
    rewrite app_nil_r, encode_wrap. now rewrite (Hraw T a v m Ha Hv).
  - intros s Hret. cbn [Exchange fst snd].
    rewrite !read_portable_short
      by (rewrite ?length_write_request, ?length_read_request; lia).
    destruct (ParseCommand_write_request cfg T a v (machine s)
                (skipn (length (write_request cfg T a v)) (m_ipc_buffer s))
                (m_ret_buffer s) Hwf Hret Ha Hv ltac:(lia))
      as (Hsent & Hvm & _ & Hret').
    split; [exact Hsent|].
    cbn [m_ipc_buffer m_ret_buffer machine].
    match goal with
    | |- sent (reply (ParseCommand cfg true ?m1 (_ ++ ?rest1) ?ret1)) = _ =>
        destruct (ParseCommand_read_request cfg T a m1 rest1 ret1 Hwf Hret' Ha
                    ltac:(lia) ltac:(lia)) as [Hsent2 _]
    end.
    rewrite Hsent2, Hvm. now rewrite (Hraw T a v (machine s) Ha Hv).
Qed.

(** C5, amended. The request [[MultiCommand, count=2][Read8, addr=0x10]
    [Write8, addr=0x11, 0x05]], whose batch header is the tag byte and the
    2-byte count with no pad byte, 14 bytes in all, gets a 2-byte reply: the
    success status and the byte that the Read8 at [0x10] returned; the
    Write8 of [0x05] at [0x11] is then made. *)
Theorem batch_read8_write8 (m : M) (rest ret_buffer0 : list byte) :
  well_formed cfg = true ->
  reply_array cfg ret_buffer0 ->
  14 <= MAX_IPC_SIZE cfg -> 2 <= MAX_IPC_RETURN_SIZE cfg ->
  length (batch_header cfg 2 ++ read_request cfg U8 16
            ++ write_request cfg U8 17 5) = 14%nat
  /\ size (reply (ParseCommand cfg true m
                    (batch_header cfg 2 ++ read_request cfg U8 16
                       ++ write_request cfg U8 17 5 ++ rest) ret_buffer0)) = 2
  /\ sent (reply (ParseCommand cfg true m
                    (batch_header cfg 2 ++ read_request cfg U8 16
                       ++ write_request cfg U8 17 5 ++ rest) ret_buffer0))
     = [IPC_OK cfg; byte.of_Z (fst (memRead8 16 m))]
  /\ calls_made (ParseCommand cfg true m
                   (batch_header cfg 2 ++ read_request cfg U8 16
                      ++ write_request cfg U8 17 5 ++ rest) ret_buffer0)
     = [CallRead U8 16 (wrap U8 (fst (memRead8 16 m))); CallWrite U8 17 5]
  /\ vm_after (ParseCommand cfg true m
                 (batch_header cfg 2 ++ read_request cfg U8 16
                    ++ write_request cfg U8 17 5 ++ rest) ret_buffer0)
     = memWrite8 17 5 (snd (memRead8 16 m)).
Proof.
  intros Hwf Hret Hmax Hrmax.
  split.
  { rewrite !length_app. unfold batch_header, read_request, write_request.
    cbn [length]. rewrite length_app, !length_encode. reflexivity. }
  set (buf := batch_header cfg 2 ++ read_request cfg U8 16
                ++ write_request cfg U8 17 5 ++ rest).
  assert (Hh : ParseHeader cfg buf = (2, 3))
    by (apply ParseHeader_batch; lia).
  pose proof (length_batch_header cfg 2) as Hlh.
  pose proof (length_read_request cfg U8 16) as Hlr.
  assert (Hloop : BatchLoop cfg m buf ret_buffer0
            = Next {| vm := memWrite U8 17 5 (snd (memRead U8 16 m));
                      ret_buffer :=
                        ToArray cfg U8 ret_buffer0
                          (wrap U8 (fst (memRead U8 16 m))) 1;
                      ret_cnt := 1 + Z.of_nat (sizeof U8);
                      buf_cnt :=
                        Z.of_nat (length ((batch_header cfg 2
                                             ++ read_request cfg U8 16)
                                            ++ write_request cfg U8 17 5));
                      calls := ([] ++ [CallRead U8 16
                                         (wrap U8 (fst (memRead U8 16 m)))])
                               ++ [CallWrite U8 17 5] |}).
  { unfold BatchLoop, EnterLoop. rewrite Hh. cbn [fst snd].
    change (Z.to_nat 2) with 2%nat. cbn [ParseLoop]. unfold buf.
    rewrite ParseSub_read_request; cbn [buf_cnt ret_cnt sizeof];
      try assumption; try lia.
    replace (batch_header cfg 2 ++ read_request cfg U8 16
               ++ write_request cfg U8 17 5 ++ rest)
      with ((batch_header cfg 2 ++ read_request cfg U8 16)
              ++ write_request cfg U8 17 5 ++ rest) by assoc_lists.
    rewrite ParseSub_write_request; cbn [buf_cnt ret_cnt vm ret_buffer calls];
      try assumption; try reflexivity;
      rewrite ?length_app, ?Nat2Z.inj_add, ?Hlh, ?Hlr;
      change (2 ^ bits U8) with 256; change (Z.of_nat (sizeof U8)) with 1;
      lia. }
  destruct (ParseCommand_success cfg m buf ret_buffer0 _ Hwf Hret Hloop)
    as (Hsize & Hsent & Hvm & Hcalls & _).
  rewrite Hsize, Hsent, Hvm, Hcalls. cbn [ret_cnt calls vm app].
  repeat split. cbn [payload flat_map app].
  rewrite encode_wrap. now destruct (wire_order cfg).
Qed.

(** C3, amended. [ParseCommand] checks a sub-command against the capacity
    of the request buffer: when the first [k] sub-commands succeed and
    sub-command [k] of the batch would take the request cursor past
    [MAX_IPC_SIZE] (fewer than 5 bytes are left, or fewer than its opcode
    needs), the reply is the 1-byte failure reply. The bytes received do not
    enter the check, see [Exchange_reads_whole_buffer]. *)
Theorem batch_past_capacity_fails (m : M) (buf ret_buffer0 : list byte)
  (k : nat) (stk : ParseState M) :
  well_formed cfg = true ->
  reply_array cfg ret_buffer0 ->
  (k < Z.to_nat (fst (ParseHeader cfg buf)))%nat ->
  ParseLoop cfg k buf (EnterLoop cfg m buf ret_buffer0) = Next stk ->
  MAX_IPC_SIZE cfg < buf_cnt stk + 5
  \/ (exists c, byte_at buf (buf_cnt stk) = label cfg c
                /\ MAX_IPC_SIZE cfg < buf_cnt stk + command_size c) ->
  size (reply (ParseCommand cfg true m buf ret_buffer0)) = 1
  /\ sent (reply (ParseCommand cfg true m buf ret_buffer0)) = [IPC_FAIL cfg].
Proof.
  intros Hwf Hret Hk Hst Hover.
  assert (Hsub : ParseSub cfg buf stk = Abort stk).
  { destruct Hover as [Hno|[c [Hop Hc]]].
    - now apply ParseSub_no_room.
    - rewrite (ParseSub_label cfg buf stk c Hwf Hop).
      assert (Hf : check cfg c stk = false)
        by (apply check_false; now left).
      now rewrite Hf. }
  pose proof (ParseLoop_abort cfg k _ buf _ stk stk Hk Hst Hsub) as Hloop.
  destruct (ParseCommand_failure cfg m buf ret_buffer0 stk Hwf Hret Hloop)
    as (Hsize & Hsent & _).
  split; assumption.
Qed.

End Protocol.

(** ** The protocol on the sample instance *)

Section SampleFacts.

Import Sample.

Lemma map_nth_seq (l : list byte) :
  map (fun k => nth k l Byte.x00) (seq 0 (length l)) = l.
Proof.
  induction l as [|b l IH]; [reflexivity|].
  cbn [length seq map nth]. f_equal.
  rewrite <- seq_shift, map_map. exact IH.
Qed.

Lemma load_store (n : nat) (a v : Z) (m : Memory) :
  fst (load n a (store n a v m)) = v mod 2 ^ (Z.of_nat n * 8).
Proof.
  unfold load, store. cbn [fst]. rewrite <- (le_combine_split n v).
  f_equal.
  transitivity (map (fun k => nth k (le_split n v) Byte.x00) (seq 0 n)).
  - apply map_ext_in. intros k Hk. apply in_seq in Hk.
    replace ((a <=? a + Z.of_nat k) && (a + Z.of_nat k <? a + Z.of_nat n))
      with true by (symmetry; apply andb_true_iff; split;
                    [apply Z.leb_le|apply Z.ltb_lt]; lia).
    f_equal. lia.
  - pose proof (map_nth_seq (le_split n v)) as H.
    now rewrite length_le_split in H.
Qed.

(** The flat memory has read-after-write semantics. *)
Lemma flat_memory_read_after_write : read_after_write (M := Memory).
Proof.
  intros T a v m _ Hv. unfold bits in Hv.
  destruct T; cbn [memRead memWrite flat_memory memRead8 memRead16 memRead32
                   memRead64 memWrite8 memWrite16 memWrite32 memWrite64];
    rewrite load_store; apply Z.mod_small; cbn [sizeof] in Hv;
    rewrite Z.mul_comm; exact Hv.
Qed.

(** C3 as stated fails. A second connection delivers only the three
    bytes of a batch header that declares one sub-command; no byte of that
    sub-command was received, so the batch reads past the received bytes.
    The dispatcher runs the Read8 that the first connection left in the
    buffer and answers with success and the byte read, not with the failure
    reply. *)
Lemma short_request_runs_stale_bytes :
  length (batch_header small 1) = 3%nat
  /\ ParseHeader small
       (read_portable small (m_ipc_buffer after_read8) (batch_header small 1))
     = (1, 3)
  /\ snd (Exchange small true after_read8 (Some (batch_header small 1)))
     = [Byte.x00; Byte.x37]
  /\ snd (Exchange small true after_read8 (Some (batch_header small 1)))
     <> [IPC_FAIL small].
Proof.
  split; [reflexivity|]. split; [vm_compute; reflexivity|].
  assert (E : snd (Exchange small true after_read8
                     (Some (batch_header small 1))) = [Byte.x00; Byte.x37])
    by (vm_compute; reflexivity).
  split; [exact E|]. rewrite E. discriminate.
Qed.

(** C4. The address is read before the bounds check. On the 32-byte request
    buffer holding [overrun_request], whose batch declares three
    sub-commands, the first two succeed and leave the request cursor at 29;
    the third iteration then reads its address from the bytes 30 to 33, of
    which 32 and 33 lie behind the array, before its check fails and the
    1-byte failure reply is returned. *)
Theorem speculative_address_read_overruns :
  request_array small overrun_request
  /\ fst (ParseHeader small overrun_request) = 3
  /\ ParseLoop small 2 overrun_request
       (EnterLoop small pattern overrun_request (filled 16 []))
     = Next after_two_write64
  /\ ~ address_read_in_bounds overrun_request after_two_write64
  /\ sent (reply (ParseCommand small true pattern overrun_request
                    (filled 16 []))) = [IPC_FAIL small].
Proof.
  split; [reflexivity|]. split; [vm_compute; reflexivity|].
  split; [vm_compute; reflexivity|]. split.
  - unfold address_read_in_bounds. vm_compute. intros H. now apply H.
  - vm_compute. reflexivity.
Qed.

(** The same overrun with a request buffer of 650000 bytes: the request is
    the header, 49999 Write64 and one Write8, which end at byte 649996; the
    next iteration reads its address from the bytes 649997 to 650000. *)
Lemma address_read_overruns_large (ret_buffer0 : list byte) :
  filler (MAX_IPC_SIZE large - 3) = repeat U64 (Z.to_nat 49999) ++ [U8]
  /\ request_array large (brim_request large)
  /\ exists (k : nat) (st : ParseState Memory),
       (k < Z.to_nat (fst (ParseHeader large (brim_request large))))%nat
       /\ ParseLoop large k (brim_request large)
            (EnterLoop large pattern (brim_request large) ret_buffer0)
          = Next st
       /\ ~ address_read_in_bounds (brim_request large) st.
Proof.
  split; [reflexivity|].
  apply address_read_overruns_any_capacity; [reflexivity|].
  cbn [MAX_IPC_SIZE large]. lia.
Qed.

(** C5 as stated fails. With the fourth header byte of the claim the
    request has 15 bytes and the dispatcher takes the pad byte for the first
    opcode. With a zero pad byte the reply has three bytes (two Read8, at
    [0x1000] and [0x1104]); and for no value of the pad byte are the calls
    a Read8 at [0x10] followed by a Write8 of [0x05] at [0x11]. *)
Lemma padded_batch_is_misparsed :
  length (padded_request Byte.x00) = 15%nat
  /\ sent (reply (ParseCommand small true pattern
                    (padded_request Byte.x00 ++ repeat Byte.x00 17)
                    (filled 16 [])))
     = [Byte.x00; Byte.x17; Byte.x24]
  /\ calls_made (ParseCommand small true pattern
                   (padded_request Byte.x00 ++ repeat Byte.x00 17)
                   (filled 16 []))
     = [CallRead U8 4096 23; CallRead U8 4356 36]
  /\ forallb (fun pad =>
                negb (read8_then_write8
                        (calls_made
                           (ParseCommand small true pattern
                              (padded_request pad ++ repeat Byte.x00 17)
                              (filled 16 [])))))
       all_bytes = true.
Proof. repeat split; vm_compute; reflexivity. Qed.

(** *** The theorems at concrete inputs *)

(** C2 on a Read8 request while the machine is not active. *)
Lemma inactive_machine_fails_witness :
  sent (reply (ParseCommand small false pattern
                 (filled 32 [0; 16; 0; 0; 0]) (filled 16 [])))
  = [IPC_FAIL small]
  /\ calls_made (ParseCommand small false pattern
                   (filled 32 [0; 16; 0; 0; 0]) (filled 16 [])) = [].
Proof.
  destruct (inactive_machine_fails small false pattern
              (filled 32 [0; 16; 0; 0; 0]) (filled 16 []))
    as (_ & Hsent & Hcalls & _).
  - reflexivity.
  - vm_compute. lia.
  - split; assumption.
Defined.

(** C10 on the request [[0xFF, 00 00]]. *)
Lemma empty_batch_succeeds_witness :
  sent (reply (ParseCommand small true pattern (filled 32 [255; 0; 0])
                 (filled 16 []))) = [IPC_OK small]
  /\ calls_made (ParseCommand small true pattern (filled 32 [255; 0; 0])
                   (filled 16 [])) = [].
Proof.
  destruct (empty_batch_succeeds small pattern (filled 32 [255; 0; 0])
              (filled 16 []))
    as (_ & Hsent & Hcalls & _).
  - vm_compute. lia.
  - reflexivity.
  - reflexivity.
  - split; assumption.
Defined.

(** C1 on [bad_batch]: the Write8 is made and stays, the opcode [0xFE]
    fails the batch. *)
Lemma failing_sub_command_aborts_witness :
  sent (reply (ParseCommand small true pattern bad_batch (filled 16 [])))
  = [IPC_FAIL small]
  /\ calls_made (ParseCommand small true pattern bad_batch (filled 16 []))
     = [CallWrite U8 17 5]
  /\ vm_after (ParseCommand small true pattern bad_batch (filled 16 []))
     = store 1 17 5 pattern.
Proof.
  destruct (failing_sub_command_aborts small pattern bad_batch (filled 16 [])
              1 after_write8)
    as (_ & Hsent & Hvm & Hcalls).
  - reflexivity.
  - reflexivity.
  - vm_compute. lia.
  - reflexivity.
  - left. intros [[]|[]]; discriminate.
  - repeat split; assumption.
Defined.

(** C3, amended, on [overrun_request]: the third sub-command starts at byte
    29 of 32. *)
Lemma batch_past_capacity_fails_witness :
  sent (reply (ParseCommand small true pattern overrun_request
                 (filled 16 []))) = [IPC_FAIL small].
Proof.
  destruct (batch_past_capacity_fails small pattern overrun_request
              (filled 16 []) 2 after_two_write64)
    as (_ & Hsent).
  - reflexivity.
  - reflexivity.
  - vm_compute. lia.
  - vm_compute. reflexivity.
  - left. vm_compute. reflexivity.
  - exact Hsent.
Defined.

(** C5, amended, in the 32-byte buffer. *)
Lemma batch_read8_write8_witness :
  sent (reply (ParseCommand small true pattern
                 (batch_header small 2 ++ read_request small U8 16
                    ++ write_request small U8 17 5 ++ repeat Byte.x00 18)
                 (filled 16 [])))
  = [IPC_OK small; byte.of_Z (fst (memRead8 16 pattern))].
Proof.
  destruct (batch_read8_write8 small pattern (repeat Byte.x00 18)
              (filled 16 []))
    as (_ & _ & Hsent & _).
  - reflexivity.
  - reflexivity.
  - vm_compute. discriminate.
  - vm_compute. discriminate.
  - exact Hsent.
Defined.

(** C6 on a Read16 at [0x10]: two reply bytes at the reply cursor 1. *)
Lemma sub_command_semantics_witness :
  ParseSub small (filled 32 [1; 16; 0; 0; 0])
    (EnterLoop small pattern (filled 32 [1; 16; 0; 0; 0]) (filled 16 []))
  = Next {| vm := pattern;
            ret_buffer := filled 16 [0; 55; 58];
            ret_cnt := 3;
            buf_cnt := 5;
            calls := [CallRead U16 16 14903] |}.
Proof.
  refine (proj1 (sub_command_semantics small U16 (filled 32 [1; 16; 0; 0; 0])
                   (EnterLoop small pattern (filled 32 [1; 16; 0; 0; 0])
                      (filled 16 []))
                   _ _ _) _).
  - reflexivity.
  - vm_compute. discriminate.
  - vm_compute. discriminate.
  - reflexivity.
Defined.

(** C8 for a Write32 of [0xDEADBEEF] at [0x1000] and a Read32 there, in one
    batch and over two connections. *)
Lemma write_then_read_returns_value_witness :
  sent (reply (ParseCommand small true pattern
                 (batch_header small 2
                    ++ write_request small U32 4096 3735928559
                    ++ read_request small U32 4096 ++ repeat Byte.x00 15)
                 (filled 16 [])))
  = [Byte.x00; Byte.xef; Byte.xbe; Byte.xad; Byte.xde]
  /\ snd (Exchange small true
            (fst (Exchange small true fresh
                    (Some (write_request small U32 4096 3735928559))))
            (Some (read_request small U32 4096)))
     = [Byte.x00; Byte.xef; Byte.xbe; Byte.xad; Byte.xde].
Proof.
  destruct (write_then_read_returns_value small (M := Memory) U32 4096
              3735928559)
    as (Hbatch & Htwo).
  - reflexivity.
  - exact flat_memory_read_after_write.
  - vm_compute. discriminate.
  - vm_compute. discriminate.
  - vm_compute. split; [discriminate|reflexivity].
  - vm_compute. split; [discriminate|reflexivity].
  - split.
    + exact (Hbatch pattern (repeat Byte.x00 15) (filled 16 []) eq_refl).
    + exact (proj2 (Htwo fresh eq_refl)).
Defined.

(** C9 on [overrun_request]: the cursors after two Write64, and the third
    sub-command ending the batch. *)
Lemma cursors_monotone_and_bounded_witness :
  ret_cnt (EnterLoop small pattern overrun_request (filled 16 [])) = 1
  /\ buf_cnt after_two_write64 <= MAX_IPC_SIZE small
  /\ ret_cnt after_two_write64 <= MAX_IPC_RETURN_SIZE small
  /\ BatchLoop small pattern overrun_request (filled 16 [])
     = Abort after_two_write64.
Proof.
  destruct (cursors_monotone_and_bounded small pattern overrun_request
              (filled 16 []))
    as (Hret & _ & _ & Hbound & Hover).
  - reflexivity.
  - split; [exact Hret|].
    destruct (Hbound 2%nat after_two_write64) as [Hb Hr].
    + vm_compute. lia.
    + vm_compute. reflexivity.
    + split; [exact Hb|]. split; [exact Hr|].
      refine (proj1 (Hover 2%nat after_two_write64 (Write U8) _ _ _ _)).
      * vm_compute. lia.
      * vm_compute. reflexivity.
      * reflexivity.
      * left. vm_compute. reflexivity.
Defined.

End SampleFacts.

(** ** Facade calls and the memory *)

Section Calls.

Variable cfg : IPCConfig.
Context {M : Type} {facade : MemoryFacade M}.

Lemma replay_app (cs cs' : list MemCall) (m : M) :
  replay (cs ++ cs') m = replay cs' (replay cs m).
Proof. unfold replay. apply fold_left_app. Qed.




(** The count of a batch header is a [u16]. *)
Lemma ParseHeader_range (buf : list byte) :
  0 <= fst (ParseHeader cfg buf) < 2 ^ 16.
Proof.
  unfold ParseHeader. destruct (Byte.eqb _ _); cbn [fst]; [|lia].
  unfold FromArray.
  pose proof (decode_bound (wire_order cfg)
                (bytes_at (fst (buf, 0)) (snd (buf, 0) + 1) (sizeof U16)))
    as Hb.
  rewrite length_bytes_at in Hb. exact Hb.
Qed.


End Calls.

(** ** The reply and the reply buffer *)

Section ReplyBuffer.

Variable cfg : IPCConfig.
Context {M : Type} {facade : MemoryFacade M}.

Lemma skipn_memcpy_at (dst src : list byte) (i : Z) (n : nat) :
  0 <= i -> i + Z.of_nat (length src) <= Z.of_nat (length dst) ->
  i + Z.of_nat (length src) <= Z.of_nat n ->
  skipn n (memcpy_at dst i src) = skipn n dst.
Proof.
  intros Hi Hlen Hn. unfold memcpy_at. rewrite app_assoc, skipn_app.
  rewrite (skipn_all2 (firstn (Z.to_nat i) dst ++ src))
    by (rewrite length_app, length_firstn; lia).
  rewrite length_app, length_firstn, skipn_skipn. cbn [app]. f_equal. lia.
Qed.

Lemma skipn_set_first (dst : list byte) (b : byte) (n : nat) :
  (1 <= n)%nat -> skipn n (set_first dst b) = skipn n dst.
Proof.
  intros Hn. destruct dst as [|x dst]; [reflexivity|].
  destruct n as [|n]; [lia|]. reflexivity.
Qed.

(** An iteration stores nothing at or behind the reply cursor it leaves. *)
Lemma ParseSub_reply_tail (buf : list byte) (st st' : ParseState M)
  (n : nat) :
  well_formed cfg = true -> cursors_in_range cfg st -> reply_so_far cfg st ->
  ParseSub cfg buf st = Next st' -> ret_cnt st' <= Z.of_nat n ->
  skipn n (ret_buffer st') = skipn n (ret_buffer st).
Proof.
  intros Hwf (Hb & Hr) (Hlen & _) Hs Hn.
  destruct (ParseSub_cases cfg buf st) as [Ha|[c [Hc Hnext]]]; [congruence|].
  rewrite Hnext in Hs. injection Hs as <-.
  destruct (run_cursors cfg c buf st Hwf Hb ltac:(lia) Hc) as [_ Er].
  rewrite Er in Hn. apply check_true in Hc. destruct Hc as [_ Hc].
  destruct c as [T|T].
  - rewrite run_Read. cbv zeta. cbn [ret_buffer reply_size] in *.
    unfold ToArray. apply skipn_memcpy_at; rewrite ?length_encode; lia.
  - reflexivity.
Qed.

Lemma ParseLoop_reply_tail (k : nat) (buf : list byte)
  (st st' : ParseState M) (n : nat) :
  well_formed cfg = true -> cursors_in_range cfg st -> reply_so_far cfg st ->
  ParseLoop cfg k buf st = Next st' -> ret_cnt st' <= Z.of_nat n ->
  skipn n (ret_buffer st') = skipn n (ret_buffer st).
Proof.
  intros Hwf. revert st. induction k as [|k IH]; intros st Hin Hrep Hk Hn.
  - cbn in Hk. now injection Hk as <-.
  - cbn [ParseLoop] in Hk.
    destruct (ParseSub cfg buf st) as [s|s] eqn:Es; [|discriminate].
    destruct (ParseSub_cursors cfg buf st s Hwf Hin Es) as (Hin' & _ & _).
    pose proof (ParseSub_reply cfg buf st s Hwf Hin Hrep Es) as Hrep'.
    destruct (ParseLoop_cursors cfg k buf s st' Hwf Hin' Hk) as (_ & _ & Hr & _).
    rewrite (IH s Hin' Hrep' Hk Hn).
    apply (ParseSub_reply_tail buf st s n Hwf Hin Hrep Es). lia.
Qed.

(** One iteration on two states that differ in the content of the reply
    buffer only ends the same way, in two such states. *)
Lemma ParseSub_same_but_reply (buf : list byte) (st st' : ParseState M) :
  same_but_reply st st' ->
  match ParseSub cfg buf st, ParseSub cfg buf st' with
  | Next s, Next s' => same_but_reply s s'
  | Abort s, Abort s' => same_but_reply s s'
  | _, _ => False
  end.
Proof.
  destruct st as [m r rc bc cs], st' as [m' r' rc' bc' cs'].
  unfold same_but_reply. cbn [vm ret_cnt buf_cnt calls].
  intros (<- & <- & <- & <-). unfold ParseSub. cbn [vm ret_cnt buf_cnt calls].
  repeat match goal with
         | |- context [Byte.eqb ?a ?b] => destruct (Byte.eqb a b)
         end;
    try (cbn [vm ret_cnt buf_cnt calls]; repeat split; reflexivity);
    match goal with
    | |- context [SafetyChecks cfg ?c ?n ?x ?k] =>
        destruct (SafetyChecks cfg c n x k)
    end; cbn [negb vm ret_cnt buf_cnt calls];
    try (repeat split; reflexivity);
    unfold read_case, write_case; cbn [vm ret_cnt buf_cnt calls ret_buffer];
    try match goal with
        | |- context [memRead ?T ?a ?x] => destruct (memRead T a x)
        end;
    cbn [vm ret_cnt buf_cnt calls]; repeat split; reflexivity.
Qed.

Lemma ParseLoop_same_but_reply (n : nat) (buf : list byte)
  (st st' : ParseState M) :
  same_but_reply st st' ->
  match ParseLoop cfg n buf st, ParseLoop cfg n buf st' with
  | Next s, Next s' => same_but_reply s s'
  | Abort s, Abort s' => same_but_reply s s'
  | _, _ => False
  end.
Proof.
  revert st st'. induction n as [|n IH]; intros st st' Hsame.
  - exact Hsame.
  - cbn [ParseLoop]. pose proof (ParseSub_same_but_reply buf st st' Hsame) as H.
    destruct (ParseSub cfg buf st) as [s|s], (ParseSub cfg buf st') as [s'|s'];
      try contradiction; [now apply IH|exact H].
Qed.

(** The shape of every reply, and the reply buffer after it. *)
Lemma ParseCommand_well_shaped (HasActiveMachine : bool) (m : M)
  (buf ret_buffer0 : list byte) :
  well_formed cfg = true ->
  reply_array cfg ret_buffer0 ->
  well_shaped cfg (sent (reply (ParseCommand cfg HasActiveMachine m buf
                                  ret_buffer0)))
  /\ Z.of_nat (length (sent (reply (ParseCommand cfg HasActiveMachine m buf
                                      ret_buffer0))))
     = size (reply (ParseCommand cfg HasActiveMachine m buf ret_buffer0))
  /\ reply_array cfg
       (buffer (reply (ParseCommand cfg HasActiveMachine m buf ret_buffer0))).
Proof.
  intros Hwf Hret.
  destruct (well_formed_sizes cfg Hwf) as (_ & _ & Hrmax).
  destruct (EnterLoop_cursors cfg m buf ret_buffer0 Hwf) as [Hin _].
  pose proof (EnterLoop_reply cfg m buf ret_buffer0 Hret) as Hrep.
  assert (Hfail : forall r : list byte,
             reply_array cfg r ->
             well_shaped cfg (sent {| size := 1; buffer := MakeFailIPC cfg r |})
             /\ Z.of_nat (length (sent {| size := 1;
                                          buffer := MakeFailIPC cfg r |})) = 1
             /\ reply_array cfg (MakeFailIPC cfg r)).
  { intros r Hr. unfold reply_array in *.
    rewrite sent_fail by lia. unfold well_shaped, MakeFailIPC.
    rewrite length_set_first. cbn [length]. repeat split; auto; lia. }
  destruct HasActiveMachine.
  - destruct (BatchLoop cfg m buf ret_buffer0) as [st|e] eqn:Hl.
    + destruct (ParseCommand_success cfg m buf ret_buffer0 st Hwf Hret Hl)
        as (Hsize & Hsent & _ & _ & Hlen).
      destruct (ParseLoop_cursors cfg _ buf _ st Hwf Hin Hl) as ((_ & Hr) & _).
      assert (Hn : Z.of_nat (length (sent (reply (ParseCommand cfg true m buf
                                                    ret_buffer0))))
                   = ret_cnt st).
      { unfold sent. rewrite length_firstn, Hsize. lia. }
      split; [|split; [congruence|exact Hlen]].
      split; [right; eexists; exact Hsent|]. rewrite Hn. lia.
    + rewrite (ParseCommand_abort cfg m buf ret_buffer0 e Hl). cbn [reply size].
      apply Hfail.
      destruct (ParseLoop_abort_reached cfg _ buf _ e Hl) as (k & _ & Hk).
      apply (ParseLoop_reply cfg k buf _ e Hwf Hin Hrep Hk).
  - unfold ParseCommand. cbn [negb reply size]. now apply Hfail.
Qed.

(** X1. Whatever the request is, the reply of [ParseCommand] is the failure
    status alone or the success status followed by a payload; it has as many
    bytes as the returned size says, at least 1 and at most
    [MAX_IPC_RETURN_SIZE]; and the reply buffer is still the array of
    [MAX_IPC_RETURN_SIZE] bytes. *)
Theorem reply_is_well_shaped (HasActiveMachine : bool) (m : M)
  (buf ret_buffer0 : list byte) :
  well_formed cfg = true ->
  reply_array cfg ret_buffer0 ->
  well_shaped cfg (sent (reply (ParseCommand cfg HasActiveMachine m buf
                                  ret_buffer0)))
  /\ Z.of_nat (length (sent (reply (ParseCommand cfg HasActiveMachine m buf
                                      ret_buffer0))))
     = size (reply (ParseCommand cfg HasActiveMachine m buf ret_buffer0))
  /\ reply_array cfg
       (buffer (reply (ParseCommand cfg HasActiveMachine m buf ret_buffer0))).
Proof. apply ParseCommand_well_shaped. Qed.

(** X3. The reply does not depend on what the reply buffer held before:
    with two reply arrays of any content, [ParseCommand] sends the same
    bytes, makes the same calls and leaves the same memory. Bytes of an
    earlier reply never reach a later one. *)
Theorem reply_ignores_old_reply_buffer (HasActiveMachine : bool) (m : M)
  (buf ret_buffer0 ret_buffer1 : list byte) :
  well_formed cfg = true ->
  reply_array cfg ret_buffer0 -> reply_array cfg ret_buffer1 ->
  sent (reply (ParseCommand cfg HasActiveMachine m buf ret_buffer0))
  = sent (reply (ParseCommand cfg HasActiveMachine m buf ret_buffer1))
  /\ calls_made (ParseCommand cfg HasActiveMachine m buf ret_buffer0)
     = calls_made (ParseCommand cfg HasActiveMachine m buf ret_buffer1)
  /\ vm_after (ParseCommand cfg HasActiveMachine m buf ret_buffer0)
     = vm_after (ParseCommand cfg HasActiveMachine m buf ret_buffer1).
Proof.
  intros Hwf Hret0 Hret1.
  destruct (well_formed_sizes cfg Hwf) as (_ & _ & Hrmax).
  destruct HasActiveMachine.
  - assert (Hsame : same_but_reply (EnterLoop cfg m buf ret_buffer0)
                      (EnterLoop cfg m buf ret_buffer1))
      by (repeat split).
    pose proof (ParseLoop_same_but_reply
                  (Z.to_nat (fst (ParseHeader cfg buf))) buf _ _ Hsame) as H.
    fold (BatchLoop cfg m buf ret_buffer0) in H.
    fold (BatchLoop cfg m buf ret_buffer1) in H.
    destruct (BatchLoop cfg m buf ret_buffer0) as [s|s] eqn:H0,
             (BatchLoop cfg m buf ret_buffer1) as [s'|s'] eqn:H1;
      try contradiction; destruct H as (Hvm & _ & _ & Hcalls).
    + destruct (ParseCommand_success cfg m buf ret_buffer0 s Hwf Hret0 H0)
        as (_ & -> & -> & -> & _).
      destruct (ParseCommand_success cfg m buf ret_buffer1 s' Hwf Hret1 H1)
        as (_ & -> & -> & -> & _).
      rewrite Hvm, Hcalls. repeat split.
    + destruct (ParseCommand_failure cfg m buf ret_buffer0 s Hwf Hret0 H0)
        as (_ & -> & -> & ->).
      destruct (ParseCommand_failure cfg m buf ret_buffer1 s' Hwf Hret1 H1)
        as (_ & -> & -> & ->).
      rewrite Hvm, Hcalls. repeat split.
  - unfold ParseCommand. cbn [negb reply calls_made vm_after].
    unfold reply_array in *. rewrite !sent_fail by lia. repeat split.
Qed.

(** X4. [ParseCommand] stores nothing behind the reply it returns: when the
    batch completes, the bytes of the reply buffer from the returned size on
    are the ones the buffer held before. *)
Theorem reply_buffer_tail_is_kept (m : M) (buf ret_buffer0 : list byte) :
  well_formed cfg = true ->
  reply_array cfg ret_buffer0 ->
  hd_error (sent (reply (ParseCommand cfg true m buf ret_buffer0)))
  = Some (IPC_OK cfg) ->
  skipn (Z.to_nat (size (reply (ParseCommand cfg true m buf ret_buffer0))))
    (buffer (reply (ParseCommand cfg true m buf ret_buffer0)))
  = skipn (Z.to_nat (size (reply (ParseCommand cfg true m buf ret_buffer0))))
      ret_buffer0.
Proof.
  intros Hwf Hret Hok.
  destruct (well_formed_sizes cfg Hwf) as (Hne & _ & Hrmax).
  destruct (EnterLoop_cursors cfg m buf ret_buffer0 Hwf) as [Hin _].
  pose proof (EnterLoop_reply cfg m buf ret_buffer0 Hret) as Hrep.
  destruct (BatchLoop cfg m buf ret_buffer0) as [st|e] eqn:Hl.
  - destruct (ParseLoop_cursors cfg _ buf _ st Hwf Hin Hl) as ((_ & Hr) & _).
    rewrite (ParseCommand_next cfg m buf ret_buffer0 st Hl).
    cbn [reply size buffer]. rewrite to_int_small by lia.
    unfold MakeOkIPC. rewrite skipn_set_first by lia.
    apply (ParseLoop_reply_tail _ buf _ st _ Hwf Hin Hrep Hl). lia.
  - destruct (ParseCommand_failure cfg m buf ret_buffer0 e Hwf Hret Hl)
      as (_ & Hsent & _).
    rewrite Hsent in Hok. cbn [hd_error] in Hok. injection Hok as Hok.
    congruence.
Qed.

End ReplyBuffer.

(** ** Batches of commands *)

Section BatchFacts.

Variable cfg : IPCConfig.
Context {M : Type} {facade : MemoryFacade M}.

Lemma request_bytes_app (l l' : list request_cmd) :
  request_bytes (l ++ l') = request_bytes l + request_bytes l'.
Proof. induction l as [|c l IH]; cbn [app request_bytes]; lia. Qed.

Lemma reply_bytes_app (l l' : list request_cmd) :
  reply_bytes (l ++ l') = reply_bytes l + reply_bytes l'.
Proof. induction l as [|c l IH]; cbn [app reply_bytes]; lia. Qed.

Lemma request_bytes_nonneg (l : list request_cmd) : 0 <= request_bytes l.
Proof.
  induction l as [|c l IH]; cbn [request_bytes]; [lia|].
  pose proof (command_size_range (operation c)). lia.
Qed.

Lemma reply_bytes_nonneg (l : list request_cmd) : 0 <= reply_bytes l.
Proof.
  induction l as [|c l IH]; cbn [reply_bytes]; [lia|].
  pose proof (reply_size_range (operation c)). lia.
Qed.

Lemma length_cmd_bytes (c : request_cmd) :
  Z.of_nat (length (cmd_bytes cfg c)) = command_size (operation c).
Proof.
  destruct c as [T a|T a v]; cbn [cmd_bytes operation command_size].
  - apply length_read_request.
  - apply length_write_request.
Qed.

Lemma length_cmds_bytes (l : list request_cmd) :
  Z.of_nat (length (cmds_bytes cfg l)) = request_bytes l.
Proof.
  induction l as [|c l IH]; [reflexivity|].
  cbn [cmds_bytes flat_map request_bytes]. fold (cmds_bytes cfg l).
  rewrite length_app, Nat2Z.inj_add, length_cmd_bytes. lia.
Qed.

Lemma cmds_bytes_app (l l' : list request_cmd) :
  cmds_bytes cfg (l ++ l') = cmds_bytes cfg l ++ cmds_bytes cfg l'.
Proof. unfold cmds_bytes. apply flat_map_app. Qed.

Lemma perform_all_cons (c : request_cmd) (l : list request_cmd) (m : M) :
  perform_all (c :: l) m
  = (fst (perform c m) :: fst (perform_all l (snd (perform c m))),
     snd (perform_all l (snd (perform c m)))).
Proof.
  cbn [perform_all]. destruct (perform c m) as [call m1]. cbn [fst snd].
  now destruct (perform_all l m1).
Qed.

Lemma perform_all_app (l l' : list request_cmd) (m : M) :
  perform_all (l ++ l') m
  = (fst (perform_all l m) ++ fst (perform_all l' (snd (perform_all l m))),
     snd (perform_all l' (snd (perform_all l m)))).
Proof.
  revert m. induction l as [|c l IH]; intros m.
  - cbn [app perform_all fst snd]. now destruct (perform_all l' m).
  - cbn [app]. rewrite !perform_all_cons, IH. reflexivity.
Qed.

(** The calls of a list of sub-commands made again give the memory the
    list leaves. *)
Lemma replay_perform_all (l : list request_cmd) (m : M) :
  replay (fst (perform_all l m)) m = snd (perform_all l m).
Proof.
  revert m. induction l as [|c l IH]; intros m; [reflexivity|].
  rewrite perform_all_cons. cbn [fst snd]. unfold replay. cbn [fold_left].
  fold (replay (fst (perform_all l (snd (perform c m))))).
  replace (replay_call (fst (perform c m)) m) with (snd (perform c m))
    by (destruct c; reflexivity).
  apply IH.
Qed.

(** A sub-command at the cursor whose check passes is performed. *)
Lemma ParseSub_cmd (c : request_cmd) (pre rest : list byte)
  (st : ParseState M) :
  well_formed cfg = true -> in_range c ->
  buf_cnt st = Z.of_nat (length pre) -> 0 <= ret_cnt st ->
  check cfg (operation c) st = true ->
  exists st',
    ParseSub cfg (pre ++ cmd_bytes cfg c ++ rest) st = Next st'
    /\ vm st' = snd (perform c (vm st))
    /\ calls st' = calls st ++ [fst (perform c (vm st))]
    /\ buf_cnt st' = Z.of_nat (length (pre ++ cmd_bytes cfg c))
    /\ ret_cnt st' = ret_cnt st + reply_size (operation c).
Proof.
  intros Hwf Hc Hb Hr Hcheck. apply check_true in Hcheck.
  destruct c as [T a|T a v]; cbn [operation command_size reply_size] in *.
  - eexists. split.
    + cbn [cmd_bytes]. apply ParseSub_read_request; try assumption; lia.
    + cbn [vm calls buf_cnt ret_cnt perform fst snd cmd_bytes].
      repeat split.
  - destruct Hc as [Ha Hv]. eexists. split.
    + cbn [cmd_bytes]. apply ParseSub_write_request; try assumption; lia.
    + cbn [vm calls buf_cnt ret_cnt perform fst snd cmd_bytes].
      repeat split. lia.
Qed.

(** A sub-command at the cursor whose check fails jumps to [error]. *)
Lemma ParseSub_cmd_fails (c : request_cmd) (pre rest : list byte)
  (st : ParseState M) :
  well_formed cfg = true -> in_range c ->
  buf_cnt st = Z.of_nat (length pre) ->
  check cfg (operation c) st = false ->
  ParseSub cfg (pre ++ cmd_bytes cfg c ++ rest) st = Abort st.
Proof.
  intros Hwf Hc Hb Hcheck.
  assert (Hop : byte_at (pre ++ cmd_bytes cfg c ++ rest) (buf_cnt st)
                = label cfg (operation c)).
  { rewrite Hb. destruct c as [T a|T a v]; cbn [cmd_bytes operation].
    - apply (read_request_fields cfg T a pre rest Hc).
    - destruct Hc as [Ha Hv].
      apply (write_request_fields cfg T a v pre rest Ha Hv). }
  now rewrite (ParseSub_label cfg _ st _ Hwf Hop), Hcheck.
Qed.

(** Sub-commands laid out one after the other, with room for all of them
    in both buffers, are performed in order. *)
Lemma ParseLoop_cmds (l : list request_cmd) :
  well_formed cfg = true -> Forall in_range l ->
  forall (pre rest : list byte) (st : ParseState M),
    buf_cnt st = Z.of_nat (length pre) -> 0 <= ret_cnt st ->
    Z.of_nat (length pre) + request_bytes l <= MAX_IPC_SIZE cfg ->
    ret_cnt st + reply_bytes l <= MAX_IPC_RETURN_SIZE cfg ->
    exists st',
      ParseLoop cfg (length l) (pre ++ cmds_bytes cfg l ++ rest) st = Next st'
      /\ vm st' = snd (perform_all l (vm st))
      /\ calls st' = calls st ++ fst (perform_all l (vm st))
      /\ buf_cnt st' = Z.of_nat (length (pre ++ cmds_bytes cfg l))
      /\ ret_cnt st' = ret_cnt st + reply_bytes l.
Proof.
  intros Hwf Hall. induction Hall as [|c l Hc Hall IH];
    intros pre rest st Hb Hr Hroom Hrroom.
  - exists st. cbn [cmds_bytes flat_map perform_all fst snd reply_bytes length
                    ParseLoop].
    rewrite !app_nil_r. repeat split; lia.
  - cbn [request_bytes reply_bytes] in Hroom, Hrroom.
    pose proof (request_bytes_nonneg l) as Hl.
    pose proof (reply_bytes_nonneg l) as Hl'.
    pose proof (command_size_range (operation c)) as Hcs.
    pose proof (reply_size_range (operation c)) as Hrs.
    assert (Hcheck : check cfg (operation c) st = true)
      by (apply check_true; lia).
    cbn [cmds_bytes flat_map length ParseLoop]. fold (cmds_bytes cfg l).
    rewrite <- app_assoc.
    destruct (ParseSub_cmd c pre (cmds_bytes cfg l ++ rest) st Hwf Hc Hb Hr
                Hcheck) as (s1 & Hs1 & Hvm1 & Hcalls1 & Hb1 & Hr1).
    rewrite Hs1.
    replace (pre ++ cmd_bytes cfg c ++ cmds_bytes cfg l ++ rest)
      with ((pre ++ cmd_bytes cfg c) ++ cmds_bytes cfg l ++ rest)
      by (now rewrite <- app_assoc).
    destruct (IH (pre ++ cmd_bytes cfg c) rest s1 Hb1 ltac:(lia))
      as (st' & Hst' & Hvm & Hcalls & Hb' & Hr').
    + rewrite length_app, Nat2Z.inj_add, length_cmd_bytes. lia.
    + lia.
    + exists st'. split; [exact Hst'|].
      rewrite perform_all_cons. cbn [fst snd].
      rewrite Hvm, Hcalls, Hb', Hr', Hvm1, Hcalls1, Hr1.
      split; [reflexivity|]. split; [now rewrite <- app_assoc|].
      split; [now rewrite <- app_assoc|]. cbn [reply_bytes]. lia.
Qed.

(** The dispatcher runs on the received bytes followed by other bytes, also
    when more bytes arrive than the buffer holds. *)
Lemma Exchange_dispatch (active : bool) (s : Session M) (d : list byte) :
  well_formed cfg = true -> 3 <= MAX_IPC_SIZE cfg ->
  request_array cfg (m_ipc_buffer s) ->
  exists rest,
    snd (Exchange cfg active s (Some d))
    = sent (reply (ParseCommand cfg active (machine s) (d ++ rest)
                     (m_ret_buffer s)))
    /\ machine (fst (Exchange cfg active s (Some d)))
       = vm_after (ParseCommand cfg active (machine s) (d ++ rest)
                     (m_ret_buffer s))
    /\ m_ret_buffer (fst (Exchange cfg active s (Some d)))
       = buffer (reply (ParseCommand cfg active (machine s) (d ++ rest)
                          (m_ret_buffer s)))
    /\ request_array cfg (m_ipc_buffer (fst (Exchange cfg active s (Some d)))).
Proof.
  intros Hwf H3 Hreq. unfold request_array in Hreq.
  cbn [Exchange fst snd m_ipc_buffer m_ret_buffer machine].
  assert (Hlen : request_array cfg (read_portable cfg (m_ipc_buffer s) d)).
  { unfold request_array, read_portable.
    rewrite length_app, length_skipn, length_firstn. lia. }
  destruct (Z_le_gt_dec (Z.of_nat (length d)) (MAX_IPC_SIZE cfg)) as [Hd|Hd].
  - exists (skipn (length d) (m_ipc_buffer s)).
    rewrite <- (read_portable_short cfg (m_ipc_buffer s) d Hd).
    repeat split. exact Hlen.
  - exists [].
    assert (Hbuf : read_portable cfg (m_ipc_buffer s) d
                   = firstn (Z.to_nat (MAX_IPC_SIZE cfg)) d).
    { unfold read_portable. rewrite skipn_all2, app_nil_r; [reflexivity|].
      rewrite length_firstn. lia. }
    rewrite app_nil_r.
    rewrite <- (firstn_skipn (Z.to_nat (MAX_IPC_SIZE cfg)) d) at 2 4 6.
    rewrite ParseCommand_beyond_capacity; try assumption.
    + rewrite <- Hbuf. repeat split. exact Hlen.
    + rewrite <- Hbuf. exact Hlen.
Qed.

End BatchFacts.

(** ** What a client gets for a batch *)

Section BatchReplies.

Variable cfg : IPCConfig.
Context {M : Type} {facade : MemoryFacade M}.

(** A batch that fits is performed whole. *)
Lemma ParseCommand_batch (l : list request_cmd) (m : M)
  (rest ret_buffer0 : list byte) :
  well_formed cfg = true -> reply_array cfg ret_buffer0 ->
  Forall in_range l -> Z.of_nat (length l) < 2 ^ 16 -> fits cfg l ->
  sent (reply (ParseCommand cfg true m (batch_request cfg l ++ rest)
                 ret_buffer0))
  = IPC_OK cfg :: payload cfg (fst (perform_all l m))
  /\ vm_after (ParseCommand cfg true m (batch_request cfg l ++ rest)
                 ret_buffer0) = snd (perform_all l m)
  /\ calls_made (ParseCommand cfg true m (batch_request cfg l ++ rest)
                   ret_buffer0) = fst (perform_all l m)
  /\ reply_array cfg
       (buffer (reply (ParseCommand cfg true m (batch_request cfg l ++ rest)
                         ret_buffer0))).
Proof.
  intros Hwf Hret Hall Hlen [Hroom Hrroom].
  unfold batch_request. rewrite <- app_assoc.
  set (buf := batch_header cfg (Z.of_nat (length l))
                ++ cmds_bytes cfg l ++ rest).
  assert (Hh : ParseHeader cfg buf = (Z.of_nat (length l), 3))
    by (apply ParseHeader_batch; lia).
  pose proof (length_batch_header cfg (Z.of_nat (length l))) as Hlh.
  destruct (ParseLoop_cmds cfg l Hwf Hall
              (batch_header cfg (Z.of_nat (length l))) rest
              (EnterLoop cfg m buf ret_buffer0))
    as (st & Hst & Hvm & Hcalls & _ & _).
  - unfold EnterLoop. cbn [buf_cnt]. now rewrite Hh, Hlh.
  - cbn [EnterLoop ret_cnt]. lia.
  - lia.
  - cbn [EnterLoop ret_cnt]. lia.
  - assert (Hloop : BatchLoop cfg m buf ret_buffer0 = Next st).
    { unfold BatchLoop. rewrite Hh. cbn [fst]. now rewrite Nat2Z.id. }
    destruct (ParseCommand_success cfg m buf ret_buffer0 st Hwf Hret Hloop)
      as (_ & Hsent & Hvm' & Hcalls' & Hbuf).
    cbn [EnterLoop vm calls app] in Hvm, Hcalls.
    rewrite Hsent, Hvm', Hcalls', Hvm, Hcalls. repeat split. exact Hbuf.
Qed.

(** A batch whose sub-command [c] is the first that does not fit is
    performed up to [c] and fails there. *)
Lemma ParseCommand_batch_stops (l1 l2 : list request_cmd) (c : request_cmd)
  (m : M) (rest ret_buffer0 : list byte) :
  well_formed cfg = true -> reply_array cfg ret_buffer0 ->
  Forall in_range l1 -> in_range c ->
  Z.of_nat (length (l1 ++ c :: l2)) < 2 ^ 16 ->
  fits cfg l1 -> ~ fits cfg (l1 ++ [c]) ->
  sent (reply (ParseCommand cfg true m
                 (batch_request cfg (l1 ++ c :: l2) ++ rest) ret_buffer0))
  = [IPC_FAIL cfg]
  /\ vm_after (ParseCommand cfg true m
                 (batch_request cfg (l1 ++ c :: l2) ++ rest) ret_buffer0)
     = snd (perform_all l1 m)
  /\ calls_made (ParseCommand cfg true m
                   (batch_request cfg (l1 ++ c :: l2) ++ rest) ret_buffer0)
     = fst (perform_all l1 m).
Proof.
  intros Hwf Hret Hall Hc Hlen [Hroom Hrroom] Hmisfit.
  unfold batch_request. rewrite <- app_assoc, cmds_bytes_app.
  cbn [cmds_bytes flat_map]. fold (cmds_bytes cfg l2).
  rewrite <- !app_assoc.
  set (n := Z.of_nat (length (l1 ++ c :: l2))) in *.
  set (tail := cmd_bytes cfg c ++ cmds_bytes cfg l2 ++ rest).
  set (buf := batch_header cfg n ++ cmds_bytes cfg l1 ++ tail).
  assert (Hh : ParseHeader cfg buf = (n, 3))
    by (apply ParseHeader_batch; unfold n; lia).
  pose proof (length_batch_header cfg n) as Hlh.
  destruct (ParseLoop_cmds cfg l1 Hwf Hall (batch_header cfg n) tail
              (EnterLoop cfg m buf ret_buffer0))
    as (st & Hst & Hvm & Hcalls & Hb & Hr).
  - unfold EnterLoop. cbn [buf_cnt]. now rewrite Hh, Hlh.
  - cbn [EnterLoop ret_cnt]. lia.
  - lia.
  - cbn [EnterLoop ret_cnt]. lia.
  - cbn [EnterLoop vm calls ret_cnt app] in Hvm, Hcalls, Hr.
    assert (Hcheck : check cfg (operation c) st = false).
    { apply check_false. rewrite Hb, Hr, length_app, Nat2Z.inj_add, Hlh,
        length_cmds_bytes.
      unfold fits in Hmisfit. rewrite request_bytes_app, reply_bytes_app in Hmisfit.
      cbn [request_bytes reply_bytes] in Hmisfit. lia. }
    assert (Hsub : ParseSub cfg buf st = Abort st).
    { unfold buf, tail. rewrite app_assoc.
      apply ParseSub_cmd_fails; try assumption. }
    assert (Hloop : BatchLoop cfg m buf ret_buffer0 = Abort st).
    { unfold BatchLoop. rewrite Hh. cbn [fst]. unfold n. rewrite Nat2Z.id.
      apply (ParseLoop_abort cfg (length l1) _ buf _ st st); try assumption.
      rewrite length_app. cbn [length]. lia. }
    destruct (ParseCommand_failure cfg m buf ret_buffer0 st Hwf Hret Hloop)
      as (_ & Hsent & Hvm' & Hcalls').
    rewrite Hsent, Hvm', Hcalls', Hvm, Hcalls. repeat split.
Qed.

(** A request of one sub-command without the batch header. *)
Lemma ParseCommand_single (c : request_cmd) (m : M)
  (rest ret_buffer0 : list byte) :
  well_formed cfg = true -> reply_array cfg ret_buffer0 -> in_range c ->
  command_size (operation c) <= MAX_IPC_SIZE cfg ->
  1 + reply_size (operation c) <= MAX_IPC_RETURN_SIZE cfg ->
  sent (reply (ParseCommand cfg true m (cmd_bytes cfg c ++ rest) ret_buffer0))
  = IPC_OK cfg :: payload cfg [fst (perform c m)]
  /\ vm_after (ParseCommand cfg true m (cmd_bytes cfg c ++ rest) ret_buffer0)
     = snd (perform c m).
Proof.
  intros Hwf Hret Hc Hroom Hrroom.
  destruct (well_formed_labels cfg Hwf) as [_ Hmulti].
  set (buf := cmd_bytes cfg c ++ rest).
  assert (Hh : ParseHeader cfg buf = (1, 0)).
  { apply ParseHeader_single. unfold buf.
    destruct c as [T a|T a v]; cbn [cmd_bytes]; apply Hmulti. }
  destruct (ParseLoop_cmds cfg [c] Hwf (Forall_cons c Hc (Forall_nil _))
              [] rest (EnterLoop cfg m buf ret_buffer0))
    as (st & Hst & Hvm & Hcalls & _ & _).
  - unfold EnterLoop. cbn [buf_cnt]. now rewrite Hh.
  - cbn [EnterLoop ret_cnt]. lia.
  - cbn [length request_bytes]. lia.
  - cbn [EnterLoop ret_cnt reply_bytes]. lia.
  - assert (Hloop : BatchLoop cfg m buf ret_buffer0 = Next st).
    { unfold BatchLoop. rewrite Hh. cbn [fst]. change (Z.to_nat 1) with 1%nat.
      cbn [cmds_bytes flat_map app length] in Hst.
      rewrite app_nil_r in Hst. exact Hst. }
    destruct (ParseCommand_success cfg m buf ret_buffer0 st Hwf Hret Hloop)
      as (_ & Hsent & Hvm' & _).
    cbn [EnterLoop vm calls app] in Hvm, Hcalls.
    rewrite perform_all_cons in Hvm, Hcalls. cbn [perform_all fst snd] in *.
    rewrite Hsent, Hvm', Hvm, Hcalls. split; reflexivity.
Qed.

Lemma length_batch_request (l : list request_cmd) :
  Z.of_nat (length (batch_request cfg l)) = 3 + request_bytes l.
Proof.
  unfold batch_request.
  now rewrite length_app, Nat2Z.inj_add, length_batch_header,
    length_cmds_bytes.
Qed.

(** X6. A client that sends a batch of sub-commands with addresses and
    values in range, in number below 65536, that fits the two buffers gets
    the success status followed by the values of the reads in the order of
    the batch, and the memory is the one that the sub-commands leave when
    performed in that order. *)
Theorem batch_is_performed_in_order (s : Session M) (l : list request_cmd) :
  well_formed cfg = true ->
  reply_array cfg (m_ret_buffer s) ->
  Forall in_range l -> Z.of_nat (length l) < 2 ^ 16 -> fits cfg l ->
  snd (Exchange cfg true s (Some (batch_request cfg l)))
  = IPC_OK cfg :: payload cfg (fst (perform_all l (machine s)))
  /\ machine (fst (Exchange cfg true s (Some (batch_request cfg l))))
     = snd (perform_all l (machine s)).
Proof.
  intros Hwf Hret Hall Hlen Hfits. cbn [Exchange fst snd machine].
  rewrite read_portable_short
    by (rewrite length_batch_request; destruct Hfits; lia).
  destruct (ParseCommand_batch l (machine s)
              (skipn (length (batch_request cfg l)) (m_ipc_buffer s))
              (m_ret_buffer s) Hwf Hret Hall Hlen Hfits)
    as (Hsent & Hvm & _).
  split; assumption.
Qed.

(** X7. A batch fails at the first sub-command that does not fit, not
    before: when the sub-commands [l1] fit and [l1] followed by [c] does
    not, the reply to a batch that starts with [l1] and [c] is the failure
    status alone, and the memory is the one that [l1] leaves. This holds
    also when the request is longer than the request buffer. *)
Theorem batch_stops_at_first_misfit (s : Session M)
  (l1 l2 : list request_cmd) (c : request_cmd) :
  well_formed cfg = true ->
  request_array cfg (m_ipc_buffer s) ->
  reply_array cfg (m_ret_buffer s) ->
  Forall in_range l1 -> in_range c ->
  Z.of_nat (length (l1 ++ c :: l2)) < 2 ^ 16 ->
  fits cfg l1 -> ~ fits cfg (l1 ++ [c]) ->
  snd (Exchange cfg true s (Some (batch_request cfg (l1 ++ c :: l2))))
  = [IPC_FAIL cfg]
  /\ machine (fst (Exchange cfg true s
                     (Some (batch_request cfg (l1 ++ c :: l2)))))
     = snd (perform_all l1 (machine s)).
Proof.
  intros Hwf Hreq Hret Hall Hc Hlen Hfits Hmisfit.
  assert (H3 : 3 <= MAX_IPC_SIZE cfg).
  { destruct Hfits as [Hroom _]. pose proof (request_bytes_nonneg l1). lia. }
  destruct (Exchange_dispatch cfg true s
              (batch_request cfg (l1 ++ c :: l2)) Hwf H3 Hreq)
    as (rest & Hsent & Hvm & _).
  destruct (ParseCommand_batch_stops l1 l2 c (machine s) rest (m_ret_buffer s)
              Hwf Hret Hall Hc Hlen Hfits Hmisfit)
    as (Hsent' & Hvm' & _).
  rewrite Hsent, Hvm. split; assumption.
Qed.

(** X8. Batches compose: when the batch of [l1] followed by [l2] fits, one
    connection with that batch leaves the same memory as a connection with
    the batch of [l1] followed by a connection with the batch of [l2], and
    its reply is the success status followed by the payloads of the two
    replies. *)
Theorem batches_compose (s : Session M) (l1 l2 : list request_cmd) :
  well_formed cfg = true ->
  reply_array cfg (m_ret_buffer s) ->
  Forall in_range (l1 ++ l2) ->
  Z.of_nat (length (l1 ++ l2)) < 2 ^ 16 ->
  fits cfg (l1 ++ l2) ->
  machine (fst (Exchange cfg true s (Some (batch_request cfg (l1 ++ l2)))))
  = machine (fst (Exchange cfg true
                    (fst (Exchange cfg true s (Some (batch_request cfg l1))))
                    (Some (batch_request cfg l2))))
  /\ snd (Exchange cfg true s (Some (batch_request cfg (l1 ++ l2))))
     = IPC_OK cfg
       :: tl (snd (Exchange cfg true s (Some (batch_request cfg l1))))
       ++ tl (snd (Exchange cfg true
                     (fst (Exchange cfg true s
                             (Some (batch_request cfg l1))))
                     (Some (batch_request cfg l2)))).
Proof.
  intros Hwf Hret Hall Hlen Hfits.
  apply Forall_app in Hall. destruct Hall as [Hall1 Hall2].
  rewrite length_app, Nat2Z.inj_add in Hlen.
  assert (Hfits1 : fits cfg l1).
  { destruct Hfits as [Ha Hb].
    rewrite request_bytes_app in Ha. rewrite reply_bytes_app in Hb.
    pose proof (request_bytes_nonneg l2). pose proof (reply_bytes_nonneg l2).
    split; lia. }
  assert (Hfits2 : fits cfg l2).
  { destruct Hfits as [Ha Hb].
    rewrite request_bytes_app in Ha. rewrite reply_bytes_app in Hb.
    pose proof (request_bytes_nonneg l1). pose proof (reply_bytes_nonneg l1).
    split; lia. }
  assert (Hlen12 : Z.of_nat (length (l1 ++ l2)) < 2 ^ 16)
    by (rewrite length_app, Nat2Z.inj_add; lia).
  cbn [Exchange fst snd machine m_ret_buffer].
  rewrite !read_portable_short
    by (rewrite length_batch_request;
        destruct Hfits, Hfits1, Hfits2; lia).
  destruct (ParseCommand_batch (l1 ++ l2) (machine s)
              (skipn (length (batch_request cfg (l1 ++ l2))) (m_ipc_buffer s))
              (m_ret_buffer s) Hwf Hret
              ltac:(apply Forall_app; split; assumption) Hlen12 Hfits)
    as (Hsent & Hvm & _).
  destruct (ParseCommand_batch l1 (machine s)
              (skipn (length (batch_request cfg l1)) (m_ipc_buffer s))
              (m_ret_buffer s) Hwf Hret Hall1 ltac:(lia) Hfits1)
    as (Hsent1 & Hvm1 & _ & Hret1).
  rewrite Hsent, Hvm, Hsent1, Hvm1.
  match goal with
  | |- _ = vm_after (ParseCommand cfg true ?m1 (_ ++ ?rest1) ?ret1) /\ _ =>
      destruct (ParseCommand_batch l2 m1 rest1 ret1 Hwf Hret1 Hall2
                  ltac:(lia) Hfits2) as (Hsent2 & Hvm2 & _)
  end.
  rewrite Hsent2, Hvm2, perform_all_app. cbn [fst snd tl].
  now rewrite payload_app.
Qed.

(** X9. A request without the batch tag is a batch of one: a sub-command
    sent alone and the same sub-command sent behind the header of a batch of
    1 get the same reply and leave the same memory. *)
Theorem single_command_is_batch_of_one (s : Session M) (c : request_cmd) :
  well_formed cfg = true ->
  reply_array cfg (m_ret_buffer s) ->
  in_range c -> fits cfg [c] ->
  snd (Exchange cfg true s (Some (cmd_bytes cfg c)))
  = snd (Exchange cfg true s (Some (batch_request cfg [c])))
  /\ machine (fst (Exchange cfg true s (Some (cmd_bytes cfg c))))
     = machine (fst (Exchange cfg true s (Some (batch_request cfg [c])))).
Proof.
  intros Hwf Hret Hc Hfits.
  pose proof Hfits as [Hroom Hrroom].
  cbn [request_bytes reply_bytes] in Hroom, Hrroom.
  cbn [Exchange fst snd machine].
  rewrite !read_portable_short
    by (rewrite ?length_batch_request, ?length_cmd_bytes;
        cbn [request_bytes]; lia).
  destruct (ParseCommand_single c (machine s)
              (skipn (length (cmd_bytes cfg c)) (m_ipc_buffer s))
              (m_ret_buffer s) Hwf Hret Hc ltac:(lia) ltac:(lia))
    as (Hsent & Hvm).
  destruct (ParseCommand_batch [c] (machine s)
              (skipn (length (batch_request cfg [c])) (m_ipc_buffer s))
              (m_ret_buffer s) Hwf Hret (Forall_cons c Hc (Forall_nil _))
              ltac:(cbn; lia) Hfits)
    as (Hsent' & Hvm' & _).
  rewrite Hsent, Hvm, Hsent', Hvm', perform_all_cons.
  cbn [perform_all fst snd]. split; reflexivity.
Qed.

End BatchReplies.

(** ** The session loop *)

Section LoopFacts.

Variable cfg : IPCConfig.
Variable E : Errnos.
Context {M : Type} {facade : MemoryFacade M}.

(** A read stores at most [MAX_IPC_SIZE] bytes, whatever arrives: the
    request buffer keeps its size. *)
Lemma read_portable_keeps_array (m_ipc_buffer0 data : list byte) :
  0 <= MAX_IPC_SIZE cfg ->
  request_array cfg m_ipc_buffer0 ->
  request_array cfg (read_portable cfg m_ipc_buffer0 data).
Proof.
  unfold request_array, read_portable. intros H0 Hlen.
  rewrite length_app, length_skipn, length_firstn. lia.
Qed.

(** One connection keeps the two arrays, and what it sends is a reply of
    the protocol. *)
Lemma Exchange_keeps_arrays (active : bool) (s : Session M)
  (data : option (list byte)) :
  well_formed cfg = true ->
  request_array cfg (m_ipc_buffer s) -> reply_array cfg (m_ret_buffer s) ->
  request_array cfg (m_ipc_buffer (fst (Exchange cfg active s data)))
  /\ reply_array cfg (m_ret_buffer (fst (Exchange cfg active s data)))
  /\ (data <> None -> well_shaped cfg (snd (Exchange cfg active s data))).
Proof.
  intros Hwf Hreq Hret.
  destruct (well_formed_sizes cfg Hwf) as (_ & Hmax & _).
  destruct data as [d|]; cbn [Exchange fst snd m_ipc_buffer m_ret_buffer].
  - destruct (ParseCommand_well_shaped cfg active (machine s)
                (read_portable cfg (m_ipc_buffer s) d) (m_ret_buffer s)
                Hwf Hret) as (Hshape & _ & Hbuf).
    split; [apply read_portable_keeps_array; [lia|exact Hreq]|].
    split; [exact Hbuf|]. intros _. exact Hshape.
  - split; [exact Hreq|]. split; [exact Hret|]. intros H. now elim H.
Qed.

Lemma ExecuteTaskInThread_keeps (events : list (Accepted M)) :
  well_formed cfg = true ->
  forall (s : Session M) (out : list (list byte)),
    request_array cfg (m_ipc_buffer s) -> reply_array cfg (m_ret_buffer s) ->
    Forall (well_shaped cfg) out ->
    request_array cfg
      (m_ipc_buffer (session (ExecuteTaskInThread cfg E events s out)))
    /\ reply_array cfg
         (m_ret_buffer (session (ExecuteTaskInThread cfg E events s out)))
    /\ Forall (well_shaped cfg)
         (replies (ExecuteTaskInThread cfg E events s out)).
Proof.
  intros Hwf. induction events as [|e events IH]; intros s out Hreq Hret Hout.
  - cbn. repeat split; assumption.
  - destruct e as [errno|active emulated data]; cbn [ExecuteTaskInThread].
    + destruct (negb (recoverable E errno)).
      * cbn. repeat split; assumption.
      * now apply IH.
    + set (now := {| m_ipc_buffer := m_ipc_buffer s;
                     m_ret_buffer := m_ret_buffer s;
                     machine := emulated (machine s) |}).
      destruct (Exchange_keeps_arrays active now data Hwf Hreq Hret)
        as (Hreq' & Hret' & Hshape).
      apply IH; try assumption.
      destruct data as [d|]; [|exact Hout].
      apply Forall_app. split; [exact Hout|].
      constructor; [|constructor]. now apply Hshape.
Qed.

Lemma ExecuteTaskInThread_m_end (events : list (Accepted M)) :
  forall (s : Session M) (out : list (list byte)),
    m_end (ExecuteTaskInThread cfg E events s out) = existsb (fatal E) events.
Proof.
  induction events as [|e events IH]; intros s out; [reflexivity|].
  destruct e as [errno|active emulated data];
    cbn [ExecuteTaskInThread existsb fatal].
  - destruct (negb (recoverable E errno)); [reflexivity|]. apply IH.
  - apply IH.
Qed.

(** X10. Over any number of turns of the session loop the two buffers stay
    the arrays they were allocated as, whatever the connections deliver
    (requests longer than the buffer included), and every reply written to
    a connection is a reply of the protocol: the failure status alone or the
    success status with a payload, at most [MAX_IPC_RETURN_SIZE] bytes. *)
Theorem session_loop_keeps_buffers (events : list (Accepted M))
  (s : Session M) :
  well_formed cfg = true ->
  request_array cfg (m_ipc_buffer s) -> reply_array cfg (m_ret_buffer s) ->
  request_array cfg
    (m_ipc_buffer (session (ExecuteTaskInThread cfg E events s [])))
  /\ reply_array cfg
       (m_ret_buffer (session (ExecuteTaskInThread cfg E events s [])))
  /\ Forall (well_shaped cfg)
       (replies (ExecuteTaskInThread cfg E events s [])).
Proof.
  intros Hwf Hreq Hret.
  now apply ExecuteTaskInThread_keeps.
Qed.

(** X11. The loop ends, with [m_end] set, exactly when some [accept]
    failed with an [errno] that is not one of the four recoverable ones;
    and it ends at the first such failure: the turns behind it change
    neither the session nor the replies written. *)
Theorem loop_ends_at_unrecoverable_error (before after : list (Accepted M))
  (errno : Z) (s : Session M) :
  recoverable E errno = false ->
  ExecuteTaskInThread cfg E (before ++ Failed errno :: after) s []
  = ExecuteTaskInThread cfg E (before ++ [Failed errno]) s []
  /\ m_end (ExecuteTaskInThread cfg E (before ++ Failed errno :: after) s [])
     = true
  /\ (m_end (ExecuteTaskInThread cfg E before s []) = true
      <-> exists e, In e before /\ fatal E e = true).
Proof.
  intros Herr. split; [|split].
  - generalize (@nil (list byte)) as out. revert s.
    induction before as [|e before IH]; intros s out.
    + cbn [app ExecuteTaskInThread]. now rewrite Herr.
    + destruct e as [n|active emulated data];
        cbn [app ExecuteTaskInThread].
      * destruct (negb (recoverable E n)); [reflexivity|]. apply IH.
      * apply IH.
  - rewrite ExecuteTaskInThread_m_end, existsb_app. cbn [existsb fatal].
    rewrite Herr. cbn [negb orb]. apply orb_true_r.
  - rewrite ExecuteTaskInThread_m_end. apply existsb_exists.
Qed.

(** X12. A recoverable [accept] failure, and a connection whose read failed
    while the emulator left the memory alone, leave no trace: with or
    without such a turn the loop ends in the same session with the same
    replies written. *)
Theorem skipped_turn_leaves_no_trace (before after : list (Accepted M))
  (e : Accepted M) (s : Session M) :
  skipped E e ->
  ExecuteTaskInThread cfg E (before ++ e :: after) s []
  = ExecuteTaskInThread cfg E (before ++ after) s [].
Proof.
  intros Hskip. generalize (@nil (list byte)) as out. revert s.
  induction before as [|t before IH]; intros s out.
  - cbn [app]. destruct e as [errno|active emulated data];
      cbn [ExecuteTaskInThread skipped] in *.
    + now rewrite Hskip.
    + destruct Hskip as [-> Hid]. cbn [Exchange fst snd].
      rewrite Hid. now destruct s.
  - destruct t as [n|active emulated data]; cbn [app ExecuteTaskInThread].
    + destruct (negb (recoverable E n)); [reflexivity|]. apply IH.
    + apply IH.
Qed.

Lemma ExecuteTaskInThread_replies (events : list (Accepted M)) :
  existsb (fatal E) events = false ->
  forall (s : Session M) (out : list (list byte)),
    length (replies (ExecuteTaskInThread cfg E events s out))
    = (length out + length (filter (@answered M) events))%nat.
Proof.
  induction events as [|e events IH]; intros Hno s out.
  - cbn. lia.
  - cbn [existsb] in Hno. apply orb_false_iff in Hno. destruct Hno as [He Hno].
    destruct e as [errno|active emulated data];
      cbn [ExecuteTaskInThread filter answered fatal] in *.
    + rewrite He. now apply IH.
    + rewrite (IH Hno). destruct data as [d|].
      * rewrite length_app. cbn [length]. lia.
      * reflexivity.
Qed.

(** X13. As long as no [accept] failure is unrecoverable, the loop writes
    one reply for each connection whose read succeeded, and none for the
    other turns. *)
Theorem one_reply_per_connection_read (events : list (Accepted M))
  (s : Session M) :
  existsb (fatal E) events = false ->
  length (replies (ExecuteTaskInThread cfg E events s []))
  = length (filter (@answered M) events).
Proof.
  intros Hno. now rewrite ExecuteTaskInThread_replies.
Qed.

(** X14. The dispatcher is not told how many bytes were read, so a
    connection that delivers no byte at all is served like one that
    delivers the previous request again: after a connection that delivered
    [d], an empty read and a read of [d] are answered alike and leave the
    same session. *)
Theorem empty_read_replays_previous_request (active active' : bool)
  (s : Session M) (d : list byte) :
  Z.of_nat (length d) <= MAX_IPC_SIZE cfg ->
  Exchange cfg active' (fst (Exchange cfg active s (Some d))) (Some [])
  = Exchange cfg active' (fst (Exchange cfg active s (Some d))) (Some d).
Proof.
  intros Hd. cbn [Exchange fst snd m_ipc_buffer m_ret_buffer machine].
  rewrite (read_portable_short cfg (m_ipc_buffer s) d Hd).
  assert (Hsame : read_portable cfg
                    (d ++ skipn (length d) (m_ipc_buffer s)) []
                  = read_portable cfg
                      (d ++ skipn (length d) (m_ipc_buffer s)) d).
  { rewrite (read_portable_short cfg _ d Hd).
    unfold read_portable. rewrite firstn_nil. cbn [length skipn app].
    rewrite skipn_app, Nat.sub_diag, skipn_all. reflexivity. }
  now rewrite Hsame.
Qed.

End LoopFacts.

(** ** The further properties on the sample instance *)

Section SampleExtras.

Import Sample.

(** X1 on [bad_batch]. *)
Lemma reply_is_well_shaped_witness :
  well_shaped small
    (sent (reply (ParseCommand small true pattern bad_batch (filled 16 [])))).
Proof.
  refine (proj1 (reply_is_well_shaped small true pattern bad_batch
                   (filled 16 []) _ _)); reflexivity.
Defined.


(** X3 on a Read16 with a zeroed and with a used reply buffer. *)
Lemma reply_ignores_old_reply_buffer_witness :
  sent (reply (ParseCommand small true pattern (filled 32 [1; 16; 0; 0; 0])
                 (filled 16 [])))
  = sent (reply (ParseCommand small true pattern (filled 32 [1; 16; 0; 0; 0])
                   (filled 16 [0; 9; 9; 9; 9]))).
Proof.
  refine (proj1 (reply_ignores_old_reply_buffer small true pattern
                   (filled 32 [1; 16; 0; 0; 0]) (filled 16 [])
                   (filled 16 [0; 9; 9; 9; 9]) _ _ _)); reflexivity.
Defined.

(** X4 on a Read16 with a used reply buffer: the bytes behind the three
    bytes of the reply stay. *)
Lemma reply_buffer_tail_is_kept_witness :
  skipn 3 (buffer (reply (ParseCommand small true pattern
                            (filled 32 [1; 16; 0; 0; 0])
                            (filled 16 [0; 9; 9; 9; 9]))))
  = skipn 3 (filled 16 [0; 9; 9; 9; 9]).
Proof.
  refine (reply_buffer_tail_is_kept small pattern (filled 32 [1; 16; 0; 0; 0])
            (filled 16 [0; 9; 9; 9; 9]) _ _ _); reflexivity.
Defined.

(** X6 on [three_cmds]. *)
Lemma batch_is_performed_in_order_witness :
  snd (Exchange small true fresh (Some (batch_request small three_cmds)))
  = [Byte.x00; Byte.x37; Byte.x3a; Byte.xff; Byte.x3a].
Proof.
  refine (proj1 (batch_is_performed_in_order small fresh three_cmds
                   _ _ _ _ _)).
  - reflexivity.
  - reflexivity.
  - repeat constructor; vm_compute; discriminate.
  - vm_compute. reflexivity.
  - split; vm_compute; discriminate.
Defined.

(** X7 on [three_read64]: the second Read64 does not fit the reply. *)
Lemma batch_stops_at_first_misfit_witness :
  snd (Exchange small true fresh (Some (batch_request small three_read64)))
  = [IPC_FAIL small]
  /\ machine (fst (Exchange small true fresh
                     (Some (batch_request small three_read64))))
     = snd (perform_all [ReadAt U64 0] pattern).
Proof.
  refine (batch_stops_at_first_misfit small fresh [ReadAt U64 0]
            [ReadAt U64 16] (ReadAt U64 8) _ _ _ _ _ _ _ _).
  - reflexivity.
  - reflexivity.
  - reflexivity.
  - repeat constructor; vm_compute; discriminate.
  - split; vm_compute; [discriminate|reflexivity].
  - vm_compute. reflexivity.
  - split; vm_compute; discriminate.
  - intros [_ H]. vm_compute in H. now apply H.
Defined.

(** X8 on [three_cmds] cut behind the write. *)
Lemma batches_compose_witness :
  snd (Exchange small true fresh
         (Some (batch_request small
                  ([ReadAt U16 16; WriteAt U8 16 255] ++ [ReadAt U16 16]))))
  = IPC_OK small
    :: tl (snd (Exchange small true fresh
                  (Some (batch_request small
                           [ReadAt U16 16; WriteAt U8 16 255]))))
    ++ tl (snd (Exchange small true
                  (fst (Exchange small true fresh
                          (Some (batch_request small
                                   [ReadAt U16 16; WriteAt U8 16 255]))))
                  (Some (batch_request small [ReadAt U16 16])))).
Proof.
  refine (proj2 (batches_compose small fresh
                   [ReadAt U16 16; WriteAt U8 16 255] [ReadAt U16 16]
                   _ _ _ _ _)).
  - reflexivity.
  - reflexivity.
  - repeat constructor; vm_compute; discriminate.
  - vm_compute. reflexivity.
  - split; vm_compute; discriminate.
Defined.

(** X9 on a Read32 at [0x1000]. *)
Lemma single_command_is_batch_of_one_witness :
  snd (Exchange small true fresh (Some (cmd_bytes small (ReadAt U32 4096))))
  = snd (Exchange small true fresh
           (Some (batch_request small [ReadAt U32 4096]))).
Proof.
  refine (proj1 (single_command_is_batch_of_one small fresh (ReadAt U32 4096)
                   _ _ _ _)).
  - reflexivity.
  - reflexivity.
  - split; vm_compute; [discriminate|reflexivity].
  - split; vm_compute; discriminate.
Defined.

(** X10 on [five_turns]. *)
Lemma session_loop_keeps_buffers_witness :
  Forall (well_shaped small)
    (replies (ExecuteTaskInThread small linux five_turns fresh [])).
Proof.
  refine (proj2 (proj2 (session_loop_keeps_buffers small linux five_turns
                          fresh _ _ _))); reflexivity.
Defined.

(** X11 on [five_turns] with a sixth turn behind the failure with
    [EBADF]. *)
Lemma loop_ends_at_unrecoverable_error_witness :
  ExecuteTaskInThread small linux
    (firstn 4 five_turns
       ++ Failed 9
          :: [Connected true paused (Some (read_request small U8 17))])
    fresh []
  = ExecuteTaskInThread small linux (firstn 4 five_turns ++ [Failed 9])
      fresh [].
Proof.
  refine (proj1 (loop_ends_at_unrecoverable_error small linux
                   (firstn 4 five_turns)
                   [Connected true paused (Some (read_request small U8 17))]
                   9 fresh _)).
  reflexivity.
Defined.

(** X12 on the interrupted [accept] of [five_turns]. *)
Lemma skipped_turn_leaves_no_trace_witness :
  ExecuteTaskInThread small linux
    (firstn 1 five_turns ++ Failed 4 :: skipn 2 five_turns) fresh []
  = ExecuteTaskInThread small linux
      (firstn 1 five_turns ++ skipn 2 five_turns) fresh [].
Proof.
  refine (skipped_turn_leaves_no_trace small linux (firstn 1 five_turns)
            (skipn 2 five_turns) (Failed 4) fresh _).
  reflexivity.
Defined.

(** X13 on the first four of [five_turns]: two connections were read. *)
Lemma one_reply_per_connection_read_witness :
  length (replies (ExecuteTaskInThread small linux (firstn 4 five_turns)
                     fresh []))
  = 2%nat.
Proof.
  refine (one_reply_per_connection_read small linux (firstn 4 five_turns)
            fresh _).
  reflexivity.
Defined.

(** X14 after a Read8 at [0x10]. *)
Lemma empty_read_replays_previous_request_witness :
  snd (Exchange small true
         (fst (Exchange small true fresh (Some (read_request small U8 16))))
         (Some []))
  = snd (Exchange small true
           (fst (Exchange small true fresh (Some (read_request small U8 16))))
           (Some (read_request small U8 16))).
Proof.
  refine (f_equal snd
            (empty_read_replays_previous_request small true true fresh
               (read_request small U8 16) _)).
  vm_compute. discriminate.
Defined.

End SampleExtras.

(** ** The sub-commands that a request carries *)

Section Decoding.

Variable cfg : IPCConfig.
Context {M : Type} {facade : MemoryFacade M}.

Lemma bytes_at_S (buf : list byte) (i : Z) (n : nat) :
  bytes_at buf i (S n) = byte_at buf i :: bytes_at buf (i + 1) n.
Proof.
  unfold bytes_at. cbn [seq map]. rewrite Z.add_0_r. f_equal.
  rewrite <- seq_shift, map_map. apply map_ext. intros k.
  f_equal. lia.
Qed.

Lemma bytes_at_split (buf : list byte) (i : Z) (n k : nat) :
  bytes_at buf i (n + k)
  = bytes_at buf i n ++ bytes_at buf (i + Z.of_nat n) k.
Proof.
  revert i. induction n as [|n IH]; intros i.
  - cbn [Nat.add app]. unfold bytes_at at 2. cbn [seq map app].
    now rewrite Z.add_0_r.
  - cbn [Nat.add]. rewrite !bytes_at_S, IH. cbn [app]. do 3 f_equal. lia.
Qed.

(** Bytes read inside the array are a slice of it. *)
Lemma skipn_bytes_at (buf : list byte) (i : Z) (n : nat) :
  0 <= i -> i + Z.of_nat n <= Z.of_nat (length buf) ->
  skipn (Z.to_nat i) buf
  = bytes_at buf i n ++ skipn (Z.to_nat (i + Z.of_nat n)) buf.
Proof.
  intros Hi Hn.
  set (tail := skipn (Z.to_nat i) buf).
  assert (Hlen : length (firstn n tail) = n).
  { unfold tail. rewrite length_firstn, length_skipn. lia. }
  assert (Hpre : Z.of_nat (length (firstn (Z.to_nat i) buf)) = i).
  { rewrite length_firstn. lia. }
  assert (Hslice : bytes_at buf i n = firstn n tail).
  { pose proof (bytes_at_middle (firstn (Z.to_nat i) buf) (firstn n tail)
                  (skipn n tail)) as H.
    rewrite (firstn_skipn n tail) in H. unfold tail in H at 1.
    rewrite (firstn_skipn (Z.to_nat i) buf), Hpre, Hlen in H. exact H. }
  rewrite Hslice.
  replace (Z.to_nat (i + Z.of_nat n)) with (n + Z.to_nat i)%nat by lia.
  rewrite <- skipn_skipn. fold tail. symmetry. apply firstn_skipn.
Qed.

Lemma encode_decode (o : byte_order) (bs : list byte) :
  encode o (length bs) (decode o bs) = bs.
Proof.
  destruct o; cbn [encode decode].
  - apply split_le_combine.
  - rewrite <- (length_rev bs), split_le_combine. apply rev_involutive.
Qed.

Lemma operation_cmd_at (buf : list byte) (c : Z) (op : command) :
  operation (cmd_at cfg buf c op) = op.
Proof. now destruct op. Qed.

Lemma in_range_cmd_at (buf : list byte) (c : Z) (op : command) :
  in_range (cmd_at cfg buf c op).
Proof.
  assert (Ha : 0 <= FromArray cfg U32 (buf, c) 1 < 2 ^ 32).
  { unfold FromArray.
    pose proof (decode_bound (wire_order cfg)
                  (bytes_at (fst (buf, c)) (snd (buf, c) + 1) (sizeof U32)))
      as H.
    now rewrite length_bytes_at in H. }
  destruct op as [T|T]; cbn [cmd_at in_range]; [exact Ha|].
  split; [exact Ha|]. unfold FromArray, bits.
  pose proof (decode_bound (wire_order cfg)
                (bytes_at (fst (buf, c)) (snd (buf, c) + 5) (sizeof T))) as H.
  now rewrite length_bytes_at in H.
Qed.

(** The bytes at the cursor are the encoding of the sub-command they
    decode to. *)
Lemma cmd_bytes_cmd_at (buf : list byte) (c : Z) (op : command) :
  byte_at buf c = label cfg op ->
  cmd_bytes cfg (cmd_at cfg buf c op)
  = bytes_at buf c (Z.to_nat (command_size op)).
Proof.
  intros Hop.
  assert (H4 : encode (wire_order cfg) 4 (FromArray cfg U32 (buf, c) 1)
               = bytes_at buf (c + 1) 4).
  { unfold FromArray. cbn [fst snd sizeof].
    rewrite <- (length_bytes_at buf (c + 1) 4) at 1. apply encode_decode. }
  destruct op as [T|T]; cbn [cmd_at cmd_bytes command_size].
  - unfold read_request. rewrite H4, <- Hop.
    change (Z.to_nat 5) with (S 4). now rewrite (bytes_at_S buf c 4).
  - unfold write_request. rewrite H4, <- Hop.
    replace (Z.to_nat (5 + Z.of_nat (sizeof T))) with (S (4 + sizeof T))
      by lia.
    rewrite (bytes_at_S buf c), bytes_at_split. do 2 f_equal.
    unfold FromArray. cbn [fst snd].
    rewrite <- (length_bytes_at buf (c + 5) (sizeof T)) at 1.
    rewrite encode_decode. f_equal. lia.
Qed.

(** An iteration that does not jump to [error] ran the case of the opcode
    at the cursor, after its check. *)
Lemma ParseSub_next_label (buf : list byte) (st st' : ParseState M) :
  ParseSub cfg buf st = Next st' ->
  exists op, byte_at buf (buf_cnt st) = label cfg op
             /\ check cfg op st = true
             /\ st' = run cfg op buf st.
Proof.
  unfold ParseSub. intros H.
  repeat match type of H with
         | context [Byte.eqb ?a ?b] =>
             let E := fresh "E" in
             destruct (Byte.eqb a b) eqn:E;
             [apply Byte.byte_dec_bl in E;
              match type of H with
              | context [SafetyChecks cfg ?c ?n ?r ?k] =>
                  let Ec := fresh "Ec" in
                  destruct (SafetyChecks cfg c n r k) eqn:Ec;
                  cbn [negb] in H; [|discriminate H]
              end|]
         end; try discriminate H; injection H as <-.
  - exists (Read U8). repeat split; assumption.
  - exists (Read U16). repeat split; assumption.
  - exists (Read U32). repeat split; assumption.
  - exists (Read U64). repeat split; assumption.
  - exists (Write U8). repeat split; assumption.
  - exists (Write U16). repeat split; assumption.
  - exists (Write U32). repeat split; assumption.
  - exists (Write U64). repeat split; assumption.
Qed.

(** The payload of the calls of a list of sub-commands is the values of its
    reads. *)
Lemma payload_perform_all (l : list request_cmd) (m : M) :
  payload cfg (fst (perform_all l m)) = read_values cfg l m.
Proof.
  revert m. induction l as [|c l IH]; intros m; [reflexivity|].
  rewrite perform_all_cons. cbn [fst].
  change (fst (perform c m) :: fst (perform_all l (snd (perform c m))))
    with ([fst (perform c m)] ++ fst (perform_all l (snd (perform c m)))).
  rewrite payload_app, IH. destruct c as [T a|T a v]; cbn [perform fst snd read_values].
  - cbn [payload flat_map]. now rewrite app_nil_r, encode_wrap.
  - reflexivity.
Qed.

(** A loop that completes on sub-commands laid out at the cursor has
    performed them, in order. *)
Lemma ParseLoop_carried (l : list request_cmd) :
  well_formed cfg = true -> Forall in_range l ->
  forall (pre rest : list byte) (st st' : ParseState M),
    buf_cnt st = Z.of_nat (length pre) -> 0 <= ret_cnt st ->
    ParseLoop cfg (length l) (pre ++ cmds_bytes cfg l ++ rest) st = Next st' ->
    vm st' = snd (perform_all l (vm st))
    /\ calls st' = calls st ++ fst (perform_all l (vm st))
    /\ ret_cnt st' = ret_cnt st + reply_bytes l.
Proof.
  intros Hwf Hall. induction Hall as [|c l Hc Hall IH];
    intros pre rest st st' Hb Hr Hloop.
  - cbn in Hloop. injection Hloop as <-.
    cbn [perform_all fst snd reply_bytes]. rewrite app_nil_r.
    repeat split; lia.
  - cbn [cmds_bytes flat_map length ParseLoop] in Hloop.
    fold (cmds_bytes cfg l) in Hloop. rewrite <- app_assoc in Hloop.
    destruct (check cfg (operation c) st) eqn:Hcheck.
    + destruct (ParseSub_cmd cfg c pre (cmds_bytes cfg l ++ rest) st Hwf Hc
                  Hb Hr Hcheck) as (s1 & Hs1 & Hvm1 & Hcalls1 & Hb1 & Hr1).
      rewrite Hs1 in Hloop.
      replace (pre ++ cmd_bytes cfg c ++ cmds_bytes cfg l ++ rest)
        with ((pre ++ cmd_bytes cfg c) ++ cmds_bytes cfg l ++ rest)
        in Hloop by (now rewrite <- app_assoc).
      pose proof (reply_size_range (operation c)) as Hrs.
      destruct (IH (pre ++ cmd_bytes cfg c) rest s1 st' Hb1 ltac:(lia) Hloop)
        as (Hvm & Hcalls & Hr').
      rewrite perform_all_cons. cbn [fst snd reply_bytes].
      rewrite Hvm, Hcalls, Hr', Hvm1, Hcalls1, Hr1.
      split; [reflexivity|]. split; [now rewrite <- app_assoc|lia].
    + rewrite (ParseSub_cmd_fails cfg c pre (cmds_bytes cfg l ++ rest) st
                 Hwf Hc Hb Hcheck) in Hloop.
      discriminate Hloop.
Qed.

(** A loop that completes on a request array ran on the encoding of some
    sub-commands, which it performed in order. *)
Lemma ParseLoop_decodes (n : nat) (buf : list byte) :
  well_formed cfg = true -> request_array cfg buf ->
  forall st st' : ParseState M,
    cursors_in_range cfg st ->
    ParseLoop cfg n buf st = Next st' ->
    exists l,
      length l = n /\ Forall in_range l
      /\ skipn (Z.to_nat (buf_cnt st)) buf
         = cmds_bytes cfg l ++ skipn (Z.to_nat (buf_cnt st')) buf
      /\ vm st' = snd (perform_all l (vm st))
      /\ calls st' = calls st ++ fst (perform_all l (vm st))
      /\ buf_cnt st' = buf_cnt st + request_bytes l
      /\ ret_cnt st' = ret_cnt st + reply_bytes l.
Proof.
  intros Hwf Hlen. unfold request_array in Hlen.
  induction n as [|n IH]; intros st st' Hin Hloop.
  - cbn in Hloop. injection Hloop as <-. exists [].
    cbn [length cmds_bytes flat_map app perform_all fst snd request_bytes
         reply_bytes].
    rewrite app_nil_r. repeat split; try lia. constructor.
  - cbn [ParseLoop] in Hloop.
    destruct (ParseSub cfg buf st) as [s1|s1] eqn:Es; [|discriminate Hloop].
    destruct (ParseSub_next_label buf st s1 Es) as (op & Hop & Hcheck & _).
    destruct (ParseSub_cursors cfg buf st s1 Hwf Hin Es) as (Hin1 & _ & _).
    destruct Hin as (Hb & Hr).
    pose proof Hcheck as Hroom. apply check_true in Hroom.
    destruct Hroom as [Hroom _].
    pose proof (command_size_range op) as Hcs.
    set (c := cmd_at cfg buf (buf_cnt st) op).
    pose proof (cmd_bytes_cmd_at buf (buf_cnt st) op Hop) as Hbytes.
    fold c in Hbytes.
    pose proof (skipn_bytes_at buf (buf_cnt st) (Z.to_nat (command_size op))
                  Hb ltac:(lia)) as Hskip.
    rewrite <- Hbytes, Z2Nat.id in Hskip by lia.
    assert (Hbuf : buf = firstn (Z.to_nat (buf_cnt st)) buf
                           ++ cmd_bytes cfg c
                           ++ skipn (Z.to_nat (buf_cnt st + command_size op))
                                buf).
    { rewrite <- Hskip. symmetry. apply firstn_skipn. }
    destruct (ParseSub_cmd cfg c (firstn (Z.to_nat (buf_cnt st)) buf)
                (skipn (Z.to_nat (buf_cnt st + command_size op)) buf) st
                Hwf (in_range_cmd_at buf (buf_cnt st) op))
      as (s & Hs & Hvm1 & Hcalls1 & Hb1 & Hr1).
    + rewrite length_firstn. lia.
    + lia.
    + unfold c. now rewrite operation_cmd_at.
    + rewrite <- Hbuf in Hs. rewrite Es in Hs. injection Hs as <-.
      rewrite length_app, Nat2Z.inj_add, length_firstn, length_cmd_bytes in Hb1.
      assert (Hopc : operation c = op) by apply operation_cmd_at.
      rewrite Hopc in Hb1, Hr1.
      replace (Z.of_nat (Nat.min (Z.to_nat (buf_cnt st)) (length buf)))
        with (buf_cnt st) in Hb1 by lia.
      destruct (IH s1 st' Hin1 Hloop)
        as (l & Hl & Hall & Hrest & Hvm & Hcalls & Hb' & Hr').
      exists (c :: l). rewrite perform_all_cons.
      cbn [length cmds_bytes flat_map fst snd request_bytes reply_bytes].
      fold (cmds_bytes cfg l). rewrite Hopc.
      rewrite Hvm, Hcalls, Hb', Hr', Hvm1, Hcalls1, Hb1, Hr1.
      split; [now rewrite Hl|].
      split; [constructor; [apply in_range_cmd_at|exact Hall]|].
      split; [|split; [reflexivity|split; [now rewrite <- app_assoc|lia]]].
      rewrite Hskip, <- app_assoc. f_equal. rewrite <- Hb1, <- Hb'. exact Hrest.
Qed.

(** A loop that ends at [error] completed some iterations and then met a
    sub-command that jumped there. *)
Lemma ParseLoop_abort_at (n : nat) (buf : list byte) (st e : ParseState M) :
  ParseLoop cfg n buf st = Abort e ->
  exists k, (k < n)%nat /\ ParseLoop cfg k buf st = Next e
            /\ ParseSub cfg buf e = Abort e.
Proof.
  revert st. induction n as [|n IH]; intros st He; [discriminate|].
  cbn [ParseLoop] in He. destruct (ParseSub cfg buf st) as [s|s] eqn:Es.
  - destruct (IH s He) as (k & Hk & Hs & Ha). exists (S k).
    split; [lia|]. split; [|exact Ha]. cbn [ParseLoop]. now rewrite Es.
  - injection He as <-. pose proof (ParseSub_abort_same cfg buf st s Es).
    subst s. exists 0%nat. split; [lia|]. split; [reflexivity|exact Es].
Qed.

(** A byte is the opcode of some case, or of none. *)
Lemma label_or_none (b : byte) :
  (exists op, b = label cfg op) \/ (forall op, b <> label cfg op).
Proof.
  destruct (Byte.byte_eq_dec b (label cfg (Read U8))); [left; eauto|].
  destruct (Byte.byte_eq_dec b (label cfg (Read U16))); [left; eauto|].
  destruct (Byte.byte_eq_dec b (label cfg (Read U32))); [left; eauto|].
  destruct (Byte.byte_eq_dec b (label cfg (Read U64))); [left; eauto|].
  destruct (Byte.byte_eq_dec b (label cfg (Write U8))); [left; eauto|].
  destruct (Byte.byte_eq_dec b (label cfg (Write U16))); [left; eauto|].
  destruct (Byte.byte_eq_dec b (label cfg (Write U32))); [left; eauto|].
  destruct (Byte.byte_eq_dec b (label cfg (Write U64))); [left; eauto|].
  right. intros [[]|[]]; assumption.
Qed.

End Decoding.

(** ** The reply and the memory in terms of the request on the wire *)

Section Carried.

Variable cfg : IPCConfig.
Context {M : Type} {facade : MemoryFacade M}.

Lemma byte_at_skipn (buf : list byte) (i : Z) :
  byte_at (skipn (Z.to_nat i) buf) 0 = byte_at buf i.
Proof.
  unfold byte_at. change (Z.to_nat 0) with 0%nat.
  generalize (Z.to_nat i) as n. intros n. revert buf.
  induction n as [|n IH]; intros [|b buf]; cbn [skipn nth];
    try reflexivity.
  apply IH.
Qed.

(** A batch loop that completes on a request carrying [l] has performed
    [l]. *)
Lemma BatchLoop_carried (l : list request_cmd) (m : M)
  (buf ret_buffer0 : list byte) (st : ParseState M) :
  well_formed cfg = true -> carries cfg buf l ->
  BatchLoop cfg m buf ret_buffer0 = Next st ->
  vm st = snd (perform_all l m)
  /\ calls st = fst (perform_all l m)
  /\ ret_cnt st = 1 + reply_bytes l.
Proof.
  intros Hwf [Hall [rest [[Hcount Hbuf]|(Hone & Hne & Hbuf)]]] Hloop;
    unfold BatchLoop in Hloop.
  - assert (Hh : ParseHeader cfg buf = (Z.of_nat (length l), 3)).
    { rewrite Hbuf. now apply ParseHeader_batch. }
    rewrite Hh in Hloop. cbn [fst] in Hloop. rewrite Nat2Z.id in Hloop.
    assert (Hb : buf_cnt (EnterLoop cfg m buf ret_buffer0)
                 = Z.of_nat (length (batch_header cfg
                                       (Z.of_nat (length l))))).
    { cbn [EnterLoop buf_cnt]. rewrite Hh, length_batch_header.
      reflexivity. }
    rewrite Hbuf in Hloop at 1.
    exact (ParseLoop_carried cfg l Hwf Hall _ rest _ st Hb
             ltac:(cbn [EnterLoop ret_cnt]; lia) Hloop).
  - pose proof (ParseHeader_single cfg buf Hne) as Hh.
    rewrite Hh in Hloop. cbn [fst] in Hloop.
    replace (Z.to_nat 1) with (length l) in Hloop by lia.
    assert (Hb : buf_cnt (EnterLoop cfg m buf ret_buffer0)
                 = Z.of_nat (length (@nil byte))).
    { cbn [EnterLoop buf_cnt]. now rewrite Hh. }
    rewrite Hbuf in Hloop at 1.
    exact (ParseLoop_carried cfg l Hwf Hall [] rest _ st Hb
             ltac:(cbn [EnterLoop ret_cnt]; lia) Hloop).
Qed.

(** The iterations that a loop completes on a request array ran on the
    bytes of as many sub-commands laid out behind the header, and performed
    them. *)
Lemma ParseLoop_layout (k : nat) (m : M) (buf ret_buffer0 : list byte)
  (st : ParseState M) :
  well_formed cfg = true -> 3 <= MAX_IPC_SIZE cfg -> request_array cfg buf ->
  ParseLoop cfg k buf (EnterLoop cfg m buf ret_buffer0) = Next st ->
  exists l,
    length l = k /\ Forall in_range l
    /\ starts_with cfg buf (fst (ParseHeader cfg buf)) l
         (skipn (Z.to_nat (buf_cnt st)) buf)
    /\ vm st = snd (perform_all l m)
    /\ calls st = fst (perform_all l m)
    /\ ret_cnt st = 1 + reply_bytes l
    /\ 0 <= buf_cnt st <= Z.of_nat (length buf).
Proof.
  intros Hwf H3 Hreq Hloop.
  destruct (EnterLoop_cursors cfg m buf ret_buffer0 Hwf) as [Hin Hstart].
  destruct (ParseLoop_decodes cfg k buf Hwf Hreq _ st Hin Hloop)
    as (l & Hl & Hall & Hskip & Hvm & Hcalls & Hb & Hr).
  destruct (ParseLoop_cursors cfg k buf _ st Hwf Hin Hloop)
    as (_ & Hmono & _ & Hmax).
  pose proof (ParseHeader_range cfg buf) as Hcount.
  pose proof (request_bytes_nonneg l) as Hpos.
  unfold request_array in Hreq.
  cbn [EnterLoop vm calls ret_cnt buf_cnt app] in Hskip, Hvm, Hcalls, Hb, Hr,
    Hmono, Hstart.
  exists l. split; [exact Hl|]. split; [exact Hall|].
  split; [|split; [exact Hvm|split; [exact Hcalls|split; [exact Hr|]]]].
  - unfold ParseHeader in Hskip, Hcount |- *.
    destruct (Byte.eqb (byte_at buf 0) (MsgMultiCommand cfg)) eqn:E;
      cbn [fst snd] in Hskip, Hcount |- *.
    + left. split; [exact Hcount|].
      apply Byte.byte_dec_bl in E.
      pose proof (skipn_bytes_at buf 0 3 ltac:(lia) ltac:(lia)) as Hhead.
      change (skipn (Z.to_nat 0) buf) with buf in Hhead.
      rewrite (bytes_at_S buf 0 2), E in Hhead.
      rewrite wrap_U32_small in Hskip by (cbn; lia).
      change (Z.to_nat (0 + Z.of_nat 3)) with (Z.to_nat (0 + 3)) in Hhead.
      rewrite Hskip in Hhead.
      unfold batch_header, FromArray. cbn [fst snd sizeof].
      rewrite <- (length_bytes_at buf (0 + 1) 2) at 1.
      rewrite encode_decode. exact Hhead.
    + right. split; [reflexivity|]. split; [now apply Byte.eqb_false|].
      exact Hskip.
  - destruct k as [|k]; [|specialize (Hmax ltac:(lia)); lia].
    cbn in Hloop. injection Hloop as <-. cbn [EnterLoop buf_cnt]. lia.
Qed.

(** C7. When every iteration of the batch completes, the reply has the
    length [ret_cnt] and starts with the success status; for the
    sub-commands [l] that the request carries on the wire, the bytes after
    the status are the values that the reads of [l] return from the memory
    [m], each encoded in its width, in the order of the request, where a
    read sees the writes before it and a write adds no byte; and a request
    array of three bytes or more on which the loop completes carries such
    sub-commands. A failure reply (machine not active, or a sub-command
    that jumped to [error]) is the status byte alone. *)
Theorem reply_wire_format (HasActiveMachine : bool) (m : M)
  (buf ret_buffer0 : list byte) :
  well_formed cfg = true ->
  reply_array cfg ret_buffer0 ->
  (forall st : ParseState M,
      HasActiveMachine = true ->
      BatchLoop cfg m buf ret_buffer0 = Next st ->
      size (reply (ParseCommand cfg HasActiveMachine m buf ret_buffer0))
      = ret_cnt st
      /\ Z.of_nat (length (sent (reply (ParseCommand cfg HasActiveMachine m
                                          buf ret_buffer0))))
         = ret_cnt st
      /\ (forall l : list request_cmd,
             carries cfg buf l ->
             sent (reply (ParseCommand cfg HasActiveMachine m buf
                            ret_buffer0))
             = IPC_OK cfg :: read_values cfg l m
             /\ ret_cnt st = 1 + reply_bytes l)
      /\ (request_array cfg buf -> 3 <= MAX_IPC_SIZE cfg ->
          exists l : list request_cmd, carries cfg buf l))
  /\ (HasActiveMachine = false
      \/ (exists e : ParseState M, BatchLoop cfg m buf ret_buffer0 = Abort e)
      -> sent (reply (ParseCommand cfg HasActiveMachine m buf ret_buffer0))
         = [IPC_FAIL cfg]).
Proof.
  intros Hwf Hret. split.
  - intros st -> Hloop.
    destruct (ParseCommand_success cfg m buf ret_buffer0 st Hwf Hret Hloop)
      as (Hsize & Hsent & _ & _ & Hlen).
    destruct (EnterLoop_cursors cfg m buf ret_buffer0 Hwf) as [Hin _].
    destruct (ParseLoop_cursors cfg _ buf _ st Hwf Hin Hloop)
      as ((_ & Hr) & _).
    split; [exact Hsize|]. split; [|split].
    + unfold sent. rewrite length_firstn, Hsize. lia.
    + intros l Hl.
      destruct (BatchLoop_carried l m buf ret_buffer0 st Hwf Hl Hloop)
        as (_ & Hcalls & Hcnt).
      split; [|exact Hcnt].
      now rewrite Hsent, Hcalls, payload_perform_all.
    + intros Hreq H3.
      destruct (ParseLoop_layout _ m buf ret_buffer0 st Hwf H3 Hreq Hloop)
        as (l & Hl & Hall & Hlay & _).
      pose proof (ParseHeader_range cfg buf) as Hcount.
      exists l. split; [exact Hall|].
      exists (skipn (Z.to_nat (buf_cnt st)) buf).
      rewrite Hl, Z2Nat.id by lia. exact Hlay.
  - destruct (well_formed_sizes cfg Hwf) as (_ & _ & Hrmax).
    intros [->|[e He]].
    + unfold ParseCommand. cbn [negb reply]. apply sent_fail.
      unfold reply_array in Hret. lia.
    + destruct HasActiveMachine.
      * now destruct (ParseCommand_failure cfg m buf ret_buffer0 e Hwf Hret
                        He) as (_ & Hsent & _).
      * unfold ParseCommand. cbn [negb reply]. apply sent_fail.
        unfold reply_array in Hret. lia.
Qed.

(** X5. On a request array of three bytes or more, [ParseCommand] with an
    active machine does to the memory what performing, in order, the first
    sub-commands laid out on the wire does, and makes their facade calls:
    either all the sub-commands that the request announces, and the reply
    is the success status and the values of their reads; or fewer, the
    reply is the failure status alone, and behind them stands a byte that
    is no opcode or a sub-command that does not fit a buffer. No memory
    access is made for any later byte of the request. *)
Theorem outcome_is_that_of_carried_prefix (m : M)
  (buf ret_buffer0 : list byte) :
  well_formed cfg = true -> 3 <= MAX_IPC_SIZE cfg ->
  request_array cfg buf -> reply_array cfg ret_buffer0 ->
  exists (count : Z) (l : list request_cmd) (rest : list byte),
    Forall in_range l
    /\ starts_with cfg buf count l rest
    /\ vm_after (ParseCommand cfg true m buf ret_buffer0)
       = snd (perform_all l m)
    /\ calls_made (ParseCommand cfg true m buf ret_buffer0)
       = fst (perform_all l m)
    /\ ((Z.of_nat (length l) = count
         /\ sent (reply (ParseCommand cfg true m buf ret_buffer0))
            = IPC_OK cfg :: read_values cfg l m)
        \/ (Z.of_nat (length l) < count
            /\ sent (reply (ParseCommand cfg true m buf ret_buffer0))
               = [IPC_FAIL cfg]
            /\ no_sub_command cfg
                 (Z.of_nat (length buf) - Z.of_nat (length rest))
                 (1 + reply_bytes l) rest)).
Proof.
  intros Hwf H3 Hreq Hret.
  pose proof (ParseHeader_range cfg buf) as Hcount.
  exists (fst (ParseHeader cfg buf)).
  destruct (BatchLoop cfg m buf ret_buffer0) as [st|e] eqn:Hloop.
  - destruct (ParseCommand_success cfg m buf ret_buffer0 st Hwf Hret Hloop)
      as (_ & Hsent & Hvm & Hcalls & _).
    destruct (ParseLoop_layout _ m buf ret_buffer0 st Hwf H3 Hreq Hloop)
      as (l & Hl & Hall & Hlay & Hvm' & Hcalls' & _).
    exists l, (skipn (Z.to_nat (buf_cnt st)) buf).
    split; [exact Hall|]. split; [exact Hlay|].
    split; [congruence|]. split; [congruence|]. left.
    split; [rewrite Hl; lia|].
    now rewrite Hsent, Hcalls', payload_perform_all.
  - destruct (ParseCommand_failure cfg m buf ret_buffer0 e Hwf Hret Hloop)
      as (_ & Hsent & Hvm & Hcalls).
    destruct (ParseLoop_abort_at cfg _ buf _ e Hloop) as (k & Hk & He & Ha).
    destruct (ParseLoop_layout k m buf ret_buffer0 e Hwf H3 Hreq He)
      as (l & Hl & Hall & Hlay & Hvm' & Hcalls' & Hr & Hb).
    exists l, (skipn (Z.to_nat (buf_cnt e)) buf).
    split; [exact Hall|]. split; [exact Hlay|].
    split; [congruence|]. split; [congruence|]. right.
    split; [lia|]. split; [exact Hsent|].
    rewrite length_skipn.
    replace (Z.of_nat (length buf)
             - Z.of_nat (length buf - Z.to_nat (buf_cnt e)))
      with (buf_cnt e) by lia.
    unfold no_sub_command. rewrite byte_at_skipn, <- Hr.
    destruct (label_or_none cfg (byte_at buf (buf_cnt e))) as [[op Hop]|Hno].
    + right. exists op. split; [exact Hop|].
      rewrite (ParseSub_label cfg buf e op Hwf Hop) in Ha.
      destruct (check cfg op e) eqn:Hc; [discriminate Ha|].
      now apply check_false in Hc.
    + left. exact Hno.
Qed.

End Carried.

Section SampleReplies.

Import Sample.

(** C7 on a batch of a Read16, a Write8 to the address read and the Read16
    again: the reply is the status, the two bytes read first and the two
    bytes read after the write. *)
Lemma reply_wire_format_witness :
  sent (reply (ParseCommand small true pattern
                 (batch_request small three_cmds ++ repeat Byte.x00 13)
                 (filled 16 [])))
  = [Byte.x00; Byte.x37; Byte.x3a; Byte.xff; Byte.x3a].
Proof.
  change (sent (reply (ParseCommand small true pattern
                         (batch_request small three_cmds
                            ++ repeat Byte.x00 13)
                         (filled 16 [])))
          = IPC_OK small :: read_values small three_cmds pattern).
  refine (proj1 (proj1 (proj2 (proj2 (proj1
            (reply_wire_format small true pattern
               (batch_request small three_cmds ++ repeat Byte.x00 13)
               (filled 16 []) _ _)
            after_three_cmds _ _))) three_cmds _)).
  - reflexivity.
  - reflexivity.
  - reflexivity.
  - vm_compute. reflexivity.
  - split; [repeat constructor; vm_compute; discriminate|].
    exists (repeat Byte.x00 13). left.
    split; [split; vm_compute; [discriminate|reflexivity]|reflexivity].
Defined.

(** X5 on [bad_batch], a batch of two whose second opcode is unknown. *)
Lemma outcome_is_that_of_carried_prefix_witness :
  exists (count : Z) (l : list request_cmd) (rest : list byte),
    Forall in_range l
    /\ starts_with small bad_batch count l rest
    /\ vm_after (ParseCommand small true pattern bad_batch (filled 16 []))
       = snd (perform_all l pattern)
    /\ calls_made (ParseCommand small true pattern bad_batch (filled 16 []))
       = fst (perform_all l pattern)
    /\ ((Z.of_nat (length l) = count
         /\ sent (reply (ParseCommand small true pattern bad_batch
                           (filled 16 [])))
            = IPC_OK small :: read_values small l pattern)
        \/ (Z.of_nat (length l) < count
            /\ sent (reply (ParseCommand small true pattern bad_batch
                              (filled 16 [])))
               = [IPC_FAIL small]
            /\ no_sub_command small
                 (Z.of_nat (length bad_batch) - Z.of_nat (length rest))
                 (1 + reply_bytes l) rest)).
Proof.
  refine (outcome_is_that_of_carried_prefix small pattern bad_batch
            (filled 16 []) _ _ _ _).
  - reflexivity.
  - vm_compute. discriminate.
  - reflexivity.
  - reflexivity.
Defined.

End SampleReplies.
